(** * github-bulk-delete: the selection parser, the repository client and
      the deletion workflow of [main.py], embedded and verified.

    A Python [str] is a Rocq [string] whose characters are the code points
    below 256; a Python [int] is a [Z]; [None] returned in place of a list
    is [None : option _]; an exception that is raised is an [Exn]. *)

From Stdlib Require Import ZArith NArith String Ascii List Lia DecimalString.
From Stdlib Require DecimalPos.
From stdpp Require Import base tactics option list list_numbers sorting gmap sets strings.

Local Open Scope string_scope.
Local Open Scope list_scope.
Local Open Scope Z_scope.

(** * Part I: the program *)

(** ** Outcomes *)

(** The exceptions [main.py] raises, catches or lets through. *)
Inductive Exn :=
| GitHubError (msg : string)
| RequestException (e : string)
| KeyboardInterrupt
| EOFError
| IndexError
| SystemExit (code : Z)
| ValueError
| OverflowError
| MemoryError.

(** [Diverges] is the outcome of a loop that is still running when the
    fuel given to it is spent. *)
Inductive Result (A : Type) :=
| Return (a : A)
| Raise (e : Exn)
| Diverges.
Arguments Return {A} a.
Arguments Raise {A} e.
Arguments Diverges {A}.

(** ** Python built-ins used by [main.py] *)

Module Py.

(** [str.isspace] on one character: the white space of [str.strip]. *)
Definition isspace (c : ascii) : bool :=
  let n := N_of_ascii c in
  (((9 <=? n) && (n <=? 13)) || ((28 <=? n) && (n <=? 32))
   || (n =? 133) || (n =? 160))%N.

(** The white space skipped by [int(str)]: the separators 28..31 are
    white space for [str.strip] but not for [int]. *)
Definition int_isspace (c : ascii) : bool :=
  let n := N_of_ascii c in
  (((9 <=? n) && (n <=? 13)) || (n =? 32) || (n =? 133) || (n =? 160))%N.

Section Strip.
Variable space : ascii -> bool.

Fixpoint lstrip_with (s : string) : string :=
  match s with
  | EmptyString => EmptyString
  | String c s' => if space c then lstrip_with s' else s
  end.

Fixpoint rstrip_with (s : string) : string :=
  match s with
  | EmptyString => EmptyString
  | String c s' =>
      match rstrip_with s' with
      | EmptyString => if space c then EmptyString else String c EmptyString
      | r => String c r
      end
  end.

Definition strip_with (s : string) : string := rstrip_with (lstrip_with s).
End Strip.

(** [s.strip()] *)
Definition strip : string -> string := strip_with isspace.

(** [s.split(sep)] for a one-character separator: never the empty list. *)
Fixpoint split (sep : ascii) (s : string) : list string :=
  match s with
  | EmptyString => [EmptyString]
  | String c s' =>
      if Ascii.eqb c sep then EmptyString :: split sep s'
      else match split sep s' with
           | [] => [String c EmptyString]
           | p :: ps => String c p :: ps
           end
  end.

(** [c in s] for a one-character [c]. *)
Fixpoint contains (c : ascii) (s : string) : bool :=
  match s with
  | EmptyString => false
  | String c' s' => Ascii.eqb c' c || contains c s'
  end.

Definition digit_of (c : ascii) : option Z :=
  let n := N_of_ascii c in
  if ((48 <=? n) && (n <=? 57))%N then Some (Z.of_N n - 48) else None.

(** The digits of a base-10 literal: digits, with single underscores
    between digits only. [after_digit] tells whether the previous
    character was a digit. *)
Fixpoint int_digits (acc : Z) (after_digit : bool) (s : string) : option Z :=
  match s with
  | EmptyString => if after_digit then Some acc else None
  | String c s' =>
      match digit_of c with
      | Some d => int_digits (10 * acc + d) true s'
      | None =>
          if Ascii.eqb c "_" && after_digit then int_digits acc false s'
          else None
      end
  end.

(** [int(s)] for a [str] argument; [None] is [ValueError]. The value is
    unbounded (the interpreter's optional cap on the number of digits is
    not part of the language and is left out). *)
Definition int_of_str (s : string) : option Z :=
  match strip_with int_isspace s with
  | String "+" r => int_digits 0 false r
  | String "-" r => Z.opp <$> int_digits 0 false r
  | r => int_digits 0 false r
  end.

(** [str(i)] for an [int]. *)
Definition str_of_int (i : Z) : string := NilZero.string_of_int (Z.to_int i).

(** The items of [range(start, stop)], in order. A range object holds its
    bounds only, so it may stand for any number of items; what a list can
    take of them is the matter of [extend_range]. *)
Definition range (start stop : Z) : list Z := seqZ start (stop - start).

(** The limits of the machine the interpreter runs on: [sys.maxsize], the
    largest length a container can report, and the number of items beyond
    which the list [indices] cannot grow for want of memory. *)
Record Machine := {
  maxsize : N;
  capacity : N
}.

(** [indices.extend(range(start, stop))]. The length of the range is asked
    for first, and [OverflowError] is raised when it is above
    [sys.maxsize]; room is then made for the new items, and [MemoryError]
    is raised when the list would grow beyond what the machine holds. A
    range without items asks for no room. Only then are the items added. *)
Definition extend_range (mc : Machine) (indices : list Z) (start stop : Z)
  : Result (list Z) :=
  let n := Z.max 0 (stop - start) in
  if Z.of_N (maxsize mc) <? n then Raise OverflowError
  else if (0 <? n) && (Z.of_N (capacity mc) <? Z.of_nat (length indices) + n)
       then Raise MemoryError
  else Return (indices ++ range start stop).

(** [sorted(list(set(l)))] on integers: the set removes duplicates, its
    iteration order is unspecified, and sorting fixes the order. *)
Definition set_of (l : list Z) : gset Z := list_to_set l.
Definition sorted (l : list Z) : list Z := merge_sort Z.le l.

End Py.

(** ** [parse_indices] *)

(** One iteration of the loop body on a trimmed, non-empty [part], from
    the list [indices] built so far: the list it leaves, or the exception
    it raises. [ValueError] comes from a failing [int] and from a [split]
    that does not unpack into two names; [indices.append] adds one number
    the user typed and is taken to find room; [indices.extend] of a range
    is [Py.extend_range]. *)
Definition parse_part (mc : Py.Machine) (part : string) (indices : list Z)
  : Result (list Z) :=
  if Py.contains "-" part then
    match Py.split "-" part with
    | [start_str; end_str] =>
        match Py.int_of_str start_str with
        | None => Raise ValueError
        | Some start =>
            match Py.int_of_str end_str with
            | None => Raise ValueError
            | Some end_ => Py.extend_range mc indices start (end_ + 1)
            end
        end
    | _ => Raise ValueError
    end
  else
    match Py.int_of_str part with
    | Some i => Return (indices ++ [i])
    | None => Raise ValueError
    end.

(** The [for part in input_str.split(",")] loop inside the [try]: the final
    [indices], or the exception of the first iteration that raises. *)
Fixpoint parse_parts (mc : Py.Machine) (parts : list string) (indices : list Z)
  : Result (list Z) :=
  match parts with
  | [] => Return indices
  | part :: rest =>
      let part := Py.strip part in
      if String.eqb part "" then parse_parts mc rest indices
      else match parse_part mc part indices with
           | Return indices => parse_parts mc rest indices
           | Raise e => Raise e
           | Diverges => Diverges
           end
  end.

(** [i - 1 for i in indices if 1 <= i <= repos_count] *)
Definition in_window (repos_count : Z) (indices : list Z) : list Z :=
  (fun i => i - 1) <$> filter (fun i => 1 <= i <= repos_count) indices.

(** [parse_indices(input_str, repos_count)]: the [except ValueError] clause
    turns that exception into [None]; any other exception of the loop
    leaves the function. *)
Definition parse_indices (mc : Py.Machine) (input_str : string) (repos_count : Z)
  : Result (option (list Z)) :=
  match parse_parts mc (Py.split "," input_str) [] with
  | Return indices =>
      Return (Some (Py.sorted (elements (Py.set_of (in_window repos_count indices)))))
  | Raise ValueError => Return None
  | Raise e => Raise e
  | Diverges => Diverges
  end.

(** *** The selection syntax *)

(** The numbers a trimmed, non-empty [part] stands for: the integer, or the
    integers from the first bound to the second; [None] for a part that
    is neither. *)
Definition part_values (part : string) : option (list Z) :=
  if Py.contains "-" part then
    match Py.split "-" part with
    | [start_str; end_str] =>
        match Py.int_of_str start_str, Py.int_of_str end_str with
        | Some start, Some end_ => Some (Py.range start (end_ + 1))
        | _, _ => None
        end
    | _ => None
    end
  else
    match Py.int_of_str part with
    | Some i => Some [i]
    | None => None
    end.

(** The numbers one comma-separated segment stands for: none when it is
    blank (the [continue]), else those of its trimmed text. They are what
    the loop body adds to [indices] when it does not raise. *)
Definition segment_values (segment : string) : option (list Z) :=
  let part := Py.strip segment in
  if String.eqb part "" then Some [] else part_values part.

(** The selection syntax in the words of the specification: a trimmed
    segment is a single integer, or two integers joined by one hyphen. *)
Definition is_integer (s : string) : Prop := is_Some (Py.int_of_str s).

Definition well_formed_segment (part : string) : Prop :=
  (Py.contains "-" part = false /\ is_integer part) \/
  (exists start_str end_str,
      part = start_str +:+ "-" +:+ end_str /\
      Py.contains "-" start_str = false /\ Py.contains "-" end_str = false /\
      is_integer start_str /\ is_integer end_str).

(** ** The world outside the program *)

(** A repository object of a listing page, with the three members the
    program reads: [name], [owner.login] and [private]. *)
Record Repository := {
  name : string;
  owner_login : string;
  private : bool
}.

Abbreviation Repositories := (list Repository).

(** The answer to one listing request. [status_code] is what the program
    tests; [json_message] is the [message] member of [response.json()] when
    the body is a JSON object that has one ([None] for a body that is not
    JSON, not an object, or has no such member); [json_data] is
    [response.json()] of a 200 answer, a JSON array of repository objects. *)
Record Response := {
  status_code : Z;
  json_message : option string;
  json_data : Repositories
}.

(** What a call of the transport library does: it returns a response, or
    raises [requests.RequestException] ([str(e)] is kept). *)
Inductive Transport (A : Type) :=
| Responds (r : A)
| Fails (e : string).
Arguments Responds {A} r.
Arguments Fails {A} e.

#[global] Instance Transport_eq_dec {A} `{EqDecision A} : EqDecision (Transport A).
Proof. solve_decision. Defined.

(** Everything the process does to its environment, with the answer it got. *)
Inductive Event :=
| EvGetenv (var : string) (value : option string)
| EvGetpass (prompt : string) (value : option string)
| EvSystem (command : string)
| EvPrint (text : string)
| EvInput (prompt : string) (line : option string)
| EvGet (headers : list (string * string)) (url : string) (answer : Transport Response)
| EvDelete (headers : list (string * string)) (url : string) (answer : Transport Z)
| EvClose
| EvInterrupt.

Definition Trace := list Event.

(** One run's environment. The listing endpoint answers by URL; the answer
    to a delete request may depend on everything that happened before it.
    [stdin] holds the lines [input()] will read, [getpass_line] what
    [getpass] reads ([None] and an exhausted [stdin]: end of file).
    [interrupt_at = Some k] has the user press the interrupt key when the
    run comes to the effect that would be its [k]-th event (counting from
    0): the interrupt is raised in place of that effect. When that effect
    is a command of [os.system], [interrupt_in_command] tells whether the
    key is pressed while the command runs instead of before it.
    [machine] holds the limits of the interpreter's machine. *)
Record World := {
  os_name : string;
  environ : string -> option string;
  getpass_line : option string;
  stdin : list string;
  api_get : string -> Transport Response;
  api_delete : Trace -> string -> Transport Z;
  interrupt_at : option nat;
  interrupt_in_command : bool;
  machine : Py.Machine
}.

(** ** Effects: a trace-writing monad with exceptions *)

(** A computation reads the history of the run so far and yields its
    outcome with the events it adds. *)
Definition M (A : Type) : Type := Trace -> Result A * Trace.

Definition ret {A} (a : A) : M A := fun _ => (Return a, []).
Definition raise {A} (e : Exn) : M A := fun _ => (Raise e, []).

Definition bind {A B} (m : M A) (f : A -> M B) : M B :=
  fun h =>
    match m h with
    | (Return a, e1) => let (r, e2) := f a (h ++ e1) in (r, e1 ++ e2)
    | (Raise x, e1) => (Raise x, e1)
    | (Diverges, e1) => (Diverges, e1)
    end.

(** [try: m except ...: handler]; [handler e = None] when no clause
    matches [e]. *)
Definition try_except {A} (m : M A) (handler : Exn -> option (M A)) : M A :=
  fun h =>
    match m h with
    | (Raise x, e1) =>
        match handler x with
        | Some k => let (r, e2) := k (h ++ e1) in (r, e1 ++ e2)
        | None => (Raise x, e1)
        end
    | other => other
    end.

(** [with ... :] whose [__exit__] runs [cleanup] and returns [None]: the
    cleanup runs on every way out of [m], and what [m] did stands unless
    the cleanup itself raises. *)
Definition finally {A} (m : M A) (cleanup : M unit) : M A :=
  fun h =>
    match m h with
    | (Diverges, e1) => (Diverges, e1)
    | (r, e1) =>
        match cleanup (h ++ e1) with
        | (Return _, e2) => (r, e1 ++ e2)
        | (Raise x, e2) => (Raise x, e1 ++ e2)
        | (Diverges, e2) => (Diverges, e1 ++ e2)
        end
    end.

Declare Scope m_scope.
Delimit Scope m_scope with m.
Notation "x <- m ;; k" := (bind m (fun x => k))
  (at level 100, m at next level, right associativity) : m_scope.
Notation "m ;; k" := (bind m (fun _ => k))
  (at level 100, right associativity) : m_scope.

Definition inputs_read (h : Trace) : nat :=
  length (List.filter (fun ev => match ev with EvInput _ _ => true | _ => false end) h).

Section Program.
Variable w : World.
Local Open Scope m_scope.

Definition interrupt_due (h : Trace) : bool :=
  match interrupt_at w with
  | Some k => Nat.eqb (length h) k
  | None => false
  end.

(** An effect goes through [perform]: the pending interrupt, if it is
    due, is raised in place of the effect. *)
Definition perform {A} (act : Trace -> Result A * Event) : M A :=
  fun h =>
    if interrupt_due h then (Raise KeyboardInterrupt, [EvInterrupt])
    else let (r, ev) := act h in (r, [ev]).

Definition of_line (line : option string) : Result string :=
  match line with
  | Some s => Return s
  | None => Raise EOFError
  end.

Definition getenv (var : string) : M (option string) :=
  perform (fun _ => (Return (environ w var), EvGetenv var (environ w var))).

Definition getpass (prompt : string) : M string :=
  perform (fun _ => (of_line (getpass_line w), EvGetpass prompt (getpass_line w))).

(** [os.system(command)]. An interrupt that comes before the call is
    raised in its place, as for every effect. One that comes while the
    command runs is another matter: the [system()] of a POSIX platform
    ignores the signal until the command has ended, so the program never
    hears of it and the run goes on; under Windows ([os.name] is [nt]) the
    interpreter notes the signal and raises [KeyboardInterrupt] as soon as
    the command has returned. *)
Definition system (command : string) : M unit :=
  fun h =>
    if interrupt_due h then
      if interrupt_in_command w then
        if String.eqb (os_name w) "nt"
        then (Raise KeyboardInterrupt, [EvSystem command; EvInterrupt])
        else (Return tt, [EvSystem command])
      else (Raise KeyboardInterrupt, [EvInterrupt])
    else (Return tt, [EvSystem command]).

(** [print(text, end=end_)] *)
Definition print_end (text end_ : string) : M unit :=
  perform (fun _ => (Return tt, EvPrint (text +:+ end_))).

Definition nl : string := String "010" "".

Definition print (text : string) : M unit := print_end text nl.

Definition input (prompt : string) : M string :=
  perform (fun h =>
    let line := nth_error (stdin w) (inputs_read h) in
    (of_line line, EvInput prompt line)).

Definition of_transport {A} (t : Transport A) : Result A :=
  match t with
  | Responds r => Return r
  | Fails e => Raise (RequestException e)
  end.

(** [requests.Session]: the headers every request of the session carries. *)
Record Session := { headers : list (string * string) }.

Definition session_get (session : Session) (url : string) : M Response :=
  perform (fun _ =>
    (of_transport (api_get w url), EvGet (headers session) url (api_get w url))).

Definition session_delete (session : Session) (url : string) : M Z :=
  perform (fun h =>
    (of_transport (api_delete w h url),
     EvDelete (headers session) url (api_delete w h url))).

Definition session_close (session : Session) : M unit :=
  perform (fun _ => (Return tt, EvClose)).

Definition sys_exit {A} (code : Z) : M A := raise (SystemExit code).

Fixpoint for_each {A} (l : list A) (body : A -> M unit) : M unit :=
  match l with
  | [] => ret tt
  | x :: l' => body x;; for_each l' body
  end.

(** [l[i]] *)
Definition getitem {A} (l : list A) (i : Z) : M A :=
  let n := Z.of_nat (length l) in
  let j := if i <? 0 then i + n else i in
  if (0 <=? j) && (j <? n) then
    match l !! Z.to_nat j with
    | Some x => ret x
    | None => raise IndexError
    end
  else raise IndexError.

(** [[f(x) for x in l]] *)
Fixpoint comprehension {A B} (f : A -> M B) (l : list A) : M (list B) :=
  match l with
  | [] => ret []
  | x :: l' => y <- f x;; ys <- comprehension f l';; ret (y :: ys)
  end.

(** ** [GitHubClient] *)

Definition GITHUB_API_BASE : string := "https://api.github.com".

Record GitHubClient := { session : Session }.

Definition GitHubClient_init (token : string) : GitHubClient :=
  {| session := {| headers := [("Authorization", "token " +:+ token);
                               ("Accept", "application/vnd.github.v3+json")] |} |}.

Definition GitHubClient_exit (self : GitHubClient) : M unit :=
  session_close (session self).

Definition repos_url (page per_page : Z) : string :=
  GITHUB_API_BASE +:+ "/user/repos?page=" +:+ Py.str_of_int page
    +:+ "&per_page=" +:+ Py.str_of_int per_page.

Definition fetch_error_msg (response : Response) : string :=
  let error_msg := "Error fetching repositories: " +:+ Py.str_of_int (status_code response) in
  match json_message response with
  | Some message => error_msg +:+ " - " +:+ message
  | None => error_msg
  end.

(** How one turn of [while True] ends. *)
Inductive Turn :=
| Break
| Next (repos : Repositories) (page : Z).

Definition get_repositories_turn (self : GitHubClient) (repos : Repositories) (page : Z)
  : M Turn :=
  let per_page := 100 in
  let url := repos_url page per_page in
  try_except
    (response <- session_get (session self) url;;
     if negb (status_code response =? 200) then
       raise (GitHubError (fetch_error_msg response))
     else
       let data := json_data response in
       if data is [] then ret Break
       else ret (Next (repos ++ data) (page + 1)))
    (fun e => match e with
              | RequestException e =>
                  Some (raise (GitHubError ("Connection error: " +:+ e)))
              | _ => None
              end).

Fixpoint get_repositories_from (self : GitHubClient) (fuel : nat)
    (repos : Repositories) (page : Z) : M Repositories :=
  match fuel with
  | O => fun _ => (Diverges, [])
  | S fuel' =>
      turn <- get_repositories_turn self repos page;;
      match turn with
      | Break => ret repos
      | Next repos' page' => get_repositories_from self fuel' repos' page'
      end
  end.

Definition get_repositories (self : GitHubClient) (fuel : nat) : M Repositories :=
  get_repositories_from self fuel [] 1.

Definition repo_url (owner repo_name : string) : string :=
  GITHUB_API_BASE +:+ "/repos/" +:+ owner +:+ "/" +:+ repo_name.

Definition delete_repository (self : GitHubClient) (owner repo_name : string) : M bool :=
  let url := repo_url owner repo_name in
  try_except
    (status <- session_delete (session self) url;;
     ret (status =? 204))
    (fun e => match e with
              | RequestException _ => Some (ret false)
              | _ => None
              end).

(** ** The workflow *)

Definition clear_screen : M unit :=
  system (if String.eqb (os_name w) "nt" then "cls" else "clear").

Fixpoint repeat_str (s : string) (n : nat) : string :=
  match n with
  | O => ""
  | S n' => s +:+ repeat_str s n'
  end.

Definition ljust (val : string) (width : nat) : string :=
  val +:+ repeat_str " " (width - String.length val)%nat.

Fixpoint join (sep : string) (l : list string) : string :=
  match l with
  | [] => ""
  | [x] => x
  | x :: l' => x +:+ sep +:+ join sep l'
  end.

Definition table_row (i : nat) (repo : Repository) : list string :=
  [Py.str_of_int (Z.of_nat i + 1); name repo;
   if private repo then "Private" else "Public"].

Definition display_repositories (repos : Repositories) : M unit :=
  if repos is [] then ret tt
  else
    let headers := ["#"; "Repository Name"; "Visibility"] in
    let table_data := imap table_row repos in
    let col_widths :=
      fold_left (fun widths row => zip_with Nat.max widths (String.length <$> row))
                table_data (String.length <$> headers) in
    print (join "  " (zip_with ljust headers col_widths));;
    print (repeat_str "-" (foldr Nat.add 0 col_widths + (length headers - 1) * 2)%nat);;
    for_each table_data (fun row => print (join "  " (zip_with ljust row col_widths))).

Definition confirm_deletion (repos_to_delete : Repositories) : M bool :=
  print (nl +:+ "WARNING: You are about to delete "
           +:+ Py.str_of_int (Z.of_nat (length repos_to_delete)) +:+ " repositories!");;
  print "The following repositories will be deleted:";;
  for_each repos_to_delete (fun repo =>
    let owner := owner_login repo in
    print ("- " +:+ name repo +:+ " (owner: " +:+ owner +:+ ")"));;
  confirm <- input (nl +:+ "To confirm deletion, type 'DELETE': ");;
  ret (String.eqb (Py.strip confirm) "DELETE").

(** The tally of the final report. *)
Definition tally (success_count total : Z) : string :=
  Py.str_of_int success_count +:+ "/" +:+ Py.str_of_int total
    +:+ " repositories deleted successfully.".

(** The [for repo in selected_repos] loop of [main], from a given
    [success_count]. *)
Fixpoint delete_selected (client : GitHubClient) (selected_repos : Repositories)
    (success_count : Z) : M Z :=
  match selected_repos with
  | [] => ret success_count
  | repo :: rest =>
      let name := name repo in
      let owner := owner_login repo in
      print_end ("Deleting " +:+ name +:+ "...") " ";;
      deleted <- delete_repository client owner name;;
      success_count <-
        (if deleted : bool then print "✓ Success";; ret (success_count + 1)
         else print "✗ Failed";; ret success_count);;
      delete_selected client rest success_count
  end.

(** The body of [with GitHubClient(token) as client]. *)
Definition main_with (client : GitHubClient) (fuel : nat) : M unit :=
  fetched <-
    try_except
      (print (nl +:+ "Fetching your repositories...");;
       repos <- get_repositories client fuel;;
       ret (Some repos))
      (fun e => match e with
                | GitHubError e => Some (print ("Error: " +:+ e);; ret None)
                | _ => None
                end);;
  match fetched with
  | None => ret tt
  | Some repos =>
      clear_screen;;
      if repos is [] then print "No repositories found."
      else
        print (nl +:+ "Found " +:+ Py.str_of_int (Z.of_nat (length repos))
                 +:+ " repositories:");;
        display_repositories repos;;
        print (nl +:+ "Enter the numbers of repositories you want to delete, separated by commas:");;
        print "Example: 1,3,5-8 (to delete repos 1, 3, and 5 through 8)";;
        input_str <- input "Repositories to delete: ";;
        match parse_indices (machine w) input_str (Z.of_nat (length repos)) with
        | Raise e => raise e
        | Diverges => fun _ => (Diverges, [])
        | Return None =>
            print "Invalid input format. Please use numbers and ranges like 1,3,5-8."
        | Return (Some []) => print "No valid repositories selected."
        | Return (Some indices) =>
            selected_repos <- comprehension (getitem repos) indices;;
            clear_screen;;
            confirmed <- confirm_deletion selected_repos;;
            if negb confirmed then print "Operation cancelled."
            else
              print (nl +:+ "Deleting repositories...");;
              success_count <- delete_selected client selected_repos 0;;
              print (nl +:+ "Operation completed. "
                       +:+ tally success_count (Z.of_nat (length selected_repos)))
        end
  end.

Definition main (fuel : nat) : M unit :=
  print "GitHub Repository Bulk Deletion Tool";;
  print "=====================================";;
  print "WARNING: This action is irreversible!";;
  print ("Please be absolutely sure before proceeding." +:+ nl);;
  env_token <- getenv "GITHUB_TOKEN";;
  token <-
    match env_token with
    | Some (String c s) => ret (String c s)
    | _ => getpass "Enter your GitHub Personal Access Token: "
    end;;
  if String.eqb token "" then print "Error: GitHub token is required."
  else
    clear_screen;;
    let client := GitHubClient_init token in
    finally (main_with client fuel) (GitHubClient_exit client).

Definition cancelled_msg : string :=
  nl +:+ nl +:+ "Operation cancelled by user. Exiting...".

Definition run (fuel : nat) : M unit :=
  try_except (main fuel)
    (fun e => match e with
              | KeyboardInterrupt => Some (print cancelled_msg;; sys_exit 0)
              | _ => None
              end).

End Program.

(** The exit status of the process, from how [run] ends: 0 when it
    returns, the code of [sys.exit], 130 for an uncaught interrupt and 1
    for any other uncaught exception. *)
Definition exit_status (r : Result unit) : option Z :=
  match r with
  | Return _ => Some 0
  | Raise (SystemExit code) => Some code
  | Raise KeyboardInterrupt => Some 130
  | Raise _ => Some 1
  | Diverges => None
  end.

(** ** Observations on a trace *)

(** The answers to the listing requests, in order. *)
Definition get_answers (T : Trace) : list (Transport Response) :=
  omap (fun ev => match ev with EvGet _ _ answer => Some answer | _ => None end) T.

(** The lines [input()] returned, in order. *)
Definition lines_read (T : Trace) : list string :=
  omap (fun ev => match ev with EvInput _ (Some line) => Some line | _ => None end) T.

(** The delete requests, in order: the URL and the answer. *)
Definition delete_calls (T : Trace) : list (string * Transport Z) :=
  omap (fun ev => match ev with EvDelete _ url answer => Some (url, answer) | _ => None end) T.

(** Whether the answer to a delete request is the status 204. *)
Definition deleted (answer : Transport Z) : bool :=
  match answer with
  | Responds status => status =? 204
  | Fails _ => false
  end.

(** The number of delete requests answered 204. *)
Definition count_deleted (calls : list (string * Transport Z)) : Z :=
  Z.of_nat (length (filter (fun call => deleted call.2 = true) calls)).

Definition successes (T : Trace) : Z := count_deleted (delete_calls T).

(** The page a listing answer carries: a response with status 200. *)
Definition page_of (answer : Transport Response) : option Repositories :=
  match answer with
  | Responds r => if status_code r =? 200 then Some (json_data r) else None
  | Fails _ => None
  end.

(** The listing a sequence of answers amounts to: every request was
    answered with a page, the last of them empty. *)
Definition listing (answers : list (Transport Response)) : option Repositories :=
  match mapM page_of answers with
  | Some pages =>
      match last pages with
      | Some [] => Some (concat pages)
      | _ => None
      end
  | None => None
  end.

(** The listing a trace shows to have succeeded. *)
Definition listing_of (T : Trace) : option Repositories := listing (get_answers T).

Definition is_get (ev : Event) : bool :=
  match ev with EvGet _ _ _ => true | _ => false end.
Definition is_input (ev : Event) : bool :=
  match ev with EvInput _ _ => true | _ => false end.
Definition is_delete (ev : Event) : bool :=
  match ev with EvDelete _ _ _ => true | _ => false end.

(** Events that are no request and read no line. *)
Definition calm (ev : Event) : Prop :=
  is_get ev = false /\ is_input ev = false /\ is_delete ev = false.

(** The guards of the workflow, as a trace shows them passed: the listing
    succeeded, the selection line parsed to a non-empty list, and the
    confirmation line, trimmed, is [DELETE]. *)
Definition guards_passed (mc : Py.Machine) (T : Trace) : Prop :=
  exists repos input_str confirm indices,
    listing_of T = Some repos /\
    lines_read T = [input_str; confirm] /\
    parse_indices mc input_str (Z.of_nat (length repos)) = Return (Some indices) /\
    indices <> [] /\
    Py.strip confirm = "DELETE".

(** [needle] occurs in [text]. *)
Definition occurs_in (needle text : string) : Prop :=
  exists before after, text = before +:+ needle +:+ after.

(** The event of the listing request for [page]. *)
Definition page_request (w : World) (self : GitHubClient) (page : Z) : Event :=
  let url := repos_url page 100 in
  EvGet (headers (session self)) url (api_get w url).

(** The listing endpoint serves [pages], none of them empty, from the page
    numbered [first] on. *)
Definition serves (w : World) (first : Z) (pages : list Repositories) : Prop :=
  forall (i : nat) data,
    pages !! i = Some data ->
    data <> [] /\ page_of (api_get w (repos_url (first + Z.of_nat i) 100)) = Some data.

(** ** A program logic for [M] *)

(** [hoare P m Q]: run from a history satisfying [P], [m] ends with an
    outcome and a history satisfying [Q]. *)
Definition hoare {A} (P : Trace -> Prop) (m : M A) (Q : Result A -> Trace -> Prop) : Prop :=
  forall h, P h -> Q (m h).1 (h ++ (m h).2).

(** [emits C m]: every event [m] adds is of the class [C]. *)
Definition emits {A} (C : Event -> Prop) (m : M A) : Prop :=
  forall h, Forall C (m h).2.

(** The interrupt of [w] is still to come: fewer effects than its rank have
    been performed. *)
Definition pending (w : World) (h : Trace) : Prop :=
  forall k, interrupt_at w = Some k -> (length h <= k)%nat.

(** Events that are no listing request and read no line. *)
Definition mild (ev : Event) : Prop := is_get ev = false /\ is_input ev = false.

(** What a trace shows of the requests made and the lines read. *)
Definition obs (T : Trace) : list (Transport Response) * list string * list (string * Transport Z) :=
  (get_answers T, lines_read T, delete_calls T).

(** Before any delete request: the listing answers and the lines read so far. *)
Definition before_deletes (answers : list (Transport Response)) (lines : list string)
  : Trace -> Prop :=
  fun h => obs h = (answers, lines, []).

(** A trace that splits into a part with no delete request that shows the
    guards passed, and a rest with no listing request and no line read. *)
Definition after_guards (mc : Py.Machine) (T : Trace) : Prop :=
  exists pre post,
    T = pre ++ post /\ delete_calls pre = [] /\ guards_passed mc pre /\ Forall mild post.

(** A trace in which every delete request comes after the guards. *)
Definition guarded (mc : Py.Machine) (T : Trace) : Prop :=
  delete_calls T = [] \/ after_guards mc T.

(** The postcondition of a step before the deletions: [S] when it returns,
    and no delete request made when it does not. *)
Definition stage {A} (S : A -> Trace -> Prop) : Result A -> Trace -> Prop :=
  fun r h =>
    match r with
    | Return a => S a h
    | _ => delete_calls h = []
    end.

(** After the fetch of [main]: a listing shown by the trace, or nothing
    fetched and no delete request made. *)
Definition fetched_state (fetched : option Repositories) (h : Trace) : Prop :=
  match fetched with
  | Some repos => exists answers, before_deletes answers [] h /\ listing answers = Some repos
  | None => delete_calls h = []
  end.

(** Events that read no line and are no delete request. *)
Definition tame (ev : Event) : Prop := is_input ev = false /\ is_delete ev = false.

(** [m] returns [a], whatever the history. *)
Definition yields {A} (m : M A) (a : A) : Prop := forall h, (m h).1 = Return a.

(** The token [main] works with: the environment's when it is set and not
    empty, else what [getpass] reads. *)
Definition token_of (w : World) : option string :=
  match environ w "GITHUB_TOKEN" with
  | Some (String c s) => Some (String c s)
  | _ => getpass_line w
  end.

(** The URL of the delete request for a repository. *)
Definition delete_url (repo : Repository) : string :=
  repo_url (owner_login repo) (name repo).

(** The last line of a run that deleted: the report with its tally. *)
Definition report (success_count total : Z) : string :=
  nl +:+ "Operation completed. " +:+ tally success_count total.

(** The state of a run that has read [n] lines and made no delete request. *)
Definition reading (n : nat) (h : Trace) : Prop :=
  inputs_read h = n /\ delete_calls h = [].

(** What a run that deleted leaves: it returned, and its trace ends with
    the report and [tail], after one delete request per selected
    repository, in the order of [indices]. *)
Definition deleted_all (repos : Repositories) (indices : list Z) (tail : Trace)
    (r : Result unit) (h : Trace) : Prop :=
  r = Return tt /\
  exists T selected_repos,
    h = T ++ EvPrint (report (successes T) (Z.of_nat (length indices)) +:+ nl) :: tail /\
    Forall2 (fun i repo => repos !! Z.to_nat i = Some repo) indices selected_repos /\
    (delete_calls T).*1 = delete_url <$> selected_repos.

(** ** Worlds for the examples *)

(** A 64-bit machine on which a list can grow to a million items. *)
Definition example_machine : Py.Machine :=
  {| Py.maxsize := 9223372036854775807; Py.capacity := 1000000 |}.

Definition example_repo (owner repo_name : string) : Repository :=
  {| name := repo_name; owner_login := owner; private := false |}.

Definition ten_repos : Repositories :=
  example_repo "octocat" <$>
    ["repo1"; "repo2"; "repo3"; "repo4"; "repo5";
     "repo6"; "repo7"; "repo8"; "repo9"; "repo10"].

Definition page_answer (data : Repositories) : Transport Response :=
  Responds {| status_code := 200; json_message := None; json_data := data |}.

(** A listing of one page, [data], followed by an empty page. *)
Definition one_page (data : Repositories) (url : string) : Transport Response :=
  if String.eqb url (repos_url 1 100) then page_answer data else page_answer [].

(** Ten repositories listed, the selection [2,4-6] confirmed, and every
    delete request answered 204. *)
Definition example_world : World := {|
  os_name := "posix";
  environ := fun _ => Some "secret";
  getpass_line := None;
  stdin := ["2,4-6"; "DELETE"];
  api_get := one_page ten_repos;
  api_delete := fun _ _ => Responds 204;
  interrupt_at := None;
  interrupt_in_command := false;
  machine := example_machine
|}.

(** The same, with the delete request for [repo4] answered 404. *)
Definition partial_world : World := {|
  os_name := "posix";
  environ := fun _ => Some "secret";
  getpass_line := None;
  stdin := ["2,4-6"; "DELETE"];
  api_get := one_page ten_repos;
  api_delete := fun _ url =>
    if String.eqb url (repo_url "octocat" "repo4") then Responds 404 else Responds 204;
  interrupt_at := None;
  interrupt_in_command := false;
  machine := example_machine
|}.

(** [w] with the interrupt rescheduled. *)
Definition with_interrupt (w : World) (k : option nat) : World := {|
  os_name := os_name w;
  environ := environ w;
  getpass_line := getpass_line w;
  stdin := stdin w;
  api_get := api_get w;
  api_delete := api_delete w;
  interrupt_at := k;
  interrupt_in_command := interrupt_in_command w;
  machine := machine w
|}.

(** [w] with the interrupt at the [k]-th effect, pressed while the command
    runs if that effect is a command. *)
Definition with_interrupt_in_command (w : World) (k : nat) : World := {|
  os_name := os_name w;
  environ := environ w;
  getpass_line := getpass_line w;
  stdin := stdin w;
  api_get := api_get w;
  api_delete := api_delete w;
  interrupt_at := Some k;
  interrupt_in_command := true;
  machine := machine w
|}.

(** [w] under another operating system. *)
Definition with_os_name (w : World) (os : string) : World := {|
  os_name := os;
  environ := environ w;
  getpass_line := getpass_line w;
  stdin := stdin w;
  api_get := api_get w;
  api_delete := api_delete w;
  interrupt_at := interrupt_at w;
  interrupt_in_command := interrupt_in_command w;
  machine := machine w
|}.

(** [w] with other lines to read. *)
Definition with_stdin (w : World) (lines : list string) : World := {|
  os_name := os_name w;
  environ := environ w;
  getpass_line := getpass_line w;
  stdin := lines;
  api_get := api_get w;
  api_delete := api_delete w;
  interrupt_at := interrupt_at w;
  interrupt_in_command := interrupt_in_command w;
  machine := machine w
|}.

(** [w] with another listing endpoint. *)
Definition with_api_get (w : World) (answer : string -> Transport Response) : World := {|
  os_name := os_name w;
  environ := environ w;
  getpass_line := getpass_line w;
  stdin := stdin w;
  api_get := answer;
  api_delete := api_delete w;
  interrupt_at := interrupt_at w;
  interrupt_in_command := interrupt_in_command w;
  machine := machine w
|}.

(** The listing endpoint of the client's tests: one repository, then an
    empty page; and one that refuses the credentials. *)
Definition test_page : Repositories := [example_repo "user1" "repo1"].

Definition bad_credentials : Response :=
  {| status_code := 401; json_message := Some "Bad credentials"; json_data := [] |}.

Definition test_client : GitHubClient := GitHubClient_init "fake_token".

(** Whether a trace holds the interrupt. *)
Definition interrupted (T : Trace) : bool :=
  existsb (fun ev => match ev with EvInterrupt => true | _ => false end) T.

(** The texts printed, in order. *)
Definition printed (T : Trace) : list string :=
  omap (fun ev => match ev with EvPrint text => Some text | _ => None end) T.

(** Whether a run was cancelled by the interrupt the way [run] does it:
    exit status 0, the cancellation message printed last, and the interrupt
    in the trace. *)
Definition cancelled_cleanly (outcome : Result unit * Trace) : bool :=
  match exit_status outcome.1 with
  | Some 0 => true
  | _ => false
  end
  && match last (printed outcome.2) with
     | Some text => String.eqb text (cancelled_msg +:+ nl)
     | None => false
     end
  && interrupted outcome.2.

(** ** Further observations *)

(** The headers a request was sent with. *)
Definition request_headers (ev : Event) : option (list (string * string)) :=
  match ev with
  | EvGet hdrs _ _ | EvDelete hdrs _ _ => Some hdrs
  | _ => None
  end.

(** What the body of the [with] block does with a session whose headers
    are [hdrs]: its requests carry these headers, the only command it runs
    is the one that clears the screen, and it does not close the session. *)
Definition issued (w : World) (hdrs : list (string * string)) (ev : Event) : Prop :=
  match ev with
  | EvSystem command => command = (if String.eqb (os_name w) "nt" then "cls" else "clear")
  | EvGet h _ _ | EvDelete h _ _ => h = hdrs
  | EvClose => False
  | _ => True
  end.

(** What a run does: the only command it runs is the one that clears the
    screen, and its requests carry the headers of a client made for the
    token of the run, which is not empty. *)
Definition sanctioned (w : World) (ev : Event) : Prop :=
  match ev with
  | EvSystem command => command = (if String.eqb (os_name w) "nt" then "cls" else "clear")
  | EvGet h _ _ | EvDelete h _ _ =>
      exists token,
        token_of w = Some token /\ token <> "" /\
        h = headers (session (GitHubClient_init token))
  | _ => True
  end.

(** Events of a run before the client exists: no request, no [close]. *)
Definition unopened (ev : Event) : Prop := request_headers ev = None /\ ev <> EvClose.

(** A trace that ends with the closing of the session, or with the
    interrupt that took the place of the closing, and holds no other
    [close]. *)
Definition closed_last (w : World) (T : Trace) : Prop :=
  exists body,
    Forall (fun ev => ev <> EvClose) body /\
    (T = body ++ [EvClose] \/
     (T = body ++ [EvInterrupt] /\ interrupt_at w = Some (length body))).

(** No token in the environment, and an empty line typed at the prompt. *)
Definition tokenless_world : World := {|
  os_name := "posix";
  environ := fun _ => None;
  getpass_line := Some "";
  stdin := [];
  api_get := one_page ten_repos;
  api_delete := fun _ _ => Responds 204;
  interrupt_at := None;
  interrupt_in_command := false;
  machine := example_machine
|}.

(** The interrupt of [w] went unheard: it came while a command was
    running under a [system()] that ignores it, and that command stands in
    the history at the interrupt's rank. *)
Definition unheard (w : World) (h : Trace) : Prop :=
  exists k command,
    interrupt_at w = Some k /\ h !! k = Some (EvSystem command) /\
    interrupt_in_command w = true /\ String.eqb (os_name w) "nt" = false.

(** The program has not been interrupted: the history holds no interrupt,
    which is still to come or went unheard. *)
Definition waiting (w : World) (h : Trace) : Prop :=
  (pending w h \/ unheard w h) /\ EvInterrupt ∉ h.

(** Where the interrupt of [w] strikes, [pre] being the history before it:
    at its rank, or, under Windows, right after the command that was
    running at its rank. *)
Definition struck (w : World) (pre : Trace) : Prop :=
  interrupt_at w = Some (length pre) \/
  exists before command,
    pre = before ++ [EvSystem command] /\ interrupt_at w = Some (length before) /\
    interrupt_in_command w = true /\ String.eqb (os_name w) "nt" = true.

(** The interrupt of [w] has just been delivered: it is the last event of
    the history, where it strikes, and the only one. *)
Definition stopped (w : World) (h : Trace) : Prop :=
  exists pre,
    h = pre ++ [EvInterrupt] /\ struck w pre /\ EvInterrupt ∉ pre.

(** [behaves w E m]: run while the interrupt is to come, [m] raises
    [KeyboardInterrupt] only as the interrupt arrives, and does nothing
    after it; any other exception it raises is in [E], and the program
    has then not been interrupted, as when [m] returns or is still
    running. *)
Definition behaves (w : World) {A} (E : Exn -> Prop) (m : M A) : Prop :=
  hoare (waiting w) m
        (fun r h => match r with
                    | Raise KeyboardInterrupt => stopped w h
                    | Raise x => E x /\ waiting w h
                    | _ => waiting w h
                    end).

(** How [main] ends on the interrupt: stopped, or stopped and the session
    closed after it. *)
Definition cancelled (w : World) (h : Trace) : Prop :=
  stopped w h \/ exists h1, h = h1 ++ [EvClose] /\ stopped w h1.

(** How a computation that closes the session on its way out ends: as
    [behaves] says, but the session may have been closed after the
    interrupt. *)
Definition ended (w : World) (E : Exn -> Prop) {A} (r : Result A) (h : Trace) : Prop :=
  match r with
  | Raise KeyboardInterrupt => cancelled w h
  | Raise x => E x /\ waiting w h
  | _ => waiting w h
  end.

(** The exceptions that leave [run]: the [EOFError] of a prompt at end of
    file, and what [parse_indices] lets through. *)
Definition escapes (x : Exn) : Prop :=
  x = EOFError \/ x = OverflowError \/ x = MemoryError.

(** How [run] ends: on the interrupt, with the cancellation message as the
    last event and [sys.exit(0)]; else as [main] does, not interrupted,
    and with no other exception than those of [escapes]. *)
Definition run_ended (w : World) (r : Result unit) (h : Trace) : Prop :=
  match r with
  | Raise (SystemExit code) =>
      code = 0 /\ exists h1, h = h1 ++ [EvPrint (cancelled_msg +:+ nl)] /\ cancelled w h1
  | Raise x => escapes x /\ waiting w h
  | _ => waiting w h
  end.

(** The state of a run in its deletion loop: the listing answers, the
    lines read, and the URLs of the delete requests made so far. *)
Definition deleting (answers : list (Transport Response)) (lines : list string)
    (urls : list string) (h : Trace) : Prop :=
  get_answers h = answers /\ lines_read h = lines /\ (delete_calls h).*1 = urls.

(** A trace whose delete requests are for repositories that were listed
    and selected: none, or a beginning of the selected repositories, in
    the order of the selection. *)
Definition targets_selected (mc : Py.Machine) (T : Trace) : Prop :=
  delete_calls T = [] \/
  exists repos input_str confirm indices selected_repos,
    listing_of T = Some repos /\
    lines_read T = [input_str; confirm] /\
    parse_indices mc input_str (Z.of_nat (length repos)) = Return (Some indices) /\
    Forall2 (fun i repo => repos !! Z.to_nat i = Some repo) indices selected_repos /\
    (delete_calls T).*1 `prefix_of` (delete_url <$> selected_repos).



(** * Part II: properties *)
(** ** Properties of the built-ins *)

Section SplitFacts.
Variable sep : ascii.

Lemma split_nonempty s : Py.split sep s <> [].
Proof.
  destruct s as [|c s]; simpl; [discriminate|].
  destruct (Ascii.eqb c sep); [discriminate|].
  destruct (Py.split sep s); discriminate.
Qed.

Lemma split_no_sep s : Py.contains sep s = false -> Py.split sep s = [s].
Proof.
  induction s as [|c s IH]; simpl; [reflexivity|].
  intros [Hc Hs]%orb_false_elim. rewrite Hc, (IH Hs). reflexivity.
Qed.

Lemma split_app_sep s t :
  Py.split sep (s +:+ String sep t) = Py.split sep s ++ Py.split sep t.
Proof.
  induction s as [|c s IH]; simpl.
  - rewrite Ascii.eqb_refl. reflexivity.
  - destruct (Ascii.eqb c sep); [rewrite IH; reflexivity|].
    rewrite IH. destruct (Py.split sep s) eqn:E; [|reflexivity].
    exfalso. exact (split_nonempty _ E).
Qed.

Lemma split_parts_no_sep s : Forall (fun p => Py.contains sep p = false) (Py.split sep s).
Proof.
  induction s as [|c s IH]; simpl.
  - repeat constructor.
  - destruct (Ascii.eqb c sep) eqn:Ec; [constructor; [reflexivity|exact IH]|].
    destruct (Py.split sep s) as [|p ps]; [repeat constructor; simpl; rewrite Ec; reflexivity|].
    inversion IH; subst. constructor; [simpl; rewrite Ec; assumption|assumption].
Qed.

Lemma split_single s p : Py.split sep s = [p] -> p = s /\ Py.contains sep s = false.
Proof.
  revert p. induction s as [|c s IH]; simpl; intros p.
  - intros [= <-]. split; reflexivity.
  - destruct (Ascii.eqb c sep) eqn:Ec.
    + intros [= _ E]. exfalso. exact (split_nonempty _ E).
    + destruct (Py.split sep s) as [|q qs] eqn:E; [intros [= <-]|intros [= <- ->]].
      * exfalso. exact (split_nonempty _ E).
      * destruct (IH q eq_refl) as [-> ->]. split; reflexivity.
Qed.

Lemma split_two s a b :
  Py.split sep s = [a; b] <->
  s = a +:+ String sep b /\ Py.contains sep a = false /\ Py.contains sep b = false.
Proof.
  split.
  - revert a. induction s as [|c s IH]; simpl; intros a; [discriminate|].
    destruct (Ascii.eqb c sep) eqn:Ec.
    + intros [= <- E]. apply Ascii.eqb_eq in Ec as ->.
      destruct (split_single _ _ E) as [-> Hb]. repeat split; assumption.
    + destruct (Py.split sep s) as [|q qs] eqn:E; [discriminate|].
      intros [= <- ->]. destruct (IH q eq_refl) as (-> & Ha & Hb).
      repeat split; simpl; [rewrite Ec|]; assumption.
  - intros (-> & Ha & Hb). rewrite split_app_sep, !split_no_sep by assumption.
    reflexivity.
Qed.

Lemma contains_app s t :
  Py.contains sep (s +:+ t) = Py.contains sep s || Py.contains sep t.
Proof.
  induction s as [|c s IH]; simpl; [reflexivity|].
  rewrite IH, orb_assoc. reflexivity.
Qed.

Lemma split_two_contains s a b : Py.split sep s = [a; b] -> Py.contains sep s = true.
Proof.
  intros (-> & _ & _)%split_two. rewrite contains_app. simpl.
  rewrite Ascii.eqb_refl, orb_true_r. reflexivity.
Qed.
End SplitFacts.

Section StripFacts.
Variable space : ascii -> bool.

Lemma rstrip_with_snoc s c :
  space c = false ->
  Py.rstrip_with space (s +:+ String c "") = s +:+ String c "".
Proof.
  intros Hc. induction s as [|c' s IH].
  - change ("" +:+ String c "") with (String c "").
    cbn [Py.rstrip_with]. rewrite Hc. reflexivity.
  - change (String c' s +:+ String c "") with (String c' (s +:+ String c "")).
    cbn [Py.rstrip_with]. rewrite IH.
    destruct s; reflexivity.
Qed.

Lemma lstrip_with_snoc s c :
  space c = false ->
  Py.lstrip_with space (s +:+ String c "") = Py.lstrip_with space s +:+ String c "".
Proof.
  intros Hc. induction s as [|c' s IH].
  - change ("" +:+ String c "") with (String c "").
    cbn [Py.lstrip_with]. rewrite Hc. reflexivity.
  - change (String c' s +:+ String c "") with (String c' (s +:+ String c "")).
    cbn [Py.lstrip_with]. destruct (space c'); [exact IH|reflexivity].
Qed.

Lemma strip_with_snoc s c :
  space c = false ->
  Py.strip_with space (s +:+ String c "") = Py.lstrip_with space s +:+ String c "".
Proof.
  intros Hc. unfold Py.strip_with. rewrite lstrip_with_snoc, rstrip_with_snoc by assumption.
  reflexivity.
Qed.

Lemma strip_with_cons c s :
  space c = false ->
  exists r, Py.strip_with space (String c s) = String c r.
Proof.
  intros Hc. unfold Py.strip_with. cbn [Py.lstrip_with]. rewrite Hc.
  cbn [Py.rstrip_with]. destruct (Py.rstrip_with space s); [rewrite Hc|]; eauto.
Qed.
End StripFacts.

Lemma split_last_snoc sep s c :
  Ascii.eqb c sep = false ->
  exists parts p, Py.split sep s = parts ++ [p] /\
                  Py.split sep (s +:+ String c "") = parts ++ [p +:+ String c ""].
Proof.
  intros Hc. induction s as [|c' s (parts & p & E1 & E2)].
  - exists [], "". change ("" +:+ String c "") with (String c "").
    cbn [Py.split]. rewrite Hc. split; reflexivity.
  - change (String c' s +:+ String c "") with (String c' (s +:+ String c "")).
    cbn [Py.split]. rewrite E1, E2. destruct (Ascii.eqb c' sep).
    + exists ("" :: parts), p. split; reflexivity.
    + destruct parts as [|q parts]; cbn [app].
      * exists [], (String c' p). split; reflexivity.
      * exists (String c' q :: parts), p. split; reflexivity.
Qed.

Lemma split_head_cons sep c s :
  Ascii.eqb c sep = false ->
  exists p parts, Py.split sep (String c s) = String c p :: parts.
Proof.
  intros Hc. cbn [Py.split]. rewrite Hc.
  destruct (Py.split sep s) as [|p parts]; eauto.
Qed.

(** ** The selection parser *)

Section SortedSet.
Implicit Types l : list Z.

Lemma sorted_set_elem l i : i ∈ Py.sorted (elements (Py.set_of l)) <-> i ∈ l.
Proof.
  unfold Py.sorted, Py.set_of. rewrite merge_sort_Permutation.
  rewrite elem_of_elements, elem_of_list_to_set. reflexivity.
Qed.

Lemma sorted_set_NoDup l : NoDup (Py.sorted (elements (Py.set_of l))).
Proof.
  unfold Py.sorted. rewrite merge_sort_Permutation. apply NoDup_elements.
Qed.

Lemma le_sorted_NoDup_lt l :
  StronglySorted Z.le l -> NoDup l -> StronglySorted Z.lt l.
Proof.
  induction 1 as [|x l Hs IH Hx]; intros Hnd; [constructor|].
  apply NoDup_cons in Hnd as [Hnotin Hnd]. constructor; [auto|].
  rewrite Forall_forall in Hx |- *. intros y Hy.
  assert (x <> y) by (intros ->; apply Hnotin; assumption).
  specialize (Hx y Hy). lia.
Qed.

Lemma sorted_set_ascending l : StronglySorted Z.lt (Py.sorted (elements (Py.set_of l))).
Proof.
  apply le_sorted_NoDup_lt; [|apply sorted_set_NoDup].
  unfold Py.sorted. apply StronglySorted_merge_sort; apply _.
Qed.

Lemma sorted_set_nil l : l = [] -> Py.sorted (elements (Py.set_of l)) = [].
Proof. intros ->. reflexivity. Qed.

End SortedSet.

Lemma elem_of_in_window N indices i :
  i ∈ in_window N indices <-> (i + 1) ∈ indices /\ 1 <= i + 1 <= N.
Proof.
  unfold in_window. rewrite list_elem_of_fmap. split.
  - intros (v & -> & [Hw Hv]%list_elem_of_filter).
    replace (v - 1 + 1) with v by lia. auto.
  - intros [Hv Hw]. exists (i + 1). split; [lia|].
    apply list_elem_of_filter. auto.
Qed.

Lemma elem_of_range a b v : v ∈ Py.range a (b + 1) <-> a <= v <= b.
Proof. unfold Py.range. rewrite elem_of_seqZ. lia. Qed.

Lemma length_range a b : Z.of_nat (length (Py.range a b)) = Z.max 0 (b - a).
Proof. unfold Py.range. rewrite length_seqZ. lia. Qed.

Lemma range_nil a b : b <= a -> Py.range a b = [].
Proof. intros H. unfold Py.range. apply seqZ_nil. lia. Qed.

(** *** [indices.extend(range(...))] *)

Section ExtendRange.
Variable mc : Py.Machine.
Implicit Types indices : list Z.

Lemma extend_range_outcome indices a b :
  Py.extend_range mc indices a b = Return (indices ++ Py.range a b) \/
  Py.extend_range mc indices a b = Raise OverflowError \/
  Py.extend_range mc indices a b = Raise MemoryError.
Proof. unfold Py.extend_range. cbv zeta. repeat case_match; auto. Qed.

Lemma extend_range_Return indices a b l :
  Py.extend_range mc indices a b = Return l -> l = indices ++ Py.range a b.
Proof.
  destruct (extend_range_outcome indices a b) as [-> | [-> | ->]]; congruence.
Qed.

Lemma extend_range_fits indices a b :
  Z.max 0 (b - a) <= Z.of_N (Py.maxsize mc) ->
  Z.of_nat (length indices) + Z.max 0 (b - a) <= Z.of_N (Py.capacity mc) ->
  Py.extend_range mc indices a b = Return (indices ++ Py.range a b).
Proof.
  intros Hsize Hroom. unfold Py.extend_range. cbv zeta.
  rewrite (proj2 (Z.ltb_ge _ _) Hsize), (proj2 (Z.ltb_ge _ _) Hroom), andb_false_r.
  reflexivity.
Qed.

Lemma extend_range_empty indices a b :
  b <= a -> Py.extend_range mc indices a b = Return indices.
Proof.
  intros Hab. unfold Py.extend_range. cbv zeta.
  replace (Z.max 0 (b - a)) with 0 by lia.
  assert ((Z.of_N (Py.maxsize mc) <? 0) = false) as -> by (apply Z.ltb_ge; lia).
  rewrite (range_nil _ _ Hab), app_nil_r. reflexivity.
Qed.

Lemma extend_range_too_long indices a b :
  Z.of_N (Py.maxsize mc) < b - a -> Py.extend_range mc indices a b = Raise OverflowError.
Proof.
  intros Hlong. unfold Py.extend_range. cbv zeta.
  assert ((Z.of_N (Py.maxsize mc) <? Z.max 0 (b - a)) = true) as -> by (apply Z.ltb_lt; lia).
  reflexivity.
Qed.

Lemma extend_range_no_room indices a b :
  0 < b - a <= Z.of_N (Py.maxsize mc) ->
  Z.of_N (Py.capacity mc) < Z.of_nat (length indices) + (b - a) ->
  Py.extend_range mc indices a b = Raise MemoryError.
Proof.
  intros Hlen Hroom. unfold Py.extend_range. cbv zeta.
  replace (Z.max 0 (b - a)) with (b - a) by lia.
  assert ((Z.of_N (Py.maxsize mc) <? b - a) = false) as -> by (apply Z.ltb_ge; lia).
  assert ((0 <? b - a) = true) as -> by (apply Z.ltb_lt; lia).
  assert ((Z.of_N (Py.capacity mc) <? Z.of_nat (length indices) + (b - a)) = true) as ->
    by (apply Z.ltb_lt; lia).
  reflexivity.
Qed.

(** *** The loop of [parse_indices] *)

(** What an iteration does, against the numbers its part stands for. *)
Lemma parse_part_outcome part indices :
  match parse_part mc part indices with
  | Return l => exists new, part_values part = Some new /\ l = indices ++ new
  | Raise e => (e = ValueError /\ part_values part = None) \/
               ((e = OverflowError \/ e = MemoryError) /\ part_values part <> None)
  | Diverges => False
  end.
Proof.
  unfold parse_part, part_values. destruct (Py.contains "-" part).
  - destruct (Py.split "-" part) as [|s1 [|s2 [|s3 rest]]]; auto.
    destruct (Py.int_of_str s1) as [a|]; [|auto].
    destruct (Py.int_of_str s2) as [b|]; [|auto].
    destruct (extend_range_outcome indices a (b + 1)) as [-> | [-> | ->]];
      [eauto|right; split; [auto|discriminate]..].
  - destruct (Py.int_of_str part); eauto.
Qed.

Lemma parse_part_malformed part indices :
  part_values part = None -> parse_part mc part indices = Raise ValueError.
Proof.
  intros Hnone. pose proof (parse_part_outcome part indices) as H.
  destruct (parse_part mc part indices) as [l|e|]; [|destruct H as [[-> _]|[_ H]]|destruct H].
  - destruct H as (new & H & _). congruence.
  - reflexivity.
  - congruence.
Qed.

Lemma parse_part_fits part indices new :
  part_values part = Some new ->
  Z.of_nat (length new) <= Z.of_N (Py.maxsize mc) ->
  Z.of_nat (length indices) + Z.of_nat (length new) <= Z.of_N (Py.capacity mc) ->
  parse_part mc part indices = Return (indices ++ new).
Proof.
  unfold parse_part, part_values. destruct (Py.contains "-" part).
  - destruct (Py.split "-" part) as [|s1 [|s2 [|s3 rest]]]; try discriminate.
    destruct (Py.int_of_str s1) as [a|]; [|discriminate].
    destruct (Py.int_of_str s2) as [b|]; [|discriminate].
    intros [= <-]. rewrite length_range. apply extend_range_fits.
  - destruct (Py.int_of_str part); [|discriminate]. intros [= <-] _ _. reflexivity.
Qed.

Lemma parse_parts_app parts1 parts2 acc :
  parse_parts mc (parts1 ++ parts2) acc =
  match parse_parts mc parts1 acc with
  | Return indices => parse_parts mc parts2 indices
  | Raise e => Raise e
  | Diverges => Diverges
  end.
Proof.
  revert acc. induction parts1 as [|part parts1 IH]; intros acc; [reflexivity|].
  cbn [parse_parts app]. destruct (String.eqb (Py.strip part) ""); [apply IH|].
  destruct (parse_part mc (Py.strip part) acc); [apply IH|reflexivity|reflexivity].
Qed.

Lemma mapM_cons_segment part parts :
  mapM segment_values (part :: parts) =
  match (if String.eqb (Py.strip part) "" then Some [] else part_values (Py.strip part)) with
  | Some new =>
      match mapM segment_values parts with
      | Some cs => Some (new :: cs)
      | None => None
      end
  | None => None
  end.
Proof.
  change (mapM segment_values (part :: parts))
    with (segment_values part ≫= fun y =>
          mapM segment_values parts ≫= fun k => mret (y :: k)).
  assert (segment_values part =
          if String.eqb (Py.strip part) "" then Some [] else part_values (Py.strip part))
    as -> by reflexivity.
  destruct (if String.eqb (Py.strip part) "" then Some [] else part_values (Py.strip part));
    [|reflexivity].
  cbn [mbind option_bind]. destruct (mapM segment_values parts); reflexivity.
Qed.

(** What the loop does, against the numbers its segments stand for. *)
Lemma parse_parts_outcome parts indices :
  match parse_parts mc parts indices with
  | Return l =>
      exists cs, mapM segment_values parts = Some cs /\ l = indices ++ concat cs
  | Raise e => (e = ValueError /\ mapM segment_values parts = None) \/
               e = OverflowError \/ e = MemoryError
  | Diverges => False
  end.
Proof.
  revert indices. induction parts as [|part parts IH]; intros indices.
  - cbn. exists []. rewrite app_nil_r. auto.
  - rewrite mapM_cons_segment. cbn [parse_parts].
    destruct (String.eqb (Py.strip part) "").
    + specialize (IH indices).
      destruct (parse_parts mc parts indices) as [l|e|]; [| |exact IH].
      * destruct IH as (cs & -> & ->). exists ([] :: cs). auto.
      * destruct IH as [[-> ->]|H]; auto.
    + pose proof (parse_part_outcome (Py.strip part) indices) as Hp.
      destruct (parse_part mc (Py.strip part) indices) as [l|e|]; [| |exact Hp].
      * destruct Hp as (new & -> & ->). specialize (IH (indices ++ new)).
        destruct (parse_parts mc parts (indices ++ new)) as [l'|e|]; [| |exact IH].
        -- destruct IH as (cs & -> & ->). exists (new :: cs).
           cbn [concat]. rewrite app_assoc. auto.
        -- destruct IH as [[-> ->]|H]; auto.
      * destruct Hp as [[-> ->]|[H _]]; auto.
Qed.

(** When the machine has room for all the numbers, the loop collects them. *)
Lemma parse_parts_fits parts indices cs :
  mapM segment_values parts = Some cs ->
  Z.of_nat (length (indices ++ concat cs)) <= Z.of_N (Py.maxsize mc) ->
  Z.of_nat (length (indices ++ concat cs)) <= Z.of_N (Py.capacity mc) ->
  parse_parts mc parts indices = Return (indices ++ concat cs).
Proof.
  revert indices cs. induction parts as [|part parts IH]; intros indices cs.
  - intros [= <-] _ _. cbn. rewrite app_nil_r. reflexivity.
  - rewrite mapM_cons_segment. cbn [parse_parts].
    destruct (String.eqb (Py.strip part) "").
    + destruct (mapM segment_values parts) as [cs'|] eqn:E; [|discriminate].
      intros [= <-]. cbn [concat app]. apply IH. reflexivity.
    + destruct (part_values (Py.strip part)) as [new|] eqn:Hnew; [|discriminate].
      destruct (mapM segment_values parts) as [cs'|] eqn:E; [|discriminate].
      intros [= <-]. cbn [concat]. rewrite app_assoc. intros Hsize Hroom.
      rewrite (parse_part_fits _ _ _ Hnew).
      * apply IH; [reflexivity|assumption|assumption].
      * rewrite !length_app in Hsize. lia.
      * rewrite !length_app in Hroom. lia.
Qed.

(** The loop raises [ValueError] exactly when it comes to a segment that
    stands for no numbers. *)
Lemma parse_parts_ValueError parts indices :
  parse_parts mc parts indices = Raise ValueError <->
  exists before segment after raw,
    parts = before ++ segment :: after /\
    parse_parts mc before indices = Return raw /\
    segment_values segment = None.
Proof.
  split.
  - revert indices. induction parts as [|part parts IH]; intros indices; [discriminate|].
    cbn [parse_parts]. destruct (String.eqb (Py.strip part) "") eqn:Hblank.
    + intros (before & segment & after & raw & -> & Hraw & Hbad)%IH.
      exists (part :: before), segment, after, raw. split; [reflexivity|].
      split; [|exact Hbad]. cbn [parse_parts]. rewrite Hblank. exact Hraw.
    + pose proof (parse_part_outcome (Py.strip part) indices) as Hp.
      destruct (parse_part mc (Py.strip part) indices) as [l|e|] eqn:Hpart.
      * intros (before & segment & after & raw & -> & Hraw & Hbad)%IH.
        exists (part :: before), segment, after, raw. split; [reflexivity|].
        split; [|exact Hbad]. cbn [parse_parts]. rewrite Hblank, Hpart. exact Hraw.
      * intros [= ->]. destruct Hp as [[_ Hnone]|[[H|H] _]]; try discriminate.
        exists [], part, parts, indices. split; [reflexivity|]. split; [reflexivity|].
        unfold segment_values. cbv zeta. rewrite Hblank. exact Hnone.
      * discriminate.
  - intros (before & segment & after & raw & -> & Hraw & Hbad).
    rewrite parse_parts_app, Hraw. cbn [parse_parts].
    unfold segment_values in Hbad. cbv zeta in Hbad.
    destruct (String.eqb (Py.strip segment) ""); [discriminate|].
    rewrite (parse_part_malformed _ _ Hbad). reflexivity.
Qed.

(** *** [parse_indices] *)

Lemma parse_indices_Return input_str N l :
  parse_indices mc input_str N = Return (Some l) <->
  exists raw,
    parse_parts mc (Py.split "," input_str) [] = Return raw /\
    l = Py.sorted (elements (Py.set_of (in_window N raw))).
Proof.
  unfold parse_indices.
  destruct (parse_parts mc (Py.split "," input_str) []) as [raw|e|].
  - split; [intros [= <-]; eauto|]. intros (raw' & [= <-] & ->). reflexivity.
  - split; [destruct e; discriminate|]. intros (raw & H & _). discriminate.
  - split; [discriminate|]. intros (raw & H & _). discriminate.
Qed.

Lemma parse_indices_values input_str N l :
  parse_indices mc input_str N = Return (Some l) ->
  exists cs,
    mapM segment_values (Py.split "," input_str) = Some cs /\
    l = Py.sorted (elements (Py.set_of (in_window N (concat cs)))).
Proof.
  intros (raw & Hraw & ->)%parse_indices_Return.
  pose proof (parse_parts_outcome (Py.split "," input_str) []) as H.
  rewrite Hraw in H. destruct H as (cs & Hcs & ->). eauto.
Qed.

Lemma parse_indices_fits input_str N cs :
  mapM segment_values (Py.split "," input_str) = Some cs ->
  Z.of_nat (length (concat cs)) <= Z.of_N (Py.maxsize mc) ->
  Z.of_nat (length (concat cs)) <= Z.of_N (Py.capacity mc) ->
  parse_indices mc input_str N =
  Return (Some (Py.sorted (elements (Py.set_of (in_window N (concat cs)))))).
Proof.
  intros Hcs Hsize Hroom. unfold parse_indices.
  rewrite (parse_parts_fits _ [] cs Hcs Hsize Hroom). reflexivity.
Qed.

Lemma parse_indices_None input_str N :
  parse_indices mc input_str N = Return None <->
  parse_parts mc (Py.split "," input_str) [] = Raise ValueError.
Proof.
  unfold parse_indices.
  destruct (parse_parts mc (Py.split "," input_str) []) as [raw|e|].
  - split; discriminate.
  - destruct e; split; try discriminate; reflexivity.
  - split; discriminate.
Qed.

(** [parse_indices] returns, or lets one of two exceptions through. *)
Lemma parse_indices_outcome input_str N :
  match parse_indices mc input_str N with
  | Return _ => True
  | Raise e => e = OverflowError \/ e = MemoryError
  | Diverges => False
  end.
Proof.
  pose proof (parse_parts_outcome (Py.split "," input_str) []) as H.
  unfold parse_indices.
  destruct (parse_parts mc (Py.split "," input_str) []) as [raw|e|]; [exact I| |exact H].
  destruct H as [[-> _]|[-> | ->]]; auto.
Qed.

(** The count plays no part in the loop: it only filters the result. *)
Lemma parse_indices_count input_str N N' :
  match parse_indices mc input_str N, parse_indices mc input_str N' with
  | Return (Some _), Return (Some _) | Return None, Return None => True
  | Raise e, Raise e' => e = e'
  | _, _ => False
  end.
Proof.
  pose proof (parse_parts_outcome (Py.split "," input_str) []) as H.
  unfold parse_indices.
  destruct (parse_parts mc (Py.split "," input_str) []) as [raw|e|]; [exact I| |exact H].
  destruct H as [[-> _]|[-> | ->]]; auto.
Qed.
End ExtendRange.
Lemma part_values_range part start_str end_str a b :
  Py.split "-" part = [start_str; end_str] ->
  Py.int_of_str start_str = Some a -> Py.int_of_str end_str = Some b ->
  part_values part = Some (Py.range a (b + 1)).
Proof.
  intros Hsplit Ha Hb. unfold part_values.
  rewrite (split_two_contains _ _ _ _ Hsplit), Hsplit, Ha, Hb. reflexivity.
Qed.

Lemma int_of_str_empty : Py.int_of_str "" = None.
Proof. reflexivity. Qed.

Lemma part_values_well_formed part :
  part_values part = None <-> ~ well_formed_segment part.
Proof.
  unfold part_values, well_formed_segment, is_integer.
  destruct (Py.contains "-" part) eqn:Hc.
  - destruct (Py.split "-" part) as [|s1 [|s2 [|s3 rest]]] eqn:Hs.
    + exfalso. exact (split_nonempty _ _ Hs).
    + apply split_single in Hs as [_ Hs]. congruence.
    + pose proof Hs as (-> & H1 & H2)%split_two.
      destruct (Py.int_of_str s1) as [a|] eqn:Ha, (Py.int_of_str s2) as [b|] eqn:Hb.
      * split; [discriminate|]. intros []. right. exists s1, s2. eauto 10.
      * split; [|reflexivity]. intros _ [[? _]|(t1 & t2 & Heq & Ht1 & Ht2 & _ & Hi)]; [discriminate|].
        assert (Py.split "-" (s1 +:+ String "-" s2) = [t1; t2]) as E
          by (apply split_two; auto).
        rewrite Hs in E. injection E as -> ->. rewrite Hb in Hi. by destruct Hi.
      * split; [|reflexivity]. intros _ [[? _]|(t1 & t2 & Heq & Ht1 & Ht2 & Hi & _)]; [discriminate|].
        assert (Py.split "-" (s1 +:+ String "-" s2) = [t1; t2]) as E
          by (apply split_two; auto).
        rewrite Hs in E. injection E as -> ->. rewrite Ha in Hi. by destruct Hi.
      * split; [|reflexivity]. intros _ [[? _]|(t1 & t2 & Heq & Ht1 & Ht2 & Hi & _)]; [discriminate|].
        assert (Py.split "-" (s1 +:+ String "-" s2) = [t1; t2]) as E
          by (apply split_two; auto).
        rewrite Hs in E. injection E as -> ->. rewrite Ha in Hi. by destruct Hi.
    + split; [|reflexivity]. intros _ [[? _]|(t1 & t2 & Heq & Ht1 & Ht2 & _)]; [discriminate|].
      assert (Py.split "-" part = [t1; t2]) as E by (apply split_two; auto).
      rewrite Hs in E. discriminate.
  - destruct (Py.int_of_str part) eqn:Hi.
    + split; [discriminate|]. intros []. left. eauto.
    + split; [|reflexivity]. intros _ [[_ [? ?]]|(t1 & t2 & -> & _)]; [discriminate|].
      rewrite contains_app in Hc. simpl in Hc. rewrite orb_true_r in Hc. discriminate.
Qed.

Lemma segment_values_None segment :
  segment_values segment = None <->
  Py.strip segment <> "" /\ ~ well_formed_segment (Py.strip segment).
Proof.
  unfold segment_values. cbv zeta.
  destruct (String.eqb_spec (Py.strip segment) "") as [->|Hne].
  - split; [discriminate|]. intros [[] _]. reflexivity.
  - rewrite part_values_well_formed. tauto.
Qed.

Lemma dangling_hyphen_malformed s : ~ well_formed_segment (s +:+ "-").
Proof.
  intros [[Hc _]|(t1 & t2 & Heq & Ht1 & Ht2 & _ & Hi)].
  - rewrite contains_app in Hc. simpl in Hc. rewrite orb_true_r in Hc. discriminate.
  - assert (Py.split "-" (s +:+ String "-" "") = [t1; t2]) as E
      by (apply split_two; auto).
    rewrite split_app_sep in E. cbn [Py.split] in E.
    assert (t2 = "") as ->.
    { apply (f_equal (@rev _)) in E. rewrite rev_app_distr in E. simpl in E. congruence. }
    by destruct Hi.
Qed.

Lemma empty_start_malformed s : ~ well_formed_segment ("-" +:+ s).
Proof.
  intros [[Hc _]|(t1 & t2 & Heq & Ht1 & Ht2 & Hi & _)]; [discriminate|].
  assert (Py.split "-" (String "-" s) = [t1; t2]) as E by (apply split_two; auto).
  cbn in E. injection E as <- _. by destruct Hi.
Qed.

Section Parser.
Variable mc : Py.Machine.

Lemma parse_indices_range input_str N l :
  parse_indices mc input_str N = Return (Some l) -> Forall (fun i => 0 <= i <= N - 1) l.
Proof.
  intros (raw & _ & ->)%parse_indices_Return.
  apply Forall_forall. intros i [_ ?]%sorted_set_elem%elem_of_in_window. lia.
Qed.

(** An iteration on a range segment is the [extend] of its range. *)
Lemma parse_parts_cons_range segment rest indices start_str end_str a b :
  Py.split "-" (Py.strip segment) = [start_str; end_str] ->
  Py.int_of_str start_str = Some a -> Py.int_of_str end_str = Some b ->
  parse_parts mc (segment :: rest) indices =
  match Py.extend_range mc indices a (b + 1) with
  | Return indices => parse_parts mc rest indices
  | Raise e => Raise e
  | Diverges => Diverges
  end.
Proof.
  intros Hsplit Ha Hb. cbn [parse_parts].
  assert (String.eqb (Py.strip segment) "" = false) as ->.
  { apply String.eqb_neq. intros E. rewrite E in Hsplit. discriminate. }
  unfold parse_part.
  rewrite (split_two_contains _ _ _ _ Hsplit), Hsplit, Ha, Hb. reflexivity.
Qed.

(** A segment that stands for no numbers keeps the parse from returning
    a list. *)
Lemma malformed_never_selects input_str N segment l :
  segment ∈ Py.split "," input_str ->
  segment_values segment = None ->
  parse_indices mc input_str N <> Return (Some l).
Proof.
  intros Hin Hbad (cs & E & _)%parse_indices_values.
  apply mapM_Some in E.
  apply Forall2_Forall_l with (Q := fun x => segment_values x <> None) in E.
  - rewrite Forall_forall in E. exact (E _ Hin Hbad).
  - apply Forall_forall. intros y _ x Hx. congruence.
Qed.

Lemma parse_indices_None_iff input_str N :
  parse_indices mc input_str N = Return None <->
  exists before segment after raw,
    Py.split "," input_str = before ++ segment :: after /\
    parse_parts mc before [] = Return raw /\
    Py.strip segment <> "" /\ ~ well_formed_segment (Py.strip segment).
Proof.
  rewrite parse_indices_None, parse_parts_ValueError.
  split; intros (before & segment & after & raw & Hsplit & Hraw & Hbad);
    exists before, segment, after, raw; (split; [exact Hsplit|split; [exact Hraw|]]);
    apply segment_values_None; exact Hbad.
Qed.

(** A reversed range alone selects nothing. *)
Lemma reversed_range_alone segment start_str end_str a b N :
  Py.split "-" (Py.strip segment) = [start_str; end_str] ->
  Py.int_of_str start_str = Some a -> Py.int_of_str end_str = Some b ->
  a > b -> Py.contains "," segment = false ->
  parse_indices mc segment N = Return (Some []).
Proof.
  intros Hsplit Ha Hb Hab Hc. unfold parse_indices.
  rewrite (split_no_sep _ _ Hc), (parse_parts_cons_range _ _ _ _ _ _ _ Hsplit Ha Hb).
  rewrite extend_range_empty by lia. reflexivity.
Qed.
End Parser.


Lemma hyphen_not_space : Py.isspace "-" = false.
Proof. reflexivity. Qed.

Lemma hyphen_not_comma : Ascii.eqb "-" "," = false.
Proof. reflexivity. Qed.

(** An input that ends with a hyphen has a malformed segment. *)
Lemma dangling_hyphen_segment s :
  exists segment, segment ∈ Py.split "," (s +:+ "-") /\ segment_values segment = None.
Proof.
  destruct (split_last_snoc "," s "-" hyphen_not_comma) as (parts & p & _ & E).
  exists (p +:+ "-"). split; [rewrite E; apply elem_of_app; right; left|].
  apply segment_values_None.
  unfold Py.strip. rewrite (strip_with_snoc _ _ _ hyphen_not_space).
  split; [|apply dangling_hyphen_malformed].
  destruct (Py.lstrip_with Py.isspace p); discriminate.
Qed.

(** An input that starts with a hyphen does not parse: its first segment
    is malformed, and nothing is before it. *)
Lemma parse_indices_empty_start mc s N : parse_indices mc ("-" +:+ s) N = Return None.
Proof.
  apply parse_indices_None_iff.
  destruct (split_head_cons "," "-" s hyphen_not_comma) as (p & parts & E).
  exists [], (String "-" p), parts, [].
  split; [change ("-" +:+ s) with (String "-" s); rewrite E; reflexivity|].
  split; [reflexivity|].
  destruct (strip_with_cons Py.isspace "-" p hyphen_not_space) as [r Hr].
  unfold Py.strip. rewrite Hr. split; [discriminate|apply (empty_start_malformed r)].
Qed.

(** A range of 100000000000000000000 numbers on a machine whose
    [sys.maxsize] is below that: the [extend] raises [OverflowError],
    whatever comes after the segment. *)
Lemma huge_range_overflows mc rest :
  Z.of_N (Py.maxsize mc) < 100000000000000000000 ->
  parse_parts mc ("1-100000000000000000000" :: rest) [] = Raise OverflowError.
Proof.
  intros Hsize.
  rewrite (parse_parts_cons_range mc _ _ _ "1" "100000000000000000000"
             1 100000000000000000000) by (vm_compute; reflexivity).
  rewrite extend_range_too_long by lia. reflexivity.
Qed.

(** C4: a comma-separated segment that is not blank and fails to parse (it
    is neither a single integer nor two integers joined by one hyphen: a
    dangling hyphen, an empty start or end, text that is no number) keeps
    [parse_indices] from returning any list, and makes it return [None] as
    soon as the loop comes to it; [None] is returned in no other case. But
    the loop need not come to it: a range before it that is longer than
    [sys.maxsize], or than the memory allows, ends the call with
    [OverflowError] or [MemoryError], which [except ValueError] does not
    catch. On the selection [1-100000000000000000000,invalid] (ten
    repositories, a 64-bit machine) [parse_indices] raises
    [OverflowError] where the format is invalid and [None] is due. *)
Theorem malformed_segment_fails_whole_parse (mc : Py.Machine) (input_str : string) (N : Z) :
  (parse_indices mc input_str N = Return None <->
   exists before segment after raw,
     Py.split "," input_str = before ++ segment :: after /\
     parse_parts mc before [] = Return raw /\
     Py.strip segment <> "" /\ ~ well_formed_segment (Py.strip segment)) /\
  ((exists segment, segment ∈ Py.split "," input_str /\
                    Py.strip segment <> "" /\ ~ well_formed_segment (Py.strip segment)) ->
   parse_indices mc input_str N = Return None \/
   parse_indices mc input_str N = Raise OverflowError \/
   parse_indices mc input_str N = Raise MemoryError) /\
  (forall s, ~ well_formed_segment (s +:+ "-")) /\
  (forall s, ~ well_formed_segment ("-" +:+ s)) /\
  (forall s l, parse_indices mc (s +:+ "-") N <> Return (Some l)) /\
  (forall s, parse_indices mc ("-" +:+ s) N = Return None) /\
  ~ well_formed_segment "invalid" /\
  parse_indices mc "invalid" 10 = Return None /\
  parse_indices mc "1,invalid" 10 = Return None /\
  parse_indices mc "1-" 10 = Return None /\
  (Z.of_N (Py.maxsize mc) < 100000000000000000000 ->
   parse_indices mc "1-100000000000000000000,invalid" 10 = Raise OverflowError) /\
  parse_indices example_machine "1-100000000000000000000,invalid" 10 = Raise OverflowError.
Proof.
  split; [apply parse_indices_None_iff|].
  split.
  { intros (segment & Hin & Hbad).
    apply segment_values_None in Hbad.
    pose proof (malformed_never_selects mc input_str N segment) as Hnever.
    pose proof (parse_indices_outcome mc input_str N) as Hout.
    destruct (parse_indices mc input_str N) as [[l|]|e|];
      [|auto|destruct Hout as [-> | ->]; auto|destruct Hout].
    exfalso. exact (Hnever l Hin Hbad eq_refl). }
  split; [exact dangling_hyphen_malformed|]. split; [exact empty_start_malformed|].
  split.
  { intros s l. destruct (dangling_hyphen_segment s) as (segment & Hin & Hbad).
    exact (malformed_never_selects mc _ N segment l Hin Hbad). }
  split; [intros s; apply parse_indices_empty_start|].
  split; [apply part_values_well_formed; reflexivity|].
  split; [by vm_compute|]. split; [by vm_compute|]. split; [by vm_compute|].
  assert (forall mc', Z.of_N (Py.maxsize mc') < 100000000000000000000 ->
            parse_indices mc' "1-100000000000000000000,invalid" 10 = Raise OverflowError)
    as Hcrash.
  { intros mc' Hsize. unfold parse_indices.
    change (Py.split "," "1-100000000000000000000,invalid")
      with ["1-100000000000000000000"; "invalid"].
    rewrite (huge_range_overflows mc' _ Hsize). reflexivity. }
  split; [apply Hcrash|]. apply Hcrash. vm_compute. reflexivity.
Qed.

(** C8: a hyphenated segment [start-end] stands for every value from
    [start] to [end], both endpoints included, and whenever the parse
    returns a list, each of these positions within the window is in it as
    a 0-based index; when the segment is the whole input and the machine
    can hold the range, the list holds nothing else. But a range longer
    than [sys.maxsize] ends the call with [OverflowError]: the selection
    [1-100000000000000000000] of ten repositories raises it on a 64-bit
    machine, where the positions 1 to 10 are due. *)
Theorem range_segment_inclusive (mc : Py.Machine)
    (input_str segment start_str end_str : string) (a b N : Z)
    (Hsegment : segment ∈ Py.split "," input_str)
    (Hsplit : Py.split "-" (Py.strip segment) = [start_str; end_str])
    (Hstart : Py.int_of_str start_str = Some a)
    (Hend : Py.int_of_str end_str = Some b) :
  segment_values segment = Some (Py.range a (b + 1)) /\
  (forall v, v ∈ Py.range a (b + 1) <-> a <= v <= b) /\
  (forall l, parse_indices mc input_str N = Return (Some l) ->
     forall v, a <= v <= b -> 1 <= v <= N -> (v - 1) ∈ l) /\
  (Py.split "," input_str = [segment] ->
   b - a + 1 <= Z.of_N (Py.maxsize mc) -> b - a + 1 <= Z.of_N (Py.capacity mc) ->
     exists l, parse_indices mc input_str N = Return (Some l) /\
       forall i, i ∈ l <-> a <= i + 1 <= b /\ 1 <= i + 1 <= N) /\
  (Py.split "," input_str = [segment] -> Z.of_N (Py.maxsize mc) < b - a + 1 ->
     parse_indices mc input_str N = Raise OverflowError) /\
  (4 <= Z.of_N (Py.maxsize mc) -> 6 <= Z.of_N (Py.capacity mc) ->
     parse_indices mc "1,3,5-8" 10 = Return (Some [0; 2; 4; 5; 6; 7])) /\
  parse_indices example_machine "1,3,5-8" 10 = Return (Some [0; 2; 4; 5; 6; 7]) /\
  parse_indices example_machine "1-100000000000000000000" 10 = Raise OverflowError.
Proof.
  assert (segment_values segment = Some (Py.range a (b + 1))) as Hvalues.
  { unfold segment_values. cbv zeta.
    destruct (String.eqb_spec (Py.strip segment) "") as [E|_].
    - rewrite E in Hsplit. discriminate.
    - eapply part_values_range; eassumption. }
  split; [exact Hvalues|]. split; [intros v; apply elem_of_range|].
  split; [|split; [|split; [|split; [|split; [by vm_compute|by vm_compute]]]]].
  - intros l (cs & E & ->)%parse_indices_values v Hab Hw.
    apply sorted_set_elem, elem_of_in_window.
    split; [|lia]. replace (v - 1 + 1) with v by lia.
    apply mapM_Some in E.
    apply list_elem_of_lookup in Hsegment as [k Hk].
    destruct (Forall2_lookup_l _ _ _ k segment E Hk) as (c & Hc & Hsc).
    rewrite Hvalues in Hsc. injection Hsc as <-.
    apply list_elem_of_In, in_concat. exists (Py.range a (b + 1)).
    split; apply list_elem_of_In; [|apply elem_of_range; assumption].
    apply list_elem_of_lookup. eauto.
  - intros Hone Hsize Hroom. unfold parse_indices.
    rewrite Hone, (parse_parts_cons_range mc _ _ _ _ _ _ _ Hsplit Hstart Hend).
    rewrite extend_range_fits by (cbn [length]; lia).
    eexists. split; [reflexivity|].
    intros i. rewrite sorted_set_elem, elem_of_in_window. cbn [app].
    rewrite elem_of_range. reflexivity.
  - intros Hone Hsize. unfold parse_indices.
    rewrite Hone, (parse_parts_cons_range mc _ _ _ _ _ _ _ Hsplit Hstart Hend).
    rewrite extend_range_too_long by lia. reflexivity.
  - intros Hsize Hroom. unfold parse_indices.
    change (Py.split "," "1,3,5-8") with ["1"; "3"; "5-8"].
    change (parse_parts mc ["1"; "3"; "5-8"] [])
      with (parse_parts mc ["5-8"] [1; 3]).
    rewrite (parse_parts_cons_range mc _ _ _ "5" "8" 5 8) by (vm_compute; reflexivity).
    rewrite extend_range_fits by (cbn [length]; lia). by vm_compute.
Qed.

(** C10: a range segment whose start exceeds its end does not make the
    parse fail and contributes no index: the parse goes on as if the segment
    were absent, and alone it yields the empty list. *)
Theorem reversed_range_contributes_nothing (mc : Py.Machine)
    (segment start_str end_str : string) (a b : Z)
    (Hsplit : Py.split "-" (Py.strip segment) = [start_str; end_str])
    (Hstart : Py.int_of_str start_str = Some a)
    (Hend : Py.int_of_str end_str = Some b)
    (Hreversed : a > b) :
  segment_values segment = Some [] /\
  (forall before after indices,
     parse_parts mc (before ++ segment :: after) indices =
     parse_parts mc (before ++ after) indices) /\
  (forall s t N, Py.contains "," segment = false ->
     parse_indices mc (s +:+ "," +:+ segment +:+ "," +:+ t) N =
     parse_indices mc (s +:+ "," +:+ t) N) /\
  (forall N, Py.contains "," segment = false ->
     parse_indices mc segment N = Return (Some [])) /\
  parse_indices mc "5-3" 10 = Return (Some []).
Proof.
  assert (part_values (Py.strip segment) = Some []) as Hpart.
  { rewrite (part_values_range _ _ _ _ _ Hsplit Hstart Hend).
    rewrite range_nil by lia. reflexivity. }
  assert (String.eqb (Py.strip segment) "" = false) as Hne.
  { apply String.eqb_neq. intros E. rewrite E in Hsplit. discriminate. }
  assert (forall rest indices,
            parse_parts mc (segment :: rest) indices = parse_parts mc rest indices) as Hskip.
  { intros rest indices.
    rewrite (parse_parts_cons_range mc _ _ _ _ _ _ _ Hsplit Hstart Hend).
    rewrite extend_range_empty by lia. reflexivity. }
  split; [unfold segment_values; cbv zeta; rewrite Hne; exact Hpart|].
  split; [|split; [|split]].
  - intros before after indices. rewrite !parse_parts_app.
    destruct (parse_parts mc before indices); [apply Hskip|reflexivity|reflexivity].
  - intros s t N Hc. unfold parse_indices.
    change ("," +:+ segment +:+ "," +:+ t) with (String "," (segment +:+ String "," t)).
    change ("," +:+ t) with (String "," t).
    rewrite !split_app_sep, (split_no_sep _ _ Hc). cbn [app].
    rewrite !parse_parts_app.
    destruct (parse_parts mc (Py.split "," s) []); [rewrite Hskip|..]; reflexivity.
  - intros N Hc.
    exact (reversed_range_alone mc _ _ _ _ _ N Hsplit Hstart Hend Hreversed Hc).
  - apply (reversed_range_alone mc "5-3" "5" "3" 5 3); by vm_compute.
Qed.

(** ** The program logic *)

Section Logic.
Context {A B : Type}.
Implicit Types (P : Trace -> Prop) (h e : Trace).

Lemma bind_Return (m : M A) (f : A -> M B) h a e1 :
  m h = (Return a, e1) ->
  bind m f h = ((f a (h ++ e1)).1, e1 ++ (f a (h ++ e1)).2).
Proof. intros E. unfold bind. rewrite E. destruct (f a (h ++ e1)); reflexivity. Qed.

Lemma bind_Raise (m : M A) (f : A -> M B) h x e1 :
  m h = (Raise x, e1) -> bind m f h = (Raise x, e1).
Proof. intros E. unfold bind. rewrite E. reflexivity. Qed.

Lemma bind_Diverges (m : M A) (f : A -> M B) h e1 :
  m h = (Diverges, e1) -> bind m f h = (Diverges, e1).
Proof. intros E. unfold bind. rewrite E. reflexivity. Qed.

Lemma hoare_ret P (a : A) (Q : Result A -> Trace -> Prop) :
  (forall h, P h -> Q (Return a) h) -> hoare P (ret a) Q.
Proof. intros H h Hp. simpl. rewrite app_nil_r. auto. Qed.

Lemma hoare_raise P x (Q : Result A -> Trace -> Prop) :
  (forall h, P h -> Q (Raise x) h) -> hoare P (raise x) Q.
Proof. intros H h Hp. simpl. rewrite app_nil_r. auto. Qed.

Lemma hoare_consequence P P' (m : M A) (Q Q' : Result A -> Trace -> Prop) :
  hoare P' m Q' -> (forall h, P h -> P' h) -> (forall r h, Q' r h -> Q r h) ->
  hoare P m Q.
Proof. intros H Hpre Hpost h Hp. apply Hpost, H, Hpre, Hp. Qed.

Lemma hoare_conj P (m : M A) (Q1 Q2 : Result A -> Trace -> Prop) :
  hoare P m Q1 -> hoare P m Q2 -> hoare P m (fun r h => Q1 r h /\ Q2 r h).
Proof. intros H1 H2 h Hp. split; [apply H1|apply H2]; exact Hp. Qed.

Lemma hoare_bind P (R : Result A -> Trace -> Prop) (Q : Result B -> Trace -> Prop)
    (m : M A) (f : A -> M B) :
  hoare P m R ->
  (forall a, hoare (R (Return a)) (f a) Q) ->
  (forall x h, R (Raise x) h -> Q (Raise x) h) ->
  (forall h, R Diverges h -> Q Diverges h) ->
  hoare P (bind m f) Q.
Proof.
  intros Hm Hf Hx Hd h Hp. specialize (Hm h Hp).
  destruct (m h) as [[a|x|] e1] eqn:E; simpl in Hm.
  - rewrite (bind_Return _ _ _ _ _ E). cbn [fst snd]. rewrite app_assoc.
    exact (Hf a _ Hm).
  - rewrite (bind_Raise _ _ _ _ _ E). cbn [fst snd]. auto.
  - rewrite (bind_Diverges _ _ _ _ E). cbn [fst snd]. auto.
Qed.

Lemma hoare_try_except P (R Q : Result A -> Trace -> Prop) (m : M A)
    (handler : Exn -> option (M A)) :
  hoare P m R ->
  (forall a h, R (Return a) h -> Q (Return a) h) ->
  (forall h, R Diverges h -> Q Diverges h) ->
  (forall x, match handler x with
             | Some k => hoare (R (Raise x)) k Q
             | None => forall h, R (Raise x) h -> Q (Raise x) h
             end) ->
  hoare P (try_except m handler) Q.
Proof.
  intros Hm Ha Hd Hx h Hp. specialize (Hm h Hp). unfold try_except.
  destruct (m h) as [[a|x|] e1] eqn:E; simpl in Hm |- *; auto.
  specialize (Hx x). destruct (handler x) as [k|]; simpl; auto.
  specialize (Hx _ Hm). destruct (k (h ++ e1)) as [r e2].
  simpl in Hx |- *. rewrite app_assoc. exact Hx.
Qed.

Lemma hoare_finally P (R Q : Result A -> Trace -> Prop) (m : M A) (cleanup : M unit) :
  hoare P m R ->
  (forall h, R Diverges h -> Q Diverges h) ->
  (forall r, r <> Diverges ->
     hoare (R r) cleanup (fun r' h => match r' with
                                      | Return _ => Q r h
                                      | Raise x => Q (Raise x) h
                                      | Diverges => Q Diverges h
                                      end)) ->
  hoare P (finally m cleanup) Q.
Proof.
  intros Hm Hd Hc h Hp. specialize (Hm h Hp). unfold finally.
  destruct (m h) as [r e1] eqn:E. simpl in Hm.
  assert (forall r0 : Result A, r0 <> Diverges ->
            R r0 (h ++ e1) ->
            Q (match cleanup (h ++ e1) with
               | (Return _, e2) => (r0, e1 ++ e2)
               | (Raise x, e2) => (Raise x, e1 ++ e2)
               | (Diverges, e2) => (Diverges, e1 ++ e2)
               end).1
              (h ++ (match cleanup (h ++ e1) with
                     | (Return _, e2) => (r0, e1 ++ e2)
                     | (Raise x, e2) => (Raise x, e1 ++ e2)
                     | (Diverges, e2) => (Diverges, e1 ++ e2)
                     end).2)) as Hgo.
  { intros r0 Hr0 HR. specialize (Hc r0 Hr0 _ HR).
    destruct (cleanup (h ++ e1)) as [[[]|x|] e2]; simpl in Hc |- *;
      rewrite app_assoc; exact Hc. }
  destruct r as [a|x|]; [apply Hgo; [discriminate|assumption]..|simpl; auto].
Qed.

Lemma emits_ret C (a : A) : emits C (ret a).
Proof. intros h. constructor. Qed.

Lemma emits_raise C x : emits C (@raise A x).
Proof. intros h. constructor. Qed.

Lemma emits_bind C (m : M A) (f : A -> M B) :
  emits C m -> (forall a, emits C (f a)) -> emits C (bind m f).
Proof.
  intros Hm Hf h. specialize (Hm h). unfold bind.
  destruct (m h) as [[a|x|] e1]; simpl in Hm |- *; try assumption.
  specialize (Hf a (h ++ e1)). destruct (f a (h ++ e1)) as [r e2].
  simpl in Hf |- *. apply Forall_app; auto.
Qed.

Lemma emits_try_except C (m : M A) (handler : Exn -> option (M A)) :
  emits C m -> (forall x k, handler x = Some k -> emits C k) ->
  emits C (try_except m handler).
Proof.
  intros Hm Hk h. specialize (Hm h). unfold try_except.
  destruct (m h) as [[a|x|] e1]; simpl in Hm |- *; try assumption.
  destruct (handler x) as [k|] eqn:E; [|assumption].
  specialize (Hk _ _ E (h ++ e1)). destruct (k (h ++ e1)) as [r e2].
  simpl in Hk |- *. apply Forall_app; auto.
Qed.

Lemma emits_finally C (m : M A) (cleanup : M unit) :
  emits C m -> emits C cleanup -> emits C (finally m cleanup).
Proof.
  intros Hm Hc h. specialize (Hm h). unfold finally.
  destruct (m h) as [r e1]. simpl in Hm. specialize (Hc (h ++ e1)).
  destruct r; [| |assumption];
    destruct (cleanup (h ++ e1)) as [[[]|x|] e2]; simpl in Hc |- *;
    apply Forall_app; auto.
Qed.

Lemma emits_weaken (C C' : Event -> Prop) (m : M A) :
  (forall ev, C ev -> C' ev) -> emits C m -> emits C' m.
Proof. intros HC Hm h. eapply Forall_impl; [apply Hm|exact HC]. Qed.

(** An assertion that events of the class [C] preserve holds after a
    computation that emits only such events. *)
Lemma hoare_emits C (m : M A) (S : Trace -> Prop) :
  emits C m -> (forall h ev, C ev -> S h -> S (h ++ [ev])) ->
  hoare S m (fun _ h => S h).
Proof.
  intros Hm Hstable h Hs. specialize (Hm h).
  induction (m h).2 as [|ev e IH] using rev_ind; [rewrite app_nil_r; exact Hs|].
  apply Forall_app in Hm as [He Hev]. rewrite app_assoc.
  apply Hstable; [by inversion Hev|auto].
Qed.
End Logic.

Section Effects.
Variable w : World.

Lemma hoare_perform {A} P (act : Trace -> Result A * Event) (Q : Result A -> Trace -> Prop) :
  (forall h, P h -> interrupt_due w h = true -> Q (Raise KeyboardInterrupt) (h ++ [EvInterrupt])) ->
  (forall h, P h -> interrupt_due w h = false -> Q (act h).1 (h ++ [(act h).2])) ->
  hoare P (perform w act) Q.
Proof.
  intros Hi Ha h Hp. unfold perform.
  destruct (interrupt_due w h) eqn:E; [apply Hi; assumption|].
  specialize (Ha h Hp E). destruct (act h). exact Ha.
Qed.

Lemma emits_perform {A} (C : Event -> Prop) (act : Trace -> Result A * Event) :
  C EvInterrupt -> (forall h, C (act h).2) -> emits C (perform w act).
Proof.
  intros Hi Ha h. unfold perform. destruct (interrupt_due w h); [repeat constructor; exact Hi|].
  specialize (Ha h). destruct (act h). repeat constructor. exact Ha.
Qed.

Lemma interrupt_due_None h : interrupt_at w = None -> interrupt_due w h = false.
Proof. unfold interrupt_due. intros ->. reflexivity. Qed.

Lemma perform_eq {A} (act : Trace -> Result A * Event) h :
  interrupt_due w h = false -> perform w act h = ((act h).1, [(act h).2]).
Proof. unfold perform. intros ->. destruct (act h). reflexivity. Qed.
End Effects.

(** ** The repository client *)

Section Client.
Variable w : World.
Variable self : GitHubClient.

Lemma get_repositories_turn_eq repos page h :
  interrupt_due w h = false ->
  get_repositories_turn w self repos page h =
  (match api_get w (repos_url page 100) with
   | Responds response =>
       if negb (status_code response =? 200) then
         Raise (GitHubError (fetch_error_msg response))
       else if json_data response is [] then Return Break
       else Return (Next (repos ++ json_data response) (page + 1))
   | Fails e => Raise (GitHubError ("Connection error: " +:+ e))
   end, [page_request w self page]).
Proof.
  intros Hni. unfold get_repositories_turn, try_except, bind, session_get, page_request.
  rewrite (perform_eq _ _ _ Hni). cbn [fst snd of_transport].
  destruct (api_get w (repos_url page 100)) as [response|e]; cbn [of_transport]; [|reflexivity].
  destruct (negb (status_code response =? 200)); [reflexivity|].
  destruct (json_data response); reflexivity.
Qed.

Lemma page_of_Some answer data :
  page_of answer = Some data <->
  exists response, answer = Responds response /\
                   status_code response = 200 /\ json_data response = data.
Proof.
  unfold page_of. split.
  - destruct answer as [response|e]; [|discriminate].
    destruct (Z.eqb_spec (status_code response) 200); [|discriminate].
    intros [= <-]. eauto.
  - intros (response & -> & -> & <-). reflexivity.
Qed.

Lemma serves_cons first data pages :
  serves w first (data :: pages) ->
  data <> [] /\ page_of (api_get w (repos_url first 100)) = Some data /\
  serves w (first + 1) pages.
Proof.
  intros H. destruct (H 0%nat data eq_refl) as [Hne Hpage].
  rewrite Z.add_0_r in Hpage. repeat split; try assumption.
  - exact (proj1 (H (S i) data0 H0)).
  - replace (first + 1 + Z.of_nat i) with (first + Z.of_nat (S i)) by lia.
    exact (proj2 (H (S i) data0 H0)).
Qed.

(** The loop from [page] on runs through the pages served and goes on
    after them with the fuel that is left. *)
Lemma get_repositories_from_served pages :
  interrupt_at w = None ->
  forall fuel repos page h,
    serves w page pages ->
    get_repositories_from w self (length pages + fuel) repos page h =
    ((get_repositories_from w self fuel (repos ++ concat pages)
        (page + Z.of_nat (length pages))
        (h ++ (page_request w self <$> seqZ page (Z.of_nat (length pages))))).1,
     (page_request w self <$> seqZ page (Z.of_nat (length pages))) ++
     (get_repositories_from w self fuel (repos ++ concat pages)
        (page + Z.of_nat (length pages))
        (h ++ (page_request w self <$> seqZ page (Z.of_nat (length pages))))).2).
Proof.
  intros Hni.
  induction pages as [|data pages IH]; intros fuel repos page h Hserves.
  - cbn [length concat Nat.add].
    change (seqZ page (Z.of_nat 0)) with (@nil Z). cbn [fmap list_fmap app].
    rewrite !app_nil_r, Z.add_0_r.
    destruct (get_repositories_from _ _ _ _ _ _); reflexivity.
  - apply serves_cons in Hserves as (Hne & Hpage & Hserves).
    apply page_of_Some in Hpage as (response & Hget & Hstatus & Hdata).
    cbn [get_repositories_from length concat Nat.add]. unfold bind at 1.
    rewrite get_repositories_turn_eq by (apply interrupt_due_None, Hni).
    rewrite Hget, Hstatus, Hdata. cbn [negb Z.eqb Pos.eqb].
    destruct data as [|d ds]; [congruence|].
    rewrite (IH fuel (repos ++ d :: ds) (page + 1)) by assumption.
    replace (page + 1 + Z.of_nat (length pages)) with (page + Z.of_nat (S (length pages))) by lia.
    rewrite (seqZ_cons page (Z.of_nat (S (length pages)))) by lia.
    replace (Z.pred (Z.of_nat (S (length pages)))) with (Z.of_nat (length pages)) by lia.
    replace (Z.succ page) with (page + 1) by lia.
    cbn [fmap list_fmap fst snd].
    rewrite <- !(app_assoc repos), <- !(app_assoc h). cbn [app]. reflexivity.
Qed.

Lemma seqZ_snoc first n :
  0 <= n -> seqZ first (n + 1) = seqZ first n ++ [first + n].
Proof. intros Hn. rewrite seqZ_app by lia. rewrite (seqZ_cons _ 1), (seqZ_nil _ (Z.pred 1)) by lia. reflexivity. Qed.

(** The listing the loop returns or the error it raises, from what the
    turn after the pages served does. *)
Lemma get_repositories_from_last pages fuel repos page h :
  interrupt_at w = None ->
  serves w page pages -> (length pages < fuel)%nat ->
  get_repositories_from w self fuel repos page h =
  (match api_get w (repos_url (page + Z.of_nat (length pages)) 100) with
   | Responds response =>
       if negb (status_code response =? 200) then
         Raise (GitHubError (fetch_error_msg response))
       else if json_data response is [] then Return (repos ++ concat pages)
       else (get_repositories_from w self (fuel - S (length pages))
               ((repos ++ concat pages) ++ json_data response)
               (page + Z.of_nat (length pages) + 1)
               (h ++ (page_request w self <$> seqZ page (Z.of_nat (length pages) + 1)))).1
   | Fails e => Raise (GitHubError ("Connection error: " +:+ e))
   end,
   (page_request w self <$> seqZ page (Z.of_nat (length pages) + 1)) ++
   match api_get w (repos_url (page + Z.of_nat (length pages)) 100) with
   | Responds response =>
       if negb (status_code response =? 200) then []
       else if json_data response is [] then []
       else (get_repositories_from w self (fuel - S (length pages))
               ((repos ++ concat pages) ++ json_data response)
               (page + Z.of_nat (length pages) + 1)
               (h ++ (page_request w self <$> seqZ page (Z.of_nat (length pages) + 1)))).2
   | Fails e => []
   end).
Proof.
  intros Hni Hserves Hfuel.
  replace fuel with (length pages + S (fuel - S (length pages)))%nat at 1 by lia.
  rewrite get_repositories_from_served by assumption.
  cbn [get_repositories_from]. unfold bind.
  rewrite get_repositories_turn_eq by (apply interrupt_due_None, Hni).
  rewrite seqZ_snoc, fmap_app by lia. cbn [fmap list_fmap].
  destruct (api_get w (repos_url (page + Z.of_nat (length pages)) 100)) as [response|e];
    [|cbn [fst snd]; rewrite app_nil_r; reflexivity].
  destruct (negb (status_code response =? 200)); [cbn [fst snd]; rewrite app_nil_r; reflexivity|].
  destruct (json_data response) as [|d ds]; [cbn [fst snd]; rewrite app_nil_r; reflexivity|].
  rewrite <- !(app_assoc h).
  destruct (get_repositories_from _ _ _ _ _ _) as [r e2]. cbn [fst snd].
  rewrite <- app_assoc. reflexivity.
Qed.
(** The listing, when pages are served and an empty page follows. *)
Lemma get_repositories_served (Hquiet : interrupt_at w = None) fuel h pages :
  serves w 1 pages ->
  page_of (api_get w (repos_url (1 + Z.of_nat (length pages)) 100)) = Some [] ->
  (length pages < fuel)%nat ->
  get_repositories w self fuel h =
    (Return (concat pages), page_request w self <$> seqZ 1 (Z.of_nat (length pages) + 1)).
Proof.
  intros Hpages Hlast Hfuel. unfold get_repositories.
  rewrite (get_repositories_from_last pages) by assumption.
  apply page_of_Some in Hlast as (response & -> & Hstatus & Hdata).
  rewrite Hstatus, Hdata. cbn [negb Z.eqb Pos.eqb app]. rewrite app_nil_r. reflexivity.
Qed.

End Client.

Lemma append_nil_r (s : string) : s +:+ "" = s.
Proof. induction s as [|c s IH]; [reflexivity|]. change (String c (s +:+ "") = String c s). by rewrite IH. Qed.

Lemma append_assoc (s t u : string) : (s +:+ t) +:+ u = s +:+ t +:+ u.
Proof.
  induction s as [|c s IH]; [reflexivity|].
  change (String c ((s +:+ t) +:+ u) = String c (s +:+ t +:+ u)). by rewrite IH.
Qed.

Lemma occurs_in_middle before needle after : occurs_in needle (before +:+ needle +:+ after).
Proof. exists before, after. reflexivity. Qed.

Lemma occurs_in_end before needle : occurs_in needle (before +:+ needle).
Proof. exists before, "". rewrite append_nil_r. reflexivity. Qed.

Lemma fetch_error_msg_status response :
  occurs_in (Py.str_of_int (status_code response)) (fetch_error_msg response).
Proof.
  unfold fetch_error_msg. destruct (json_message response) as [message|].
  - rewrite append_assoc. apply occurs_in_middle.
  - apply occurs_in_end.
Qed.

Lemma fetch_error_msg_message response message :
  json_message response = Some message -> occurs_in message (fetch_error_msg response).
Proof.
  unfold fetch_error_msg. intros ->.
  rewrite <- append_assoc. apply occurs_in_end.
Qed.


(** C6: when a page request is answered with a status other than 200, or
    fails in the transport, after any number of pages served,
    [get_repositories] raises [GitHubError] and returns no list: what the
    earlier pages held is lost. The text of the error holds the status code
    and, when the body has one, the [message]; for a transport failure it
    wraps the failure's description. *)
Theorem get_repositories_aborts_on_failure (w : World) (self : GitHubClient)
    (fuel : nat) (h : Trace) (pages : list Repositories)
    (Hquiet : interrupt_at w = None)
    (Hpages : serves w 1 pages)
    (Hfuel : (length pages < fuel)%nat) :
  (forall response,
     api_get w (repos_url (1 + Z.of_nat (length pages)) 100) = Responds response ->
     status_code response <> 200 ->
     get_repositories w self fuel h =
       (Raise (GitHubError (fetch_error_msg response)),
        page_request w self <$> seqZ 1 (Z.of_nat (length pages) + 1)) /\
     occurs_in (Py.str_of_int (status_code response)) (fetch_error_msg response) /\
     (forall message, json_message response = Some message ->
                      occurs_in message (fetch_error_msg response))) /\
  (forall e,
     api_get w (repos_url (1 + Z.of_nat (length pages)) 100) = Fails e ->
     get_repositories w self fuel h =
       (Raise (GitHubError ("Connection error: " +:+ e)),
        page_request w self <$> seqZ 1 (Z.of_nat (length pages) + 1))).
Proof.
  split.
  - intros response Hget Hstatus.
    split; [|split; [apply fetch_error_msg_status|apply fetch_error_msg_message]].
    unfold get_repositories.
    rewrite (get_repositories_from_last w self pages) by assumption.
    rewrite Hget. apply Z.eqb_neq in Hstatus as ->. cbn [negb]. rewrite app_nil_r. reflexivity.
  - intros e Hget. unfold get_repositories.
    rewrite (get_repositories_from_last w self pages) by assumption.
    rewrite Hget, app_nil_r. reflexivity.
Qed.

Lemma deleted_true answer : deleted answer = true <-> answer = Responds 204.
Proof.
  destruct answer as [status|e]; simpl.
  - rewrite Z.eqb_eq. split; [intros ->; reflexivity|intros [= ->]; reflexivity].
  - split; discriminate.
Qed.

Lemma delete_repository_eq (w : World) (self : GitHubClient) owner repo_name h :
  delete_repository w self owner repo_name h =
  if interrupt_due w h then (Raise KeyboardInterrupt, [EvInterrupt])
  else (Return (deleted (api_delete w h (repo_url owner repo_name))),
        [EvDelete (headers (session self)) (repo_url owner repo_name)
                  (api_delete w h (repo_url owner repo_name))]).
Proof.
  unfold delete_repository, try_except, bind, session_delete, perform.
  destruct (interrupt_due w h); [reflexivity|].
  destruct (api_delete w h (repo_url owner repo_name)); reflexivity.
Qed.

(** C7: [delete_repository] returns [True] exactly when the answer to its
    request is the status 204; for any other status and for a transport
    failure it returns [False]. It returns for every answer, raising
    nothing of its own: only the user's interrupt, which is no answer to
    the request, passes through it. *)
Theorem delete_repository_true_iff_204 (w : World) (self : GitHubClient)
    (owner repo_name : string) (h : Trace) :
  delete_repository w self owner repo_name h =
    (if interrupt_due w h then (Raise KeyboardInterrupt, [EvInterrupt])
     else (Return (deleted (api_delete w h (repo_url owner repo_name))),
           [EvDelete (headers (session self)) (repo_url owner repo_name)
                     (api_delete w h (repo_url owner repo_name))])) /\
  (forall answer, deleted answer = true <-> answer = Responds 204) /\
  (forall status, status <> 204 -> deleted (Responds status) = false) /\
  (forall e, deleted (Fails e) = false).
Proof.
  split; [apply delete_repository_eq|]. split; [exact deleted_true|].
  split; [|reflexivity]. intros status Hne. simpl. apply Z.eqb_neq, Hne.
Qed.
(** ** The workflow: the interrupt *)

Section Interrupt.
Variable w : World.

Lemma pending_step h ev : pending w h -> interrupt_due w h = false -> pending w (h ++ [ev]).
Proof.
  unfold pending, interrupt_due. intros Hp Hdue k Hk. specialize (Hp k Hk).
  rewrite Hk in Hdue. apply Nat.eqb_neq in Hdue. rewrite length_app. simpl. lia.
Qed.

Lemma pending_nil : pending w [].
Proof. intros k _. simpl. lia. Qed.

(** What [os.system] does, case by case. *)
Lemma system_eq command h :
  system w command h =
  if interrupt_due w h then
    if interrupt_in_command w then
      if String.eqb (os_name w) "nt"
      then (Raise KeyboardInterrupt, [EvSystem command; EvInterrupt])
      else (Return tt, [EvSystem command])
    else (Raise KeyboardInterrupt, [EvInterrupt])
  else (Return tt, [EvSystem command]).
Proof. reflexivity. Qed.

(** Whatever the interrupt does, a command adds no other events than
    itself and the interrupt. *)
Lemma system_events command h :
  Forall (fun ev => ev = EvSystem command \/ ev = EvInterrupt) (system w command h).2.
Proof.
  rewrite system_eq.
  repeat case_match; cbn [snd];
    repeat first [apply Forall_nil_2|apply Forall_cons_2; [auto|]].
Qed.

(** A command returns, or is ended by the interrupt. *)
Lemma system_outcome command h :
  (system w command h).1 = Return tt \/ (system w command h).1 = Raise KeyboardInterrupt.
Proof. rewrite system_eq. repeat case_match; cbn [fst]; auto. Qed.
End Interrupt.

(** ** The workflow: what each part adds to the trace *)

Create HintDb emits.

Lemma calm_mild ev : calm ev -> mild ev.
Proof. intros (? & ? & ?). split; assumption. Qed.

Lemma calm_interrupt : calm EvInterrupt.
Proof. repeat split. Qed.

Lemma mild_interrupt : mild EvInterrupt.
Proof. repeat split. Qed.

#[local] Hint Resolve calm_interrupt mild_interrupt : emits.

Section Emits.
Variable w : World.
Variable C : Event -> Prop.

Lemma emits_for_each {A} (l : list A) (body : A -> M unit) :
  (forall x, emits C (body x)) -> emits C (for_each l body).
Proof.
  intros Hbody. induction l as [|x l IH]; cbn [for_each].
  - apply emits_ret.
  - apply emits_bind; auto.
Qed.

Lemma emits_getitem {A} (l : list A) i : emits C (getitem l i).
Proof.
  unfold getitem. cbv zeta.
  destruct (_ && _); [|apply emits_raise].
  destruct (l !! _); [apply emits_ret|apply emits_raise].
Qed.

Lemma emits_comprehension {A B} (f : A -> M B) (l : list A) :
  (forall x, emits C (f x)) -> emits C (comprehension f l).
Proof.
  intros Hf. induction l as [|x l IH]; cbn [comprehension].
  - apply emits_ret.
  - apply emits_bind; [apply Hf|]. intros y.
    apply emits_bind; [apply IH|]. intros ys. apply emits_ret.
Qed.

Lemma emits_diverges {A} : emits C (fun _ => (@Diverges A, [])).
Proof. intros h. constructor. Qed.

Lemma emits_system command :
  C (EvSystem command) -> C EvInterrupt -> emits C (system w command).
Proof.
  intros Hc Hi h. eapply Forall_impl; [apply system_events|].
  intros ev [-> | ->]; assumption.
Qed.
End Emits.

#[local] Hint Resolve emits_ret emits_raise emits_getitem emits_diverges : emits.
#[local] Hint Extern 1 (emits _ (sys_exit _)) => apply emits_raise : emits.
#[local] Hint Extern 1 (emits _ (perform _ _)) =>
  apply emits_perform; [auto with emits|intros ?; cbn [fst snd]; repeat split] : emits.

Ltac emits_step :=
  lazymatch goal with
  | |- emits _ (bind _ _) => apply emits_bind; [|intros ?]
  | |- emits _ (try_except _ _) =>
      apply emits_try_except; [|intros [] ? [= <-]]
  | |- emits _ (finally _ _) => apply emits_finally
  | |- emits _ (for_each _ _) => apply emits_for_each; intros ?
  | |- emits _ (comprehension _ _) => apply emits_comprehension; intros ?
  | |- emits _ (match ?x with _ => _ end) => destruct x
  | |- emits _ (let _ := _ in _) => cbv zeta
  | |- _ => solve [auto with emits]
  end.

Section EmitsProgram.
Variable w : World.

Lemma calm_print_end text end_ : emits calm (print_end w text end_).
Proof. unfold print_end. emits_step. Qed.

Lemma calm_print text : emits calm (print w text).
Proof. apply calm_print_end. Qed.

Lemma calm_getenv var : emits calm (getenv w var).
Proof. unfold getenv. emits_step. Qed.

Lemma calm_getpass prompt : emits calm (getpass w prompt).
Proof. unfold getpass. emits_step. Qed.

Lemma calm_clear_screen : emits calm (clear_screen w).
Proof. unfold clear_screen. apply emits_system; repeat split. Qed.

Lemma calm_session_close s : emits calm (session_close w s).
Proof. unfold session_close. emits_step. Qed.

Lemma mild_session_delete s url : emits mild (session_delete w s url).
Proof. unfold session_delete. emits_step. Qed.

Lemma mild_of_calm {A} (m : M A) : emits calm m -> emits mild m.
Proof. apply emits_weaken, calm_mild. Qed.
End EmitsProgram.

#[local] Hint Resolve calm_print_end calm_print calm_getenv calm_getpass calm_clear_screen
  calm_session_close mild_session_delete : emits.
#[local] Hint Extern 2 (emits mild _) => apply mild_of_calm; solve [auto with emits] : emits.

Section EmitsWorkflow.
Variable w : World.

Lemma calm_display_repositories repos : emits calm (display_repositories w repos).
Proof. unfold display_repositories. repeat emits_step. Qed.

Lemma mild_delete_repository self owner repo_name :
  emits mild (delete_repository w self owner repo_name).
Proof. unfold delete_repository. repeat emits_step. Qed.

Lemma mild_delete_selected client selected_repos success_count :
  emits mild (delete_selected w client selected_repos success_count).
Proof.
  revert success_count.
  induction selected_repos as [|repo rest IH]; intros success_count; cbn [delete_selected].
  - apply emits_ret.
  - cbv zeta. emits_step; [emits_step|].
    emits_step; [apply mild_delete_repository|].
    emits_step; [repeat emits_step|apply IH].
Qed.
End EmitsWorkflow.

#[local] Hint Resolve calm_display_repositories mild_delete_repository
  mild_delete_selected : emits.

(** ** The workflow: no delete request before the guards *)

Section Observations.
Variable mc : Py.Machine.
Implicit Types (h e : Trace) (ev : Event).

Lemma get_answers_app h e : get_answers (h ++ e) = get_answers h ++ get_answers e.
Proof. apply omap_app. Qed.

Lemma lines_read_app h e : lines_read (h ++ e) = lines_read h ++ lines_read e.
Proof. apply omap_app. Qed.

Lemma delete_calls_app h e : delete_calls (h ++ e) = delete_calls h ++ delete_calls e.
Proof. apply omap_app. Qed.

Lemma obs_calm h ev : calm ev -> obs (h ++ [ev]) = obs h.
Proof.
  intros (Hg & Hi & Hd). unfold obs.
  rewrite get_answers_app, lines_read_app, delete_calls_app.
  destruct ev; try discriminate; cbn; rewrite ?app_nil_r; reflexivity.
Qed.

Lemma get_answers_mild h e : Forall mild e -> get_answers (h ++ e) = get_answers h.
Proof.
  intros He. rewrite get_answers_app.
  induction He as [|ev e [Hg _] _ IH]; [apply app_nil_r|].
  destruct ev; try discriminate; exact IH.
Qed.

Lemma lines_read_mild h e : Forall mild e -> lines_read (h ++ e) = lines_read h.
Proof.
  intros He. rewrite lines_read_app.
  induction He as [|ev e [_ Hi] _ IH]; [apply app_nil_r|].
  destruct ev; try discriminate; exact IH.
Qed.

Lemma delete_calls_calm h ev : calm ev -> delete_calls (h ++ [ev]) = delete_calls h.
Proof. intros Hc. pose proof (obs_calm h ev Hc) as E. unfold obs in E. congruence. Qed.

Lemma guards_passed_mild h e : Forall mild e -> guards_passed mc h -> guards_passed mc (h ++ e).
Proof.
  intros He (repos & sel & conf & indices & Hl & Hlines & Hrest).
  exists repos, sel, conf, indices. unfold listing_of in *.
  rewrite get_answers_mild, lines_read_mild by assumption. auto.
Qed.

Lemma after_guards_mild h ev : mild ev -> after_guards mc h -> after_guards mc (h ++ [ev]).
Proof.
  intros Hm (pre & post & -> & Hpre & Hg & Hpost).
  exists pre, (post ++ [ev]). rewrite app_assoc. repeat split; try assumption.
  apply Forall_app. split; [assumption|]. repeat constructor; apply Hm.
Qed.

Lemma guarded_calm h ev : calm ev -> guarded mc h -> guarded mc (h ++ [ev]).
Proof.
  intros Hc [Hd|Ha].
  - left. rewrite delete_calls_calm; assumption.
  - right. apply after_guards_mild; [apply calm_mild, Hc|assumption].
Qed.

Lemma after_guards_start h : delete_calls h = [] -> guards_passed mc h -> after_guards mc h.
Proof. intros Hd Hg. exists h, []. rewrite app_nil_r. auto. Qed.

Lemma before_deletes_calm answers lines h ev :
  calm ev -> before_deletes answers lines h -> before_deletes answers lines (h ++ [ev]).
Proof. unfold before_deletes. intros Hc <-. apply obs_calm, Hc. Qed.

Lemma before_deletes_guarded answers lines h : before_deletes answers lines h -> guarded mc h.
Proof. unfold before_deletes, obs. intros [= _ _ Hd]. left. exact Hd. Qed.

Lemma before_deletes_none answers lines h :
  before_deletes answers lines h -> delete_calls h = [].
Proof. unfold before_deletes, obs. by intros [= _ _ Hd]. Qed.
End Observations.

Section Stages.
Variable w : World.

Lemma hoare_calm {A} (m : M A) answers lines :
  emits calm m ->
  hoare (before_deletes answers lines) m (stage (fun _ => before_deletes answers lines)).
Proof.
  intros Hm. eapply hoare_consequence;
    [apply (hoare_emits calm m (before_deletes answers lines) Hm)| |].
  - intros h ev. apply before_deletes_calm.
  - auto.
  - intros [a| |] h Hb; cbn; eauto using before_deletes_none.
Qed.

Lemma hoare_calm_none {A} (m : M A) (Q : Result A -> Trace -> Prop) :
  emits calm m ->
  (forall r h, delete_calls h = [] -> Q r h) ->
  hoare (fun h => delete_calls h = []) m Q.
Proof.
  intros Hm HQ. eapply hoare_consequence;
    [apply (hoare_emits calm m (fun h => delete_calls h = []) Hm)| |].
  - intros h ev Hc Hd. rewrite delete_calls_calm; assumption.
  - auto.
  - cbv beta. auto.
Qed.

Lemma hoare_calm_guarded {A} (m : M A) :
  emits calm m -> hoare (guarded (machine w)) m (fun _ h => guarded (machine w) h).
Proof. intros Hm. apply (hoare_emits calm m (guarded (machine w)) Hm). intros h ev. apply guarded_calm. Qed.

Lemma hoare_mild_after_guards {A} (m : M A) :
  emits mild m -> hoare (after_guards (machine w)) m (fun _ h => after_guards (machine w) h).
Proof.
  intros Hm. apply (hoare_emits mild m (after_guards (machine w)) Hm).
  intros h ev. apply after_guards_mild.
Qed.

(** Sequencing a step before the deletions with what follows it. *)
Lemma hoare_bind_stage {A B} P (S : A -> Trace -> Prop) (Q : Result B -> Trace -> Prop)
    (m : M A) (f : A -> M B) :
  hoare P m (stage S) ->
  (forall a, hoare (S a) (f a) Q) ->
  (forall r h, (forall b, r <> Return b) -> delete_calls h = [] -> Q r h) ->
  hoare P (bind m f) Q.
Proof.
  intros Hm Hf HQ. eapply hoare_bind; [exact Hm|exact Hf| |]; cbn; intros; apply HQ;
    auto; discriminate.
Qed.

Lemma stage_no_return {A} (S : A -> Trace -> Prop) (r : Result A) h :
  (forall a, r <> Return a) -> delete_calls h = [] -> stage S r h.
Proof. intros Hr Hd. destruct r; [by destruct (Hr a)|exact Hd..]. Qed.

Lemma guarded_no_return {A} (r : Result A) h :
  (forall a, r <> Return a) -> delete_calls h = [] -> guarded (machine w) h.
Proof. intros _ Hd. left. exact Hd. Qed.

Lemma hoare_input prompt answers lines :
  hoare (before_deletes answers lines) (input w prompt)
        (stage (fun line => before_deletes answers (lines ++ [line]))).
Proof.
  apply hoare_perform; intros h Hb Hdue.
  - cbn. rewrite delete_calls_calm by apply calm_interrupt.
    eapply before_deletes_none, Hb.
  - cbn [fst snd]. unfold before_deletes, obs in *. injection Hb as Hg Hl Hd.
    destruct (nth_error (stdin w) (inputs_read h)) as [line|]; cbn [of_line stage];
      rewrite ?get_answers_app, ?lines_read_app, ?delete_calls_app, ?Hg, ?Hl, ?Hd;
      cbn; rewrite ?app_nil_r; reflexivity.
Qed.

Lemma get_repositories_turn_cases self repos page h :
  get_repositories_turn w self repos page h =
  if interrupt_due w h then (Raise KeyboardInterrupt, [EvInterrupt])
  else
    (match api_get w (repos_url page 100) with
     | Responds response =>
         if negb (status_code response =? 200) then
           Raise (GitHubError (fetch_error_msg response))
         else if json_data response is [] then Return Break
         else Return (Next (repos ++ json_data response) (page + 1))
     | Fails e => Raise (GitHubError ("Connection error: " +:+ e))
     end, [page_request w self page]).
Proof.
  destruct (interrupt_due w h) eqn:Hdue; [|apply get_repositories_turn_eq, Hdue].
  unfold get_repositories_turn, try_except, bind, session_get, perform.
  rewrite Hdue. reflexivity.
Qed.

Lemma mapM_page_of_snoc answers pages answer data :
  mapM page_of answers = Some pages -> page_of answer = Some data ->
  mapM page_of (answers ++ [answer]) = Some (pages ++ [data]).
Proof.
  rewrite !mapM_Some. intros H1 H2. apply Forall2_app; [assumption|].
  repeat constructor. assumption.
Qed.

Lemma concat_snoc {A} (ls : list (list A)) l : concat (ls ++ [l]) = concat ls ++ l.
Proof. rewrite concat_app. simpl. rewrite app_nil_r. reflexivity. Qed.

Lemma hoare_get_repositories_from self fuel lines :
  forall repos page answers pages,
    mapM page_of answers = Some pages -> concat pages = repos ->
    hoare (before_deletes answers lines) (get_repositories_from w self fuel repos page)
          (stage (fun repos' h =>
                    exists answers', before_deletes answers' lines h /\
                                     listing answers' = Some repos')).
Proof.
  induction fuel as [|fuel IH]; intros repos page answers pages Hpages Hrepos;
    cbn [get_repositories_from].
  - intros h Hb. cbn. rewrite app_nil_r. eapply before_deletes_none, Hb.
  - eapply hoare_bind_stage with
      (S := fun turn h =>
              exists answers' pages',
                before_deletes answers' lines h /\
                mapM page_of answers' = Some pages' /\
                match turn with
                | Break => last pages' = Some [] /\ concat pages' = repos
                | Next repos' _ => concat pages' = repos'
                end).
    + intros h Hb. rewrite get_repositories_turn_cases.
      destruct (interrupt_due w h).
      { cbn. rewrite delete_calls_calm by apply calm_interrupt.
        eapply before_deletes_none, Hb. }
      cbn [fst snd].
      assert (forall answer,
                api_get w (repos_url page 100) = answer ->
                before_deletes (answers ++ [answer]) lines (h ++ [page_request w self page]))
        as Hstep.
      { intros answer Hanswer. unfold before_deletes, obs, page_request in *.
        injection Hb as Hg Hl Hd.
        rewrite get_answers_app, lines_read_app, delete_calls_app, Hg, Hl, Hd, Hanswer.
        cbn. rewrite app_nil_r. reflexivity. }
      destruct (api_get w (repos_url page 100)) as [response|e] eqn:Hget;
        [|cbn; eapply before_deletes_none, Hstep; reflexivity].
      destruct (Z.eqb_spec (status_code response) 200) as [Hstatus|Hstatus]; cbn [negb];
        [|cbn; eapply before_deletes_none, Hstep; reflexivity].
      assert (page_of (Responds response) = Some (json_data response)) as Hpage
        by (apply page_of_Some; eauto).
      pose proof (mapM_page_of_snoc _ _ _ _ Hpages Hpage) as Hpages'.
      destruct (json_data response) as [|d ds] eqn:Hdata; cbn [stage].
      * eexists _, _. split; [apply Hstep; reflexivity|]. split; [exact Hpages'|].
        split; [apply last_snoc|]. rewrite concat_snoc, app_nil_r. exact Hrepos.
      * eexists _, _. split; [apply Hstep; reflexivity|]. split; [exact Hpages'|].
        rewrite concat_snoc. congruence.
    + intros [|repos' page'].
      * apply hoare_ret. intros h (answers' & pages' & Hb & Hp & Hlast & Hc).
        exists answers'. split; [assumption|]. unfold listing. rewrite Hp, Hlast, Hc.
        reflexivity.
      * intros h (answers' & pages' & Hb & Hp & Hc).
        exact (IH repos' page' answers' pages' Hp Hc h Hb).
    + intros r h. apply stage_no_return.
Qed.

Lemma hoare_get_repositories self fuel lines :
  hoare (before_deletes [] lines) (get_repositories w self fuel)
        (stage (fun repos h =>
                  exists answers, before_deletes answers lines h /\
                                  listing answers = Some repos)).
Proof. apply (hoare_get_repositories_from self fuel lines [] 1 [] []); reflexivity. Qed.

Lemma hoare_confirm_deletion repos_to_delete answers lines :
  hoare (before_deletes answers lines) (confirm_deletion w repos_to_delete)
        (stage (fun confirmed h =>
                  exists confirm,
                    before_deletes answers (lines ++ [confirm]) h /\
                    confirmed = String.eqb (Py.strip confirm) "DELETE")).
Proof.
  unfold confirm_deletion.
  do 3 (eapply hoare_bind_stage;
        [apply hoare_calm; repeat emits_step|intros ?|intros r h; apply stage_no_return]).
  eapply hoare_bind_stage; [apply hoare_input| |intros r h; apply stage_no_return].
  intros confirm. apply hoare_ret. intros h Hb. exists confirm. auto.
Qed.
End Stages.

Section Guards.
Variable w : World.

Lemma hoare_pre_exists {A X} (P : X -> Trace -> Prop) (m : M A) Q :
  (forall x, hoare (P x) m Q) -> hoare (fun h => exists x, P x h) m Q.
Proof. intros H h [x Hx]. exact (H x h Hx). Qed.

Lemma hoare_pre_pure {A} (P : Trace -> Prop) (fact : Prop) (m : M A) Q :
  (fact -> hoare P m Q) -> hoare (fun h => P h /\ fact) m Q.
Proof. intros H h [Hp Hf]. exact (H Hf h Hp). Qed.

Lemma hoare_calm_keep {A} (m : M A) :
  emits calm m ->
  hoare (fun h => delete_calls h = []) m (fun _ h => delete_calls h = []).
Proof.
  intros Hm. apply (hoare_emits calm m (fun h => delete_calls h = []) Hm).
  intros h ev Hc Hd. rewrite delete_calls_calm; assumption.
Qed.

(** A last step before the deletions. *)
Lemma hoare_calm_end {A} (m : M A) answers lines :
  emits calm m -> hoare (before_deletes answers lines) m (fun _ h => guarded (machine w) h).
Proof.
  intros Hm. eapply hoare_consequence; [apply (hoare_calm m answers lines Hm)|auto|].
  intros [a|x|] h Hs; cbn in Hs; [eapply before_deletes_guarded, Hs|left; exact Hs..].
Qed.

Lemma hoare_mild_end {A} (m : M A) :
  emits mild m -> hoare (after_guards (machine w)) m (fun _ h => guarded (machine w) h).
Proof.
  intros Hm. eapply hoare_consequence; [apply (hoare_mild_after_guards w m Hm)|auto|].
  intros r h Ha. right. exact Ha.
Qed.

Lemma hoare_fetch client fuel :
  hoare (before_deletes [] [])
    (try_except
       (bind (print w (nl +:+ "Fetching your repositories..."))
          (fun _ => bind (get_repositories w client fuel) (fun repos => ret (Some repos))))
       (fun e => match e with
                 | GitHubError e => Some (bind (print w ("Error: " +:+ e)) (fun _ => ret None))
                 | _ => None
                 end))
    (stage fetched_state).
Proof.
  eapply hoare_try_except with (R := stage fetched_state).
  - eapply hoare_bind_stage;
      [apply hoare_calm; auto with emits|intros ?|intros r h; apply stage_no_return].
    eapply hoare_bind_stage;
      [apply hoare_get_repositories| |intros r h; apply stage_no_return].
    intros repos. apply hoare_ret. intros h Hh. exact Hh.
  - auto.
  - auto.
  - intros []; cbn [stage]; auto.
    eapply hoare_bind; [apply hoare_calm_keep; auto with emits| | |]; cbn; auto.
    intros _. apply hoare_ret. auto.
Qed.

Lemma guards_passed_here answers repos input_str confirm indices h :
  before_deletes answers [input_str; confirm] h ->
  listing answers = Some repos ->
  parse_indices (machine w) input_str (Z.of_nat (length repos)) = Return (Some indices) ->
  indices <> [] ->
  String.eqb (Py.strip confirm) "DELETE" = true ->
  after_guards (machine w) h.
Proof.
  unfold before_deletes, obs. intros [= Hg Hl Hd] Hlisting Hparse Hne Hconfirm.
  apply after_guards_start; [assumption|].
  exists repos, input_str, confirm, indices. unfold listing_of. rewrite Hg.
  apply String.eqb_eq in Hconfirm. auto.
Qed.

Lemma hoare_main_with client fuel :
  hoare (before_deletes [] []) (main_with w client fuel) (fun _ h => guarded (machine w) h).
Proof.
  unfold main_with.
  eapply hoare_bind_stage; [apply hoare_fetch| |intros r h; apply guarded_no_return].
  intros [repos|]; [|apply hoare_ret; intros h Hd; left; exact Hd].
  unfold fetched_state. apply hoare_pre_exists. intros answers. apply hoare_pre_pure. intros Hlisting.
  eapply hoare_bind_stage;
    [apply hoare_calm; auto with emits|intros ?|intros r h; apply guarded_no_return].
  destruct repos as [|repo repos]; [apply hoare_calm_end; auto with emits|].
  do 4 (eapply hoare_bind_stage;
        [apply hoare_calm; auto with emits|intros ?|intros r h; apply guarded_no_return]).
  eapply hoare_bind_stage; [apply hoare_input| |intros r h; apply guarded_no_return].
  intros input_str. cbn [app].
  destruct (parse_indices (machine w) input_str _) as [[[|i indices]|]|e|] eqn:Hparse;
    [apply hoare_calm_end; auto with emits| |apply hoare_calm_end; auto with emits..].
  eapply hoare_bind_stage;
    [apply hoare_calm; repeat emits_step|intros selected_repos
    |intros r h; apply guarded_no_return].
  eapply hoare_bind_stage;
    [apply hoare_calm; auto with emits|intros ?|intros r h; apply guarded_no_return].
  eapply hoare_bind_stage;
    [apply hoare_confirm_deletion| |intros r h; apply guarded_no_return].
  intros confirmed. apply hoare_pre_exists. intros confirm. cbn [app].
  apply hoare_pre_pure. intros ->.
  destruct (String.eqb (Py.strip confirm) "DELETE") eqn:Hconfirm; cbn [negb];
    [|apply hoare_calm_end; auto with emits].
  eapply hoare_consequence; [apply hoare_mild_end| |auto].
  - repeat emits_step.
  - intros h Hb. eapply guards_passed_here; eauto; discriminate.
Qed.

Lemma hoare_main fuel :
  hoare (before_deletes [] []) (main w fuel) (fun _ h => guarded (machine w) h).
Proof.
  unfold main.
  do 5 (eapply hoare_bind_stage;
        [apply hoare_calm; auto with emits|intros ?|intros r h; apply guarded_no_return]).
  eapply hoare_bind_stage;
    [apply hoare_calm; repeat emits_step|intros token|intros r h; apply guarded_no_return].
  destruct (String.eqb token ""); [apply hoare_calm_end; auto with emits|].
  eapply hoare_bind_stage;
    [apply hoare_calm; auto with emits|intros ?|intros r h; apply guarded_no_return].
  cbv zeta. eapply hoare_finally; [apply hoare_main_with|auto|].
  intros r _. eapply hoare_consequence;
    [apply (hoare_calm_guarded w); unfold GitHubClient_exit; auto with emits|auto|].
  intros [[]|x|] h Hg; exact Hg.
Qed.

Lemma run_guarded fuel : guarded (machine w) (run w fuel []).2.
Proof.
  assert (hoare (before_deletes [] []) (run w fuel) (fun _ h => guarded (machine w) h)) as H.
  { unfold run. eapply hoare_try_except; [apply hoare_main|auto|auto|].
    intros []; auto. apply (hoare_calm_guarded w). repeat emits_step. }
  exact (H [] eq_refl).
Qed.
End Guards.

Lemma listing_None_of_failed answers answer :
  answer ∈ answers -> page_of answer = None -> listing answers = None.
Proof.
  intros Hin Hnone. unfold listing.
  assert (mapM page_of answers = None) as ->; [|reflexivity].
  apply mapM_None, Exists_exists. eauto.
Qed.

Lemma after_guards_shows mc T :
  after_guards mc T ->
  exists repos input_str confirm indices,
    listing_of T = Some repos /\
    lines_read T = [input_str; confirm] /\
    parse_indices mc input_str (Z.of_nat (length repos)) = Return (Some indices) /\
    indices <> [] /\
    Py.strip confirm = "DELETE".
Proof.
  intros (pre & post & -> & _ & Hg & Hpost). exact (guards_passed_mild _ _ _ Hpost Hg).
Qed.

Lemma after_guards_prefix mc T pre ev post :
  after_guards mc T -> T = pre ++ ev :: post -> is_delete ev = true -> guards_passed mc pre.
Proof.
  intros (pre0 & post0 & -> & Hd & Hg & Hpost) Heq Hev.
  symmetry in Heq. apply app_eq_app in Heq as [l [[-> Hl]|[-> Hl]]].
  - apply guards_passed_mild; [|exact Hg].
    rewrite Hl in Hpost. apply Forall_app in Hpost as [Hpost _]. exact Hpost.
  - destruct l as [|ev' l].
    + rewrite app_nil_r in Hg. exact Hg.
    + injection Hl as <- _. rewrite delete_calls_app in Hd.
      apply app_eq_nil in Hd as [_ Hd]. destruct ev; discriminate.
Qed.

(** C1: in every run, whatever the world does and wherever it is
    interrupted, each delete request comes after all the guards: the trace
    before it shows a listing that succeeded, a selection line that parsed
    to a non-empty list, and a confirmation line that is [DELETE] once
    trimmed. A run in which the listing failed, the selection did not parse
    or selected nothing or ended in an exception, or the confirmation was
    anything else makes no delete request. *)
Theorem no_delete_before_guards (w : World) (fuel : nat) :
  (forall pre hdrs url answer post,
     (run w fuel []).2 = pre ++ EvDelete hdrs url answer :: post ->
     guards_passed (machine w) pre) /\
  (listing_of (run w fuel []).2 = None -> delete_calls (run w fuel []).2 = []) /\
  (forall answer,
     answer ∈ get_answers (run w fuel []).2 -> page_of answer = None ->
     delete_calls (run w fuel []).2 = []) /\
  (forall repos input_str rest,
     listing_of (run w fuel []).2 = Some repos ->
     lines_read (run w fuel []).2 = input_str :: rest ->
     parse_indices (machine w) input_str (Z.of_nat (length repos)) = Return None \/
     parse_indices (machine w) input_str (Z.of_nat (length repos)) = Return (Some []) ->
     delete_calls (run w fuel []).2 = []) /\
  (forall repos input_str rest e,
     listing_of (run w fuel []).2 = Some repos ->
     lines_read (run w fuel []).2 = input_str :: rest ->
     parse_indices (machine w) input_str (Z.of_nat (length repos)) = Raise e ->
     delete_calls (run w fuel []).2 = []) /\
  (forall input_str confirm rest,
     lines_read (run w fuel []).2 = input_str :: confirm :: rest ->
     Py.strip confirm <> "DELETE" ->
     delete_calls (run w fuel []).2 = []) /\
  Py.strip "delete" <> "DELETE" /\ Py.strip "Delete " <> "DELETE" /\
  Py.strip "  DELETE  " = "DELETE".
Proof.
  pose proof (run_guarded w fuel) as Hrun.
  assert (delete_calls (run w fuel []).2 <> [] ->
          after_guards (machine w) (run w fuel []).2) as Hafter
    by (destruct Hrun; [contradiction|auto]).
  assert (forall P : Prop, (after_guards (machine w) (run w fuel []).2 -> ~ P) -> P ->
                           delete_calls (run w fuel []).2 = []) as Hnot.
  { intros P HP Hp. destruct Hrun as [Hd|Ha]; [exact Hd|]. destruct (HP Ha Hp). }
  split; [|split; [|split; [|split; [|split; [|split]]]]].
  - intros pre hdrs url answer post Heq.
    eapply after_guards_prefix; [|exact Heq|reflexivity].
    apply Hafter. rewrite Heq, delete_calls_app. cbn. by destruct (delete_calls pre).
  - apply Hnot. intros (repos & _ & _ & _ & Hl & _)%after_guards_shows. congruence.
  - intros answer Hin Hnone. revert Hin. apply Hnot.
    intros (repos & _ & _ & _ & Hl & _)%after_guards_shows Hin.
    unfold listing_of in Hl. rewrite (listing_None_of_failed _ _ Hin Hnone) in Hl.
    discriminate.
  - intros repos input_str rest Hl Hlines Hparse. revert Hparse. apply Hnot.
    intros (repos' & sel & conf & indices & Hl' & Hlines' & Hparse' & Hne & _)%after_guards_shows.
    rewrite Hl in Hl'. injection Hl' as <-. rewrite Hlines in Hlines'.
    injection Hlines' as <- _. rewrite Hparse'. intros [|[= ->]]; [discriminate|].
    by apply Hne.
  - intros repos input_str rest e Hl Hlines. apply Hnot.
    intros (repos' & sel & conf & indices & Hl' & Hlines' & Hparse' & Hne & _)%after_guards_shows.
    rewrite Hl in Hl'. injection Hl' as <-. rewrite Hlines in Hlines'.
    injection Hlines' as <- _. rewrite Hparse'. discriminate.
  - intros input_str confirm rest Hlines. apply Hnot.
    intros (repos' & sel & conf & indices & _ & Hlines' & _ & _ & Hc)%after_guards_shows.
    rewrite Hlines in Hlines'. injection Hlines' as _ <- _. congruence.
  - by vm_compute.
Qed.

(** ** The workflow: an uninterrupted run that deletes *)

Lemma calm_tame ev : calm ev -> tame ev.
Proof. intros (? & ? & ?). split; assumption. Qed.

Lemma tame_interrupt : tame EvInterrupt.
Proof. repeat split. Qed.

#[local] Hint Resolve tame_interrupt : emits.

Lemma tame_of_calm {A} (m : M A) : emits calm m -> emits tame m.
Proof. apply emits_weaken, calm_tame. Qed.

#[local] Hint Extern 2 (emits tame _) => apply tame_of_calm; solve [auto with emits] : emits.

Lemma tame_get_repositories w self fuel : emits tame (get_repositories w self fuel).
Proof.
  unfold get_repositories. generalize (@nil Repository) 1.
  induction fuel as [|fuel IH]; intros repos page; cbn [get_repositories_from].
  - apply emits_diverges.
  - emits_step; [unfold get_repositories_turn, session_get; repeat emits_step|].
    destruct a; [apply emits_ret|apply IH].
Qed.

#[local] Hint Resolve tame_get_repositories : emits.

Lemma reading_tame n h ev : tame ev -> reading n h -> reading n (h ++ [ev]).
Proof.
  intros [Hi Hd] [Hn Hc]. unfold reading, inputs_read in *.
  rewrite List.filter_app, length_app, delete_calls_app, Hn, Hc.
  destruct ev; try discriminate; cbn; split; (lia || reflexivity).
Qed.

Section Yields.
Context {A B : Type}.

Lemma yields_ret (a : A) : yields (ret a) a.
Proof. intros h. reflexivity. Qed.

Lemma yields_bind (m : M A) (f : A -> M B) a b :
  yields m a -> yields (f a) b -> yields (bind m f) b.
Proof.
  intros Hm Hf h. unfold bind. specialize (Hm h).
  destruct (m h) as [r e1]. cbn in Hm. subst r.
  specialize (Hf (h ++ e1)). destruct (f a (h ++ e1)). exact Hf.
Qed.

Lemma yields_try_except (m : M A) handler a : yields m a -> yields (try_except m handler) a.
Proof.
  intros Hm h. unfold try_except. specialize (Hm h).
  destruct (m h) as [r e1]. cbn in Hm. subst r. reflexivity.
Qed.

Lemma hoare_yields C (m : M A) a (P : Trace -> Prop) :
  emits C m -> yields m a ->
  (forall h ev, C ev -> P h -> P (h ++ [ev])) ->
  hoare P m (fun r h => r = Return a /\ P h).
Proof.
  intros Hm Ha Hstable. apply hoare_conj.
  - intros h _. apply Ha.
  - exact (hoare_emits C m P Hm Hstable).
Qed.

Lemma hoare_bind_yields P (S : Trace -> Prop) (Q : Result B -> Trace -> Prop)
    (m : M A) (f : A -> M B) a :
  hoare P m (fun r h => r = Return a /\ S h) ->
  hoare S (f a) Q ->
  hoare P (bind m f) Q.
Proof.
  intros Hm Hf. eapply hoare_bind; [exact Hm| | |]; cbv beta.
  - intros a' h [[= ->] Hs]. exact (Hf h Hs).
  - intros x h [[=] _].
  - intros h [[=] _].
Qed.
End Yields.

Section Uninterrupted.
Variable w : World.
Hypothesis Hquiet : interrupt_at w = None.

Lemma perform_quiet {A} (act : Trace -> Result A * Event) h :
  perform w act h = ((act h).1, [(act h).2]).
Proof. apply perform_eq, interrupt_due_None, Hquiet. Qed.

Lemma yields_perform {A} (act : Trace -> Result A * Event) a :
  (forall h, (act h).1 = Return a) -> yields (perform w act) a.
Proof. intros Hact h. rewrite perform_quiet. apply Hact. Qed.

Lemma yields_print_end text end_ : yields (print_end w text end_) tt.
Proof. apply yields_perform. reflexivity. Qed.

Lemma yields_print text : yields (print w text) tt.
Proof. apply yields_print_end. Qed.

Lemma system_quiet command h : system w command h = (Return tt, [EvSystem command]).
Proof. rewrite system_eq, (interrupt_due_None w h Hquiet). reflexivity. Qed.

Lemma yields_clear_screen : yields (clear_screen w) tt.
Proof. intros h. unfold clear_screen. rewrite system_quiet. reflexivity. Qed.

Lemma yields_getenv var : yields (getenv w var) (environ w var).
Proof. apply yields_perform. reflexivity. Qed.

Lemma yields_for_each {A} (l : list A) (body : A -> M unit) :
  (forall x, yields (body x) tt) -> yields (for_each l body) tt.
Proof.
  intros Hbody. induction l as [|x l IH]; cbn [for_each].
  - apply yields_ret.
  - eapply yields_bind; [apply Hbody|apply IH].
Qed.

Lemma yields_display_repositories repos : yields (display_repositories w repos) tt.
Proof.
  unfold display_repositories. destruct repos; [apply yields_ret|].
  eapply yields_bind; [apply yields_print|].
  eapply yields_bind; [apply yields_print|].
  apply yields_for_each. intros row. apply yields_print.
Qed.

Lemma yields_token token :
  token_of w = Some token ->
  yields (match environ w "GITHUB_TOKEN" with
          | Some (String c s) => ret (String c s)
          | _ => getpass w "Enter your GitHub Personal Access Token: "
          end) token.
Proof.
  unfold token_of. intros Htoken.
  assert (getpass_line w = Some token ->
          yields (getpass w "Enter your GitHub Personal Access Token: ") token) as Hpass.
  { intros E. apply yields_perform. intros h. cbn. rewrite E. reflexivity. }
  destruct (environ w "GITHUB_TOKEN") as [[|c s]|]; auto.
  injection Htoken as <-. apply yields_ret.
Qed.

Lemma yields_fetch client fuel pages :
  serves w 1 pages ->
  page_of (api_get w (repos_url (1 + Z.of_nat (length pages)) 100)) = Some [] ->
  (length pages < fuel)%nat ->
  yields
    (try_except
       (bind (print w (nl +:+ "Fetching your repositories..."))
          (fun _ => bind (get_repositories w client fuel) (fun repos => ret (Some repos))))
       (fun e => match e with
                 | GitHubError e => Some (bind (print w ("Error: " +:+ e)) (fun _ => ret None))
                 | _ => None
                 end))
    (Some (concat pages)).
Proof.
  intros Hpages Hlast Hfuel. apply yields_try_except.
  eapply yields_bind; [apply yields_print|].
  eapply yields_bind; [|apply yields_ret].
  intros h. rewrite (get_repositories_served w client Hquiet fuel h pages) by assumption. reflexivity.
Qed.

Lemma getitem_in_range {A} (l : list A) i x :
  0 <= i -> l !! Z.to_nat i = Some x -> getitem l i = ret x.
Proof.
  intros Hi Hx. unfold getitem. cbv zeta.
  pose proof (lookup_lt_Some _ _ _ Hx) as Hlt.
  destruct (Z.ltb_spec i 0); [lia|].
  destruct (Z.leb_spec 0 i); [|lia].
  destruct (Z.ltb_spec i (Z.of_nat (length l))); [|lia].
  cbn [andb]. rewrite Hx. reflexivity.
Qed.

Lemma yields_selection {A} (l : list A) indices :
  Forall (fun i => 0 <= i <= Z.of_nat (length l) - 1) indices ->
  exists selected,
    yields (comprehension (getitem l) indices) selected /\
    Forall2 (fun i x => l !! Z.to_nat i = Some x) indices selected.
Proof.
  induction 1 as [|i indices Hi _ (selected & Hy & Hsel)].
  - exists []. split; [apply yields_ret|constructor].
  - destruct (lookup_lt_is_Some_2 l (Z.to_nat i)) as [x Hx]; [lia|].
    exists (x :: selected). split; [|constructor; assumption].
    cbn [comprehension]. rewrite (getitem_in_range l i x) by (lia || assumption).
    eapply yields_bind; [apply yields_ret|].
    eapply yields_bind; [exact Hy|apply yields_ret].
Qed.
End Uninterrupted.

Section UninterruptedRun.
Variable w : World.
Hypothesis Hquiet : interrupt_at w = None.

Lemma delete_calls_stable_calm d h ev :
  calm ev -> delete_calls h = d -> delete_calls (h ++ [ev]) = d.
Proof. intros Hc <-. apply delete_calls_calm, Hc. Qed.

Lemma hoare_delete_repository self owner repo_name d :
  hoare (fun h => delete_calls h = d) (delete_repository w self owner repo_name)
        (fun r h => exists answer,
                      r = Return (deleted answer) /\
                      delete_calls h = d ++ [(repo_url owner repo_name, answer)]).
Proof.
  intros h Hd. rewrite delete_repository_eq, (interrupt_due_None w h Hquiet).
  cbn [fst snd]. eexists. split; [reflexivity|].
  rewrite delete_calls_app, Hd. reflexivity.
Qed.

Lemma count_deleted_cons url answer calls :
  count_deleted ((url, answer) :: calls) =
  (if deleted answer then 1 else 0) + count_deleted calls.
Proof.
  unfold count_deleted. rewrite filter_cons. cbn [snd].
  destruct (deleted answer); [rewrite decide_True by reflexivity|rewrite decide_False by discriminate];
    cbn [length]; lia.
Qed.

Lemma hoare_delete_selected client selected_repos :
  forall success_count d,
    hoare (fun h => delete_calls h = d)
          (delete_selected w client selected_repos success_count)
          (fun r h => exists d',
                        delete_calls h = d ++ d' /\
                        d'.*1 = delete_url <$> selected_repos /\
                        r = Return (success_count + count_deleted d')).
Proof.
  induction selected_repos as [|repo rest IH]; intros success_count d; cbn [delete_selected].
  - apply hoare_ret. intros h Hd. exists []. rewrite app_nil_r.
    repeat split; [assumption|]. unfold count_deleted. cbn. f_equal. lia.
  - cbv zeta.
    eapply hoare_bind_yields;
      [apply (hoare_yields calm); [auto with emits|apply yields_print_end, Hquiet
                                   |intros h ev; apply delete_calls_stable_calm]|].
    eapply hoare_bind; [apply hoare_delete_repository| |intros x h [? [[=] _]]|intros h [? [[=] _]]].
    intros deleted_. apply hoare_pre_exists. intros answer.
    eapply hoare_consequence with
      (P' := fun h => delete_calls h = d ++ [(delete_url repo, answer)] /\
                      deleted_ = deleted answer);
      [|intros h [[= ->] Hd]; auto|intros r h Hq; exact Hq].
    apply hoare_pre_pure. intros ->.
    eapply hoare_bind_yields with
      (a := if deleted answer then success_count + 1 else success_count).
    + apply (hoare_yields calm); [|
        |intros h ev; apply delete_calls_stable_calm].
      * destruct (deleted answer); repeat emits_step.
      * destruct (deleted answer);
          (eapply yields_bind; [apply yields_print, Hquiet|apply yields_ret]).
    + eapply hoare_consequence; [apply IH|intros h Hd; exact Hd|]. cbv beta.
      intros r h (d' & Hd & Hurls & ->).
      exists ((delete_url repo, answer) :: d'). rewrite <- app_assoc in Hd.
      split; [exact Hd|]. split; [cbn; congruence|].
      rewrite count_deleted_cons. f_equal. destruct (deleted answer); lia.
Qed.

Lemma hoare_input_line prompt n line :
  nth_error (stdin w) n = Some line ->
  hoare (reading n) (input w prompt) (fun r h => r = Return line /\ reading (S n) h).
Proof.
  intros Hline. apply hoare_perform; intros h [Hn Hd] Hdue.
  - rewrite interrupt_due_None in Hdue by assumption. discriminate.
  - cbn [fst snd]. rewrite Hn, Hline. split; [reflexivity|].
    unfold reading, inputs_read in *.
    rewrite List.filter_app, length_app, delete_calls_app, Hn, Hd. cbn. split; [lia|reflexivity].
Qed.

Lemma hoare_confirm_line repos_to_delete n confirm :
  nth_error (stdin w) n = Some confirm ->
  hoare (reading n) (confirm_deletion w repos_to_delete)
        (fun r h => r = Return (String.eqb (Py.strip confirm) "DELETE") /\ reading (S n) h).
Proof.
  intros Hline. unfold confirm_deletion.
  do 2 (eapply hoare_bind_yields;
        [apply (hoare_yields tame);
         [auto with emits|apply yields_print, Hquiet|intros h ev; apply reading_tame]|]).
  eapply hoare_bind_yields;
    [apply (hoare_yields tame);
     [repeat emits_step
     |apply yields_for_each; intros repo; apply yields_print, Hquiet
     |intros h ev; apply reading_tame]|].
  eapply hoare_bind_yields; [apply hoare_input_line, Hline|].
  apply hoare_ret. auto.
Qed.
End UninterruptedRun.

Section DeletingRun.
Variable w : World.
Hypothesis Hquiet : interrupt_at w = None.

Lemma hoare_main_with_deletes client fuel pages input_str confirm rest indices :
  serves w 1 pages ->
  page_of (api_get w (repos_url (1 + Z.of_nat (length pages)) 100)) = Some [] ->
  (length pages < fuel)%nat ->
  stdin w = input_str :: confirm :: rest ->
  parse_indices (machine w) input_str (Z.of_nat (length (concat pages))) = Return (Some indices) ->
  indices <> [] ->
  Py.strip confirm = "DELETE" ->
  hoare (reading 0) (main_with w client fuel) (deleted_all (concat pages) indices []).
Proof.
  intros Hpages Hlast Hfuel Hstdin Hparse Hne Hconfirm.
  pose proof (parse_indices_range _ _ _ _ Hparse) as Hrange.
  destruct (yields_selection (concat pages) indices Hrange) as (selected & Hsel & Hlookup).
  assert (length selected = length indices) as Hlen
    by (symmetry; eapply Forall2_length, Hlookup).
  unfold main_with.
  eapply hoare_bind_yields;
    [apply (hoare_yields tame);
     [repeat emits_step|apply (yields_fetch w Hquiet client fuel pages); assumption
     |intros h ev; apply reading_tame]|].
  cbn beta iota.
  eapply hoare_bind_yields;
    [apply (hoare_yields tame);
     [auto with emits|apply yields_clear_screen, Hquiet|intros h ev; apply reading_tame]|].
  destruct (concat pages) as [|repo repos] eqn:Hrepos.
  { exfalso. destruct indices as [|i indices]; [congruence|].
    inversion Hrange; subst. cbn in *. lia. }
  rewrite <- Hrepos in *. clear repo repos Hrepos.
  eapply hoare_bind_yields;
    [apply (hoare_yields tame);
     [auto with emits|apply yields_print, Hquiet|intros h ev; apply reading_tame]|].
  eapply hoare_bind_yields;
    [apply (hoare_yields tame);
     [auto with emits|apply yields_display_repositories, Hquiet
     |intros h ev; apply reading_tame]|].
  do 2 (eapply hoare_bind_yields;
        [apply (hoare_yields tame);
         [auto with emits|apply yields_print, Hquiet|intros h ev; apply reading_tame]|]).
  eapply hoare_bind_yields;
    [apply (hoare_input_line w Hquiet _ 0%nat input_str); rewrite Hstdin; reflexivity|].
  rewrite Hparse. destruct indices as [|i indices]; [congruence|].
  eapply hoare_bind_yields;
    [apply (hoare_yields tame);
     [repeat emits_step|exact Hsel|intros h ev; apply reading_tame]|].
  eapply hoare_bind_yields;
    [apply (hoare_yields tame);
     [auto with emits|apply yields_clear_screen, Hquiet|intros h ev; apply reading_tame]|].
  eapply hoare_bind_yields;
    [apply (hoare_confirm_line w Hquiet _ 1%nat confirm); rewrite Hstdin; reflexivity|].
  rewrite Hconfirm. cbn [String.eqb Ascii.eqb Bool.eqb negb andb].
  change (negb ("DELETE" =? "DELETE")%string) with false. cbn iota.
  eapply hoare_bind_yields;
    [apply (hoare_yields tame);
     [auto with emits|apply yields_print, Hquiet|intros h ev; apply reading_tame]|].
  eapply hoare_bind;
    [eapply hoare_consequence;
     [apply (hoare_delete_selected w Hquiet client selected 0 [])
     |intros h [_ Hd]; exact Hd|intros r h Hq; exact Hq]
    | |intros x h (? & _ & _ & [=])|intros h (? & _ & _ & [=])].
  intros success_count. apply hoare_pre_exists. intros d'.
  apply hoare_perform; intros h (Hd & Hurls & [= ->]) Hdue;
    [rewrite interrupt_due_None in Hdue by assumption; discriminate|].
  cbn [fst snd]. split; [reflexivity|].
  exists h, selected. split; [|split; [exact Hlookup|rewrite Hd; exact Hurls]].
  unfold successes, report. rewrite Hd, Hlen. cbn [app]. rewrite Z.add_0_l. reflexivity.
Qed.

Lemma hoare_main_deletes fuel token pages input_str confirm rest indices :
  token_of w = Some token -> token <> "" ->
  serves w 1 pages ->
  page_of (api_get w (repos_url (1 + Z.of_nat (length pages)) 100)) = Some [] ->
  (length pages < fuel)%nat ->
  stdin w = input_str :: confirm :: rest ->
  parse_indices (machine w) input_str (Z.of_nat (length (concat pages))) = Return (Some indices) ->
  indices <> [] ->
  Py.strip confirm = "DELETE" ->
  hoare (reading 0) (main w fuel) (deleted_all (concat pages) indices [EvClose]).
Proof.
  intros Htoken Hnonempty Hpages Hlast Hfuel Hstdin Hparse Hne Hconfirm.
  unfold main.
  do 4 (eapply hoare_bind_yields;
        [apply (hoare_yields tame);
         [auto with emits|apply yields_print, Hquiet|intros h ev; apply reading_tame]|]).
  eapply hoare_bind_yields;
    [apply (hoare_yields tame);
     [auto with emits|apply yields_getenv, Hquiet|intros h ev; apply reading_tame]|].
  eapply hoare_bind_yields;
    [apply (hoare_yields tame);
     [repeat emits_step|apply yields_token; eassumption|intros h ev; apply reading_tame]|].
  apply String.eqb_neq in Hnonempty as ->.
  eapply hoare_bind_yields;
    [apply (hoare_yields tame);
     [auto with emits|apply yields_clear_screen, Hquiet|intros h ev; apply reading_tame]|].
  cbv zeta. eapply hoare_finally; [eapply hoare_main_with_deletes; eassumption| |].
  - intros h [[=] _].
  - intros r _. apply hoare_perform; intros h (-> & T & selected & -> & Hsel & Hurls) Hdue;
      [rewrite interrupt_due_None in Hdue by assumption; discriminate|].
    cbn [fst snd]. split; [reflexivity|]. exists T, selected.
    rewrite <- app_assoc. auto.
Qed.

Lemma run_deletes fuel token pages input_str confirm rest indices :
  token_of w = Some token -> token <> "" ->
  serves w 1 pages ->
  page_of (api_get w (repos_url (1 + Z.of_nat (length pages)) 100)) = Some [] ->
  (length pages < fuel)%nat ->
  stdin w = input_str :: confirm :: rest ->
  parse_indices (machine w) input_str (Z.of_nat (length (concat pages))) = Return (Some indices) ->
  indices <> [] ->
  Py.strip confirm = "DELETE" ->
  deleted_all (concat pages) indices [EvClose] (run w fuel []).1 (run w fuel []).2.
Proof.
  intros. assert (hoare (reading 0) (run w fuel)
                    (deleted_all (concat pages) indices [EvClose])) as Hrun.
  { unfold run. eapply hoare_try_except; [eapply hoare_main_deletes; eassumption|auto| |].
    - intros h [[=] _].
    - intros x. destruct x; intros h [[=] _]. }
  exact (Hrun [] (conj eq_refl eq_refl)).
Qed.
End DeletingRun.

(** C2: in an uninterrupted run whose listing succeeds, whose selection
    parses to a non-empty list and is confirmed, [main] makes exactly one
    delete request per selected repository, in the order of the indices
    and to the URL [https://api.github.com/repos/<owner>/<name>] of each,
    whatever each request is answered, and then prints the report
    [Operation completed. <successes>/<total> repositories deleted
    successfully.]: [successes] counts the requests answered 204 (those
    for which [delete_repository] returned [True]) and [total] is the
    number of selected repositories. *)
Theorem deletes_each_selected_once (w : World) (fuel : nat) (token : string)
    (pages : list Repositories) (input_str confirm : string) (rest : list string)
    (indices : list Z)
    (Hquiet : interrupt_at w = None)
    (Htoken : token_of w = Some token)
    (Hnonempty : token <> "")
    (Hpages : serves w 1 pages)
    (Hlast : page_of (api_get w (repos_url (1 + Z.of_nat (length pages)) 100)) = Some [])
    (Hfuel : (length pages < fuel)%nat)
    (Hstdin : stdin w = input_str :: confirm :: rest)
    (Hparse : parse_indices (machine w) input_str (Z.of_nat (length (concat pages)))
              = Return (Some indices))
    (Hselected : indices <> [])
    (Hconfirm : Py.strip confirm = "DELETE") :
  exists T selected_repos,
    run w fuel [] =
      (Return tt,
       T ++ [EvPrint ((nl +:+ "Operation completed. "
                         +:+ Py.str_of_int (successes T) +:+ "/"
                         +:+ Py.str_of_int (Z.of_nat (length indices))
                         +:+ " repositories deleted successfully.") +:+ nl);
             EvClose]) /\
    Forall2 (fun i repo => concat pages !! Z.to_nat i = Some repo) indices selected_repos /\
    (delete_calls T).*1 =
      (fun repo => "https://api.github.com/repos/" +:+ owner_login repo
                     +:+ "/" +:+ name repo) <$> selected_repos /\
    delete_calls (run w fuel []).2 = delete_calls T /\
    length (delete_calls T) = length indices /\
    successes T = Z.of_nat (length (filter (fun call => call.2 = Responds 204)
                                           (delete_calls T))).
Proof.
  destruct (run_deletes w Hquiet fuel token pages input_str confirm rest indices)
    as (Hr & T & selected & HT & Hsel & Hurls); try assumption.
  exists T, selected. split; [|split; [exact Hsel|split; [exact Hurls|]]].
  - destruct (run w fuel []) as [r T']. cbn [fst snd] in *. subst. reflexivity.
  - split; [rewrite HT, delete_calls_app; cbn; apply app_nil_r|]. split.
    + rewrite <- (length_fmap fst), Hurls, length_fmap. symmetry.
      eapply Forall2_length, Hsel.
    + unfold successes, count_deleted. f_equal. f_equal.
      apply list_filter_iff. intros [url answer]. cbn. apply deleted_true.
Qed.

(** ** Witnesses and examples *)


Lemma serves_ten_repos : serves example_world 1 [ten_repos].
Proof.
  intros [|i] data; simpl.
  - intros [= <-]. split; [discriminate|reflexivity].
  - destruct i; discriminate.
Qed.

Lemma serves_nothing w first : serves w first [].
Proof. intros i data. rewrite lookup_nil. discriminate. Qed.


Lemma get_repositories_aborts_on_failure_witness :
  get_repositories (with_api_get example_world (fun _ => Responds bad_credentials))
    test_client 1 [] =
    (Raise (GitHubError (fetch_error_msg bad_credentials)),
     page_request (with_api_get example_world (fun _ => Responds bad_credentials)) test_client
       <$> seqZ 1 (Z.of_nat (length (@nil Repositories)) + 1)) /\
  occurs_in "401" "Error fetching repositories: 401 - Bad credentials" /\
  occurs_in "Bad credentials" "Error fetching repositories: 401 - Bad credentials".
Proof.
  destruct (proj1 (get_repositories_aborts_on_failure
                     (with_api_get example_world (fun _ => Responds bad_credentials))
                     test_client 1 [] [] eq_refl (serves_nothing _ _) (Nat.lt_0_1))
              bad_credentials eq_refl ltac:(discriminate)) as (Hrun & Hstatus & Hmessage).
  split; [exact Hrun|]. split; [exact Hstatus|]. exact (Hmessage "Bad credentials" eq_refl).
Defined.

Lemma range_segment_inclusive_witness :
  segment_values "5-8" = Some (Py.range 5 (8 + 1)) /\
  (forall v, v ∈ Py.range 5 (8 + 1) <-> 5 <= v <= 8) /\
  (forall l, parse_indices example_machine "1,3,5-8" 10 = Return (Some l) ->
     forall v, 5 <= v <= 8 -> 1 <= v <= 10 -> (v - 1) ∈ l) /\
  (Py.split "," "1,3,5-8" = ["5-8"] ->
   8 - 5 + 1 <= Z.of_N (Py.maxsize example_machine) ->
   8 - 5 + 1 <= Z.of_N (Py.capacity example_machine) ->
     exists l, parse_indices example_machine "1,3,5-8" 10 = Return (Some l) /\
       forall i, i ∈ l <-> 5 <= i + 1 <= 8 /\ 1 <= i + 1 <= 10) /\
  (Py.split "," "1,3,5-8" = ["5-8"] -> Z.of_N (Py.maxsize example_machine) < 8 - 5 + 1 ->
     parse_indices example_machine "1,3,5-8" 10 = Raise OverflowError) /\
  (4 <= Z.of_N (Py.maxsize example_machine) -> 6 <= Z.of_N (Py.capacity example_machine) ->
     parse_indices example_machine "1,3,5-8" 10 = Return (Some [0; 2; 4; 5; 6; 7])) /\
  parse_indices example_machine "1,3,5-8" 10 = Return (Some [0; 2; 4; 5; 6; 7]) /\
  parse_indices example_machine "1-100000000000000000000" 10 = Raise OverflowError.
Proof.
  apply (range_segment_inclusive example_machine "1,3,5-8" "5-8" "5" "8" 5 8 10).
  - apply list_elem_of_In. simpl. tauto.
  - reflexivity.
  - reflexivity.
  - reflexivity.
Defined.

Lemma reversed_range_contributes_nothing_witness :
  segment_values "5-3" = Some [] /\
  (forall before after indices,
     parse_parts example_machine (before ++ "5-3" :: after) indices =
     parse_parts example_machine (before ++ after) indices) /\
  (forall s t N, Py.contains "," "5-3" = false ->
     parse_indices example_machine (s +:+ "," +:+ "5-3" +:+ "," +:+ t) N =
     parse_indices example_machine (s +:+ "," +:+ t) N) /\
  (forall N, Py.contains "," "5-3" = false ->
     parse_indices example_machine "5-3" N = Return (Some [])) /\
  parse_indices example_machine "5-3" 10 = Return (Some []).
Proof.
  apply (reversed_range_contributes_nothing example_machine "5-3" "5" "3" 5 3).
  - reflexivity.
  - reflexivity.
  - reflexivity.
  - lia.
Defined.

Lemma deletes_each_selected_once_witness :
  exists T selected_repos,
    run example_world 2 [] =
      (Return tt,
       T ++ [EvPrint ((nl +:+ "Operation completed. "
                         +:+ Py.str_of_int (successes T) +:+ "/"
                         +:+ Py.str_of_int (Z.of_nat (length [1; 3; 4; 5]))
                         +:+ " repositories deleted successfully.") +:+ nl);
             EvClose]) /\
    Forall2 (fun i repo => concat [ten_repos] !! Z.to_nat i = Some repo)
            [1; 3; 4; 5] selected_repos /\
    (delete_calls T).*1 =
      (fun repo => "https://api.github.com/repos/" +:+ owner_login repo
                     +:+ "/" +:+ name repo) <$> selected_repos /\
    delete_calls (run example_world 2 []).2 = delete_calls T /\
    length (delete_calls T) = length [1; 3; 4; 5] /\
    successes T = Z.of_nat (length (filter (fun call => call.2 = Responds 204)
                                           (delete_calls T))) /\
    successes T = 4 /\
    Py.str_of_int 4 +:+ "/" +:+ Py.str_of_int (Z.of_nat (length [1; 3; 4; 5]))
      +:+ " repositories deleted successfully." =
    "4/4 repositories deleted successfully.".
Proof.
  destruct (deletes_each_selected_once example_world 2 "secret" [ten_repos]
              "2,4-6" "DELETE" [] [1; 3; 4; 5])
    as (T & selected_repos & Hrun & Hselected & Hurls & Hcalls & Hlength & Hsuccesses);
    [..|exists T, selected_repos; repeat split; try assumption;
        unfold successes; rewrite <- Hcalls; reflexivity].
  - reflexivity.
  - reflexivity.
  - discriminate.
  - exact serves_ten_repos.
  - reflexivity.
  - simpl. lia.
  - reflexivity.
  - vm_compute. reflexivity.
  - discriminate.
  - reflexivity.
Defined.

(** The end-to-end run of the specification: ten repositories, the
    selection [2,4-6], the confirmation [DELETE], every delete answered 204. *)
Example end_to_end_tally :
  (run example_world 2 []).1 = Return tt /\
  last (printed (run example_world 2 []).2) =
    Some (nl +:+ "Operation completed. 4/4 repositories deleted successfully." +:+ nl) /\
  (delete_calls (run example_world 2 []).2).*1 =
    ["https://api.github.com/repos/octocat/repo2";
     "https://api.github.com/repos/octocat/repo4";
     "https://api.github.com/repos/octocat/repo5";
     "https://api.github.com/repos/octocat/repo6"] /\
  tally 4 4 = "4/4 repositories deleted successfully.".
Proof. by vm_compute. Qed.

(** A failed delete does not stop the batch. *)
Example partial_failure_tally :
  last (printed (run partial_world 2 []).2) =
    Some (nl +:+ "Operation completed. 3/4 repositories deleted successfully." +:+ nl) /\
  delete_calls (run partial_world 2 []).2 =
    [(repo_url "octocat" "repo2", Responds 204);
     (repo_url "octocat" "repo4", Responds 404);
     (repo_url "octocat" "repo5", Responds 204);
     (repo_url "octocat" "repo6", Responds 204)].
Proof. by vm_compute. Qed.

(** The uninterrupted run has 49 effects; an interrupt in place of any of
    them ends the run with the cancellation message and exit status 0,
    and so does one that comes while a command runs under Windows. *)
Example interrupt_at_every_effect :
  length (run example_world 2 []).2 = 49%nat /\
  forallb (fun k => cancelled_cleanly (run (with_interrupt example_world (Some k)) 2 []))
          (seq 0 49) = true /\
  forallb (fun k => cancelled_cleanly
                      (run (with_interrupt_in_command (with_os_name example_world "nt") k) 2 []))
          (seq 0 49) = true.
Proof. by vm_compute. Qed.

(** The guards, one by one: a listing refused, a selection that does not
    parse, one that selects nothing, one that ends in an exception, a
    confirmation in lower case. *)
Example guards_stop_the_run :
  delete_calls (run (with_api_get example_world (fun _ => Responds bad_credentials)) 2 []).2 = [] /\
  delete_calls (run (with_api_get example_world (fun _ => Fails "timed out")) 2 []).2 = [] /\
  delete_calls (run (with_stdin example_world ["1,invalid"; "DELETE"]) 2 []).2 = [] /\
  delete_calls (run (with_stdin example_world ["11,12"; "DELETE"]) 2 []).2 = [] /\
  delete_calls (run (with_stdin example_world ["1-100000000000000000000"; "DELETE"]) 2 []).2
    = [] /\
  delete_calls (run (with_stdin example_world ["2,4-6"; "delete"]) 2 []).2 = [] /\
  delete_calls (run (with_stdin example_world ["2,4-6"; "Delete "]) 2 []).2 = [] /\
  length (delete_calls (run (with_stdin example_world ["2,4-6"; "  DELETE  "]) 2 []).2) = 4%nat.
Proof. by vm_compute. Qed.

Example delete_repository_statuses :
  (delete_repository example_world test_client "owner" "repo" []).1 = Return true /\
  (delete_repository partial_world test_client "octocat" "repo4" []).1 = Return false /\
  (delete_repository example_world test_client "owner" "repo" []).2 =
    [EvDelete (headers (session test_client)) "https://api.github.com/repos/owner/repo"
              (Responds 204)].
Proof. by vm_compute. Qed.
Example parse_example_1 : parse_indices example_machine "1,3,5-8" 10 = Return (Some [0; 2; 4; 5; 6; 7]).
Proof. vm_compute. reflexivity. Qed.
Example parse_example_2 : parse_indices example_machine " 1 , 3 , 5-8 " 10 = Return (Some [0; 2; 4; 5; 6; 7]).
Proof. vm_compute. reflexivity. Qed.
Example parse_example_3 : parse_indices example_machine "1,1,1" 10 = Return (Some [0]).
Proof. vm_compute. reflexivity. Qed.
Example parse_example_4 : parse_indices example_machine "10,1" 10 = Return (Some [0; 9]).
Proof. vm_compute. reflexivity. Qed.
Example parse_example_5 : parse_indices example_machine "1-3,2-4" 10 = Return (Some [0; 1; 2; 3]).
Proof. vm_compute. reflexivity. Qed.
Example parse_example_6 : parse_indices example_machine "11,12" 10 = Return (Some []).
Proof. vm_compute. reflexivity. Qed.
Example parse_example_7 : parse_indices example_machine "0,1,11" 10 = Return (Some [0]).
Proof. vm_compute. reflexivity. Qed.
Example parse_example_8 : parse_indices example_machine "invalid" 10 = Return None.
Proof. vm_compute. reflexivity. Qed.
Example parse_example_9 : parse_indices example_machine "1,invalid" 10 = Return None.
Proof. vm_compute. reflexivity. Qed.
Example parse_example_10 : parse_indices example_machine "1-" 10 = Return None.
Proof. vm_compute. reflexivity. Qed.
Example parse_example_11 : parse_indices example_machine "5-3" 10 = Return (Some []).
Proof. vm_compute. reflexivity. Qed.
Example parse_example_12 : parse_indices example_machine ",1,, 2 ," 10 = Return (Some [0; 1]).
Proof. vm_compute. reflexivity. Qed.
Example parse_example_13 :
  parse_indices example_machine "1-100000000000000000000" 10 = Raise OverflowError.
Proof. vm_compute. reflexivity. Qed.
Example parse_example_14 :
  parse_indices example_machine "1-2000000" 10 = Raise MemoryError.
Proof. vm_compute. reflexivity. Qed.
Example parse_example_15 :
  parse_indices example_machine "invalid,1-100000000000000000000" 10 = Return None.
Proof. vm_compute. reflexivity. Qed.

(** ** More on the built-ins: [int(str(i))] *)

Section DecimalStrings.

Lemma int_digits_uint_acc d acc :
  Py.int_digits (Z.pos acc) true (NilEmpty.string_of_uint d) =
    Some (Z.pos (Pos.of_uint_acc d acc)).
Proof.
  revert acc. induction d; intros acc; [reflexivity|..];
    cbn [NilEmpty.string_of_uint Py.int_digits Pos.of_uint_acc];
    rewrite <- IHd;
    lazymatch goal with
    | |- context [Py.digit_of ?c] =>
        let v := eval vm_compute in (Py.digit_of c) in
        change (Py.digit_of c) with v
    end; cbv iota; f_equal; lia.
Qed.

Lemma int_digits_uint_after d :
  Py.int_digits 0 true (NilEmpty.string_of_uint d) = Some (Z.of_N (Pos.of_uint d)).
Proof.
  induction d; [reflexivity|exact IHd|..];
    cbn [NilEmpty.string_of_uint Pos.of_uint Z.of_N];
    rewrite <- int_digits_uint_acc; reflexivity.
Qed.

Lemma int_digits_uint d :
  d <> Decimal.Nil ->
  Py.int_digits 0 false (NilEmpty.string_of_uint d) = Some (Z.of_N (Pos.of_uint d)).
Proof.
  intros Hd. rewrite <- int_digits_uint_after. destruct d; [congruence|..]; reflexivity.
Qed.

(** A decimal numeral holds no character that [strip] removes, no sign
    and no separator. *)
Lemma rstrip_with_uint space d :
  (forall c, Py.digit_of c <> None -> space c = false) ->
  Py.rstrip_with space (NilEmpty.string_of_uint d) = NilEmpty.string_of_uint d.
Proof.
  intros Hspace. induction d; [reflexivity|..];
    cbn [NilEmpty.string_of_uint Py.rstrip_with]; rewrite IHd;
    (destruct (NilEmpty.string_of_uint d); [|reflexivity]);
    rewrite Hspace by discriminate; reflexivity.
Qed.

Lemma strip_with_uint space d :
  (forall c, Py.digit_of c <> None -> space c = false) ->
  Py.strip_with space (NilEmpty.string_of_uint d) = NilEmpty.string_of_uint d.
Proof.
  intros Hspace. unfold Py.strip_with.
  destruct d; [reflexivity|..];
    cbn [NilEmpty.string_of_uint Py.lstrip_with];
    rewrite Hspace by discriminate.
  all: lazymatch goal with
       | |- Py.rstrip_with _ (String ?c (NilEmpty.string_of_uint ?d)) = _ =>
           first [ exact (rstrip_with_uint space (Decimal.D0 d) Hspace)
                 | exact (rstrip_with_uint space (Decimal.D1 d) Hspace)
                 | exact (rstrip_with_uint space (Decimal.D2 d) Hspace)
                 | exact (rstrip_with_uint space (Decimal.D3 d) Hspace)
                 | exact (rstrip_with_uint space (Decimal.D4 d) Hspace)
                 | exact (rstrip_with_uint space (Decimal.D5 d) Hspace)
                 | exact (rstrip_with_uint space (Decimal.D6 d) Hspace)
                 | exact (rstrip_with_uint space (Decimal.D7 d) Hspace)
                 | exact (rstrip_with_uint space (Decimal.D8 d) Hspace)
                 | exact (rstrip_with_uint space (Decimal.D9 d) Hspace) ]
       end.
Qed.

Lemma digit_not_int_space c : Py.digit_of c <> None -> Py.int_isspace c = false.
Proof.
  destruct c as [[] [] [] [] [] [] [] []]; vm_compute; intros H;
    try reflexivity; exfalso; apply H; reflexivity.
Qed.

Lemma digit_not_space c : Py.digit_of c <> None -> Py.isspace c = false.
Proof.
  destruct c as [[] [] [] [] [] [] [] []]; vm_compute; intros H;
    try reflexivity; exfalso; apply H; reflexivity.
Qed.

Lemma contains_uint c d :
  Py.digit_of c = None -> Py.contains c (NilEmpty.string_of_uint d) = false.
Proof.
  intros Hc. induction d; [reflexivity|..];
    cbn [NilEmpty.string_of_uint Py.contains]; rewrite IHd, orb_false_r;
    apply Ascii.eqb_neq; intros <-; discriminate.
Qed.

Lemma int_of_str_uint d :
  d <> Decimal.Nil ->
  Py.int_of_str (NilEmpty.string_of_uint d) = Some (Z.of_N (Pos.of_uint d)).
Proof.
  intros Hd. unfold Py.int_of_str.
  rewrite (strip_with_uint _ d digit_not_int_space), <- (int_digits_uint d Hd).
  destruct d; [congruence|..]; reflexivity.
Qed.

Lemma str_of_int_pos p : Py.str_of_int (Z.pos p) = NilEmpty.string_of_uint (Pos.to_uint p).
Proof.
  unfold Py.str_of_int. cbn [Z.to_int NilZero.string_of_int NilZero.string_of_uint].
  pose proof (DecimalPos.Unsigned.to_uint_nonnil p).
  destruct (Pos.to_uint p); [congruence|..]; reflexivity.
Qed.

Lemma int_of_str_of_int i : Py.int_of_str (Py.str_of_int i) = Some i.
Proof.
  destruct i as [|p|p].
  - reflexivity.
  - rewrite str_of_int_pos, int_of_str_uint by apply DecimalPos.Unsigned.to_uint_nonnil.
    rewrite DecimalPos.Unsigned.of_to. reflexivity.
  - unfold Py.str_of_int. cbn [Z.to_int NilZero.string_of_int].
    pose proof (DecimalPos.Unsigned.to_uint_nonnil p) as Hp.
    assert (NilZero.string_of_uint (Pos.to_uint p) = NilEmpty.string_of_uint (Pos.to_uint p)) as ->
      by (destruct (Pos.to_uint p); [congruence|..]; reflexivity).
    unfold Py.int_of_str, Py.strip_with. cbn [Py.lstrip_with].
    change (Py.int_isspace "-") with false. cbv iota.
    assert (Py.rstrip_with Py.int_isspace (String "-" (NilEmpty.string_of_uint (Pos.to_uint p)))
            = String "-" (NilEmpty.string_of_uint (Pos.to_uint p))) as ->.
    { cbn [Py.rstrip_with]. rewrite (rstrip_with_uint _ _ digit_not_int_space).
      destruct (NilEmpty.string_of_uint (Pos.to_uint p)) eqn:E; [|reflexivity].
      destruct (Pos.to_uint p); [congruence|..]; discriminate. }
    rewrite (int_digits_uint _ Hp), DecimalPos.Unsigned.of_to. reflexivity.
Qed.

End DecimalStrings.

(** ** More on the selection parser *)

Lemma mapM_app_Some {A B} (f : A -> option B) (l1 l2 : list A) :
  mapM f (l1 ++ l2) =
  match mapM f l1, mapM f l2 with
  | Some k1, Some k2 => Some (k1 ++ k2)
  | _, _ => None
  end.
Proof.
  induction l1 as [|x l1 IH]; [simpl; destruct (mapM f l2); reflexivity|].
  change (mapM f ((x :: l1) ++ l2)) with (y ← f x; k ← mapM f (l1 ++ l2); mret (y :: k)).
  change (mapM f (x :: l1)) with (y ← f x; k ← mapM f l1; mret (y :: k)).
  rewrite IH. destruct (f x); [|reflexivity]. simpl.
  destruct (mapM f l1); [|reflexivity]. simpl.
  destruct (mapM f l2); reflexivity.
Qed.

Lemma in_window_app N l1 l2 : in_window N (l1 ++ l2) = in_window N l1 ++ in_window N l2.
Proof. unfold in_window. rewrite filter_app, fmap_app. reflexivity. Qed.

(** [sorted(list(set(l)))] depends on the members of [l] only. *)
Lemma sorted_set_ext l1 l2 :
  (forall i, i ∈ l1 <-> i ∈ l2) ->
  Py.sorted (elements (Py.set_of l1)) = Py.sorted (elements (Py.set_of l2)).
Proof.
  intros H. f_equal. f_equal. unfold Py.set_of. apply set_eq. intros i.
  rewrite !elem_of_list_to_set. apply H.
Qed.

Lemma sorted_set_idem l :
  Py.sorted (elements (Py.set_of (Py.sorted (elements (Py.set_of l))))) =
  Py.sorted (elements (Py.set_of l)).
Proof. apply sorted_set_ext. intros i. apply sorted_set_elem. Qed.

Lemma sorted_set_of_ascending l :
  StronglySorted Z.lt l -> Py.sorted (elements (Py.set_of l)) = l.
Proof.
  intros Hl.
  assert (NoDup l) as Hnd.
  { induction Hl as [|x l Hl IH Hx]; constructor; [|exact IH].
    intros Hin. rewrite Forall_forall in Hx. specialize (Hx x Hin). lia. }
  apply (StronglySorted_unique Z.le).
  - apply StronglySorted_merge_sort; apply _.
  - clear Hnd. induction Hl as [|x l Hl IH Hx]; constructor; [exact IH|].
    eapply Forall_impl; [exact Hx|]. intros y Hy. simpl in Hy. lia.
  - unfold Py.sorted. rewrite merge_sort_Permutation. unfold Py.set_of.
    apply elements_list_to_set, Hnd.
Qed.

Section ParserLaws.
Variable mc : Py.Machine.

Lemma parse_indices_fixed input_str N l :
  parse_indices mc input_str N = Return (Some l) -> Py.sorted (elements (Py.set_of l)) = l.
Proof. intros (raw & _ & ->)%parse_indices_Return. apply sorted_set_idem. Qed.

(** The loop on [s,t] is the loop on [s], then the loop on [t] from the
    list the first has built. *)
Lemma parse_parts_comma s t indices :
  parse_parts mc (Py.split "," (s +:+ "," +:+ t)) indices =
  match parse_parts mc (Py.split "," s) indices with
  | Return raw => parse_parts mc (Py.split "," t) raw
  | Raise e => Raise e
  | Diverges => Diverges
  end.
Proof.
  change (s +:+ "," +:+ t) with (s +:+ String "," t).
  rewrite split_app_sep. apply parse_parts_app.
Qed.

(** A blank segment is passed over. *)
Lemma parse_parts_cons_blank segment rest indices :
  Py.strip segment = "" ->
  parse_parts mc (segment :: rest) indices = parse_parts mc rest indices.
Proof. intros Hblank. cbn [parse_parts]. rewrite Hblank. reflexivity. Qed.

Lemma parse_parts_blank parts indices :
  Forall (fun segment => Py.strip segment = "") parts ->
  parse_parts mc parts indices = Return indices.
Proof.
  induction 1 as [|segment parts Hs Hl IH]; [reflexivity|].
  rewrite parse_parts_cons_blank by exact Hs. exact IH.
Qed.

(** The loop sees its segments trimmed. *)
Lemma parse_parts_strip parts1 parts2 indices :
  Forall2 (fun s1 s2 => Py.strip s1 = Py.strip s2) parts1 parts2 ->
  parse_parts mc parts1 indices = parse_parts mc parts2 indices.
Proof.
  intros H. revert indices. induction H as [|s1 s2 l1 l2 Hs Hl IH]; intros indices;
    [reflexivity|].
  cbn [parse_parts]. rewrite Hs. destruct (String.eqb (Py.strip s2) ""); [apply IH|].
  destruct (parse_part mc (Py.strip s2) indices); [apply IH|reflexivity..].
Qed.

(** An iteration that finds room in a list finds room in a shorter one. *)
Lemma extend_range_shorter indices indices' a b l :
  (length indices' <= length indices)%nat ->
  Py.extend_range mc indices a b = Return l ->
  Py.extend_range mc indices' a b = Return (indices' ++ Py.range a b).
Proof.
  intros Hlen. unfold Py.extend_range. cbv zeta.
  destruct (Z.of_N (Py.maxsize mc) <? Z.max 0 (b - a)); [discriminate|].
  destruct (0 <? Z.max 0 (b - a)); cbn [andb]; [|reflexivity].
  destruct (Z.ltb_spec (Z.of_N (Py.capacity mc))
              (Z.of_nat (length indices) + Z.max 0 (b - a))); [discriminate|].
  intros _.
  destruct (Z.ltb_spec (Z.of_N (Py.capacity mc))
              (Z.of_nat (length indices') + Z.max 0 (b - a))); [lia|reflexivity].
Qed.

Lemma parse_part_shorter part indices indices' l :
  (length indices' <= length indices)%nat ->
  parse_part mc part indices = Return l ->
  exists new, l = indices ++ new /\ parse_part mc part indices' = Return (indices' ++ new).
Proof.
  intros Hlen. unfold parse_part. destruct (Py.contains "-" part).
  - destruct (Py.split "-" part) as [|s1 [|s2 [|s3 rest]]]; try discriminate.
    destruct (Py.int_of_str s1) as [a|]; [|discriminate].
    destruct (Py.int_of_str s2) as [b|]; [|discriminate].
    intros H. exists (Py.range a (b + 1)).
    split; [exact (extend_range_Return mc _ _ _ _ H)|].
    exact (extend_range_shorter _ _ _ _ _ Hlen H).
  - destruct (Py.int_of_str part) as [i|]; [|discriminate].
    intros [= <-]. eauto.
Qed.

Lemma parse_parts_shorter parts indices indices' l :
  (length indices' <= length indices)%nat ->
  parse_parts mc parts indices = Return l ->
  exists new, l = indices ++ new /\ parse_parts mc parts indices' = Return (indices' ++ new).
Proof.
  revert indices indices' l. induction parts as [|part parts IH]; intros indices indices' l Hlen.
  - intros [= <-]. exists []. rewrite !app_nil_r. auto.
  - cbn [parse_parts]. destruct (String.eqb (Py.strip part) ""); [apply IH, Hlen|].
    destruct (parse_part mc (Py.strip part) indices) as [l1|e|] eqn:Hpart; try discriminate.
    destruct (parse_part_shorter _ _ _ _ Hlen Hpart) as (new & -> & ->).
    intros Hrest.
    destruct (IH (indices ++ new) (indices' ++ new) l) as (new' & -> & ->);
      [rewrite !length_app; lia|exact Hrest|].
    exists (new ++ new'). rewrite !app_assoc. auto.
Qed.

(** An iteration that finds room in a list finds it in any list that
    leaves as much. *)
Lemma parse_parts_room parts indices indices' l :
  parse_parts mc parts indices = Return l ->
  Z.of_nat (length indices') + (Z.of_nat (length l) - Z.of_nat (length indices))
    <= Z.of_N (Py.capacity mc) ->
  exists new, l = indices ++ new /\ parse_parts mc parts indices' = Return (indices' ++ new).
Proof.
  revert indices indices' l. induction parts as [|part parts IH]; intros indices indices' l.
  - intros [= <-] _. exists []. rewrite !app_nil_r. auto.
  - cbn [parse_parts]. destruct (String.eqb (Py.strip part) ""); [apply IH|].
    pose proof (parse_part_outcome mc (Py.strip part) indices) as Hp.
    destruct (parse_part mc (Py.strip part) indices) as [l1|e|] eqn:Hpart; try discriminate.
    destruct Hp as (new & Hnew & ->). intros Hrest Hroom.
    pose proof (parse_parts_outcome mc parts (indices ++ new)) as Hout.
    rewrite Hrest in Hout. destruct Hout as (cs & _ & ->).
    rewrite !length_app, !Nat2Z.inj_add in Hroom.
    assert (parse_part mc (Py.strip part) indices' = Return (indices' ++ new)) as ->.
    { revert Hpart Hnew. unfold parse_part, part_values.
      destruct (Py.contains "-" (Py.strip part)).
      - destruct (Py.split "-" (Py.strip part)) as [|s1 [|s2 [|s3 rest]]]; try discriminate.
        destruct (Py.int_of_str s1) as [a|]; [|discriminate].
        destruct (Py.int_of_str s2) as [b|]; [|discriminate].
        intros Hext [= <-]. revert Hext. unfold Py.extend_range. cbv zeta.
        destruct (Z.of_N (Py.maxsize mc) <? Z.max 0 (b + 1 - a)); [discriminate|].
        intros _. rewrite length_range in Hroom.
        destruct (Z.ltb_spec (Z.of_N (Py.capacity mc))
                    (Z.of_nat (length indices') + Z.max 0 (b + 1 - a))); [lia|].
        rewrite andb_false_r. reflexivity.
      - destruct (Py.int_of_str (Py.strip part)); [|discriminate].
        intros _ [= <-]. reflexivity. }
    destruct (IH (indices ++ new) (indices' ++ new) _ Hrest) as (new' & Heq & ->);
      [rewrite !length_app, !Nat2Z.inj_add; lia|].
    apply app_inv_head in Heq as ->.
    exists (new ++ new'). rewrite !app_assoc. auto.
Qed.

(** A selection that parses after another parses alone. *)
Lemma parse_parts_alone parts indices l :
  parse_parts mc parts indices = Return l ->
  exists new, l = indices ++ new /\ parse_parts mc parts [] = Return new.
Proof.
  intros H. destruct (parse_parts_shorter parts indices [] l) as (new & -> & Hnew);
    [simpl; lia|exact H|]. eauto.
Qed.

Lemma parse_indices_empty N : parse_indices mc "" N = Return (Some []).
Proof. reflexivity. Qed.

Lemma parse_indices_blank input_str N :
  Forall (fun segment => Py.strip segment = "") (Py.split "," input_str) ->
  parse_indices mc input_str N = Return (Some []).
Proof.
  intros Hblank. unfold parse_indices. rewrite (parse_parts_blank _ _ Hblank). reflexivity.
Qed.

(** The result of a parse, from the lists of its two halves. *)
Lemma sorted_set_window_app N raw1 raw2 :
  Py.sorted (elements (Py.set_of (in_window N (raw1 ++ raw2)))) =
  Py.sorted (elements (Py.set_of
    (Py.sorted (elements (Py.set_of (in_window N raw1))) ++
     Py.sorted (elements (Py.set_of (in_window N raw2)))))).
Proof.
  apply sorted_set_ext. intros i.
  rewrite in_window_app, !elem_of_app, !sorted_set_elem. reflexivity.
Qed.

(** When [s,t] parses, so do [s] and [t], and it selects what either does. *)
Lemma parse_indices_comma_Return s t N l :
  parse_indices mc (s +:+ "," +:+ t) N = Return (Some l) ->
  exists l1 l2,
    parse_indices mc s N = Return (Some l1) /\
    parse_indices mc t N = Return (Some l2) /\
    l = Py.sorted (elements (Py.set_of (l1 ++ l2))).
Proof.
  intros (raw & Hraw & ->)%parse_indices_Return.
  rewrite parse_parts_comma in Hraw. unfold parse_indices.
  destruct (parse_parts mc (Py.split "," s) []) as [raw1|e|]; try discriminate.
  destruct (parse_parts_alone _ _ _ Hraw) as (raw2 & -> & ->).
  eexists _, _. split; [reflexivity|]. split; [reflexivity|].
  apply sorted_set_window_app.
Qed.
End ParserLaws.

(** The numeral of a positive integer, as a segment. *)
Lemma str_of_int_segment n :
  0 < n ->
  Py.split "," (Py.str_of_int n) = [Py.str_of_int n] /\
  Py.strip (Py.str_of_int n) = Py.str_of_int n /\
  Py.contains "-" (Py.str_of_int n) = false /\
  Py.str_of_int n <> "".
Proof.
  intros Hn. destruct n as [|p|p]; try lia. rewrite str_of_int_pos.
  split; [apply split_no_sep, contains_uint; reflexivity|].
  split; [apply (strip_with_uint _ _ digit_not_space)|].
  split; [apply contains_uint; reflexivity|].
  pose proof (DecimalPos.Unsigned.to_uint_nonnil p).
  destruct (Pos.to_uint p); [congruence|..]; discriminate.
Qed.

Lemma segment_values_str_of_int n : 0 < n -> segment_values (Py.str_of_int n) = Some [n].
Proof.
  intros Hn. destruct (str_of_int_segment n Hn) as (_ & Hstrip & Hhyphen & Hne).
  unfold segment_values. rewrite Hstrip.
  destruct (String.eqb_spec (Py.str_of_int n) ""); [congruence|].
  unfold part_values. rewrite Hhyphen, int_of_str_of_int. reflexivity.
Qed.

Section StripPadding.
Variable space : ascii -> bool.

Lemma lstrip_with_head s c r : Py.lstrip_with space s = String c r -> space c = false.
Proof.
  induction s as [|c' s IH]; [discriminate|]. simpl.
  destruct (space c') eqn:E; [exact IH|]. intros [= <- _]. exact E.
Qed.

Lemma rstrip_with_cons_nonempty c s : space c = false -> Py.rstrip_with space (String c s) <> "".
Proof.
  intros Hc. simpl. destruct (Py.rstrip_with space s); [rewrite Hc|]; discriminate.
Qed.

Lemma strip_with_empty s : Py.strip_with space s = "" <-> Py.lstrip_with space s = "".
Proof.
  unfold Py.strip_with. split; [|intros ->; reflexivity].
  destruct (Py.lstrip_with space s) as [|c r] eqn:E; [reflexivity|].
  intros H. exfalso. exact (rstrip_with_cons_nonempty c r (lstrip_with_head s c r E) H).
Qed.

Lemma lstrip_with_empty_cons c s :
  Py.lstrip_with space (String c s) = "" -> space c = true /\ Py.lstrip_with space s = "".
Proof. simpl. destruct (space c); [intros H; split; [reflexivity|exact H]|discriminate]. Qed.

Lemma lstrip_with_app_space p s :
  Py.lstrip_with space p = "" -> Py.lstrip_with space (p +:+ s) = Py.lstrip_with space s.
Proof.
  induction p as [|c p IH]; [reflexivity|].
  intros [Hc Hp]%lstrip_with_empty_cons.
  change (String c p +:+ s) with (String c (p +:+ s)). simpl. rewrite Hc. exact (IH Hp).
Qed.

Lemma rstrip_with_space q : Py.lstrip_with space q = "" -> Py.rstrip_with space q = "".
Proof.
  induction q as [|c q IH]; [reflexivity|].
  intros [Hc Hq]%lstrip_with_empty_cons. simpl. rewrite (IH Hq), Hc. reflexivity.
Qed.

Lemma rstrip_with_app_space s q :
  Py.lstrip_with space q = "" -> Py.rstrip_with space (s +:+ q) = Py.rstrip_with space s.
Proof.
  intros Hq. induction s as [|c s IH]; [exact (rstrip_with_space q Hq)|].
  change (String c s +:+ q) with (String c (s +:+ q)). simpl. rewrite IH. reflexivity.
Qed.

Lemma strip_with_app_space s q :
  Py.lstrip_with space q = "" -> Py.strip_with space (s +:+ q) = Py.strip_with space s.
Proof.
  intros Hq. unfold Py.strip_with. induction s as [|c s IH].
  - change ("" +:+ q) with q. rewrite Hq. reflexivity.
  - change (String c s +:+ q) with (String c (s +:+ q)). simpl.
    destruct (space c); [exact IH|].
    exact (rstrip_with_app_space (String c s) q Hq).
Qed.

Lemma strip_with_pad p s q :
  Py.strip_with space p = "" -> Py.strip_with space q = "" ->
  Py.strip_with space (p +:+ s +:+ q) = Py.strip_with space s.
Proof.
  intros Hp%strip_with_empty Hq%strip_with_empty.
  unfold Py.strip_with at 1. rewrite (lstrip_with_app_space p _ Hp).
  exact (strip_with_app_space s q Hq).
Qed.

Lemma space_contains c p :
  Py.lstrip_with space p = "" -> space c = false -> Py.contains c p = false.
Proof.
  intros Hp Hc. induction p as [|c' p IH]; [reflexivity|].
  apply lstrip_with_empty_cons in Hp as [Hc' Hp]. simpl. rewrite (IH Hp), orb_false_r.
  apply Ascii.eqb_neq. intros ->. congruence.
Qed.

Lemma rstrip_with_nospace s :
  (forall c, Py.contains c s = true -> space c = false) -> Py.rstrip_with space s = s.
Proof.
  induction s as [|c s IH]; [reflexivity|]. intros H. simpl.
  rewrite IH by (intros c' Hc'; apply H; simpl; rewrite Hc'; apply orb_true_r).
  destruct s; [|reflexivity].
  rewrite (H c) by (simpl; rewrite Ascii.eqb_refl; reflexivity). reflexivity.
Qed.

Lemma strip_with_nospace s :
  (forall c, Py.contains c s = true -> space c = false) -> Py.strip_with space s = s.
Proof.
  intros H. unfold Py.strip_with.
  assert (Py.lstrip_with space s = s) as ->; [|exact (rstrip_with_nospace s H)].
  destruct s as [|c s]; [reflexivity|]. simpl.
  rewrite (H c) by (simpl; rewrite Ascii.eqb_refl; reflexivity). reflexivity.
Qed.
End StripPadding.

Section SplitPadding.
Variable sep : ascii.

Lemma split_prefix p x :
  Py.contains sep p = false ->
  exists hd tl, Py.split sep x = hd :: tl /\ Py.split sep (p +:+ x) = (p +:+ hd) :: tl.
Proof.
  intros Hp. induction p as [|c p IH].
  - destruct (Py.split sep x) as [|hd tl] eqn:E; [destruct (split_nonempty sep x E)|].
    exists hd, tl. split; [reflexivity|exact E].
  - simpl in Hp. apply orb_false_elim in Hp as [Hc Hp].
    destruct (IH Hp) as (hd & tl & Hx & Hpx). exists hd, tl. split; [exact Hx|].
    change (String c p +:+ x) with (String c (p +:+ x)). simpl. rewrite Hc, Hpx. reflexivity.
Qed.

Lemma split_suffix x q :
  Py.contains sep q = false ->
  exists init last_, Py.split sep x = init ++ [last_] /\
                     Py.split sep (x +:+ q) = init ++ [last_ +:+ q].
Proof.
  intros Hq. induction x as [|c x IH].
  - exists [], "". split; [reflexivity|]. exact (split_no_sep sep q Hq).
  - destruct IH as (init & last_ & Hx & Hxq).
    change (String c x +:+ q) with (String c (x +:+ q)). simpl.
    destruct (Ascii.eqb c sep).
    + exists ("" :: init), last_. rewrite Hx, Hxq. split; reflexivity.
    + rewrite Hx, Hxq. destruct init as [|hd tl].
      * exists [], (String c last_). split; reflexivity.
      * exists (String c hd :: tl), last_. split; reflexivity.
Qed.
End SplitPadding.

Lemma segment_values_strip s1 s2 :
  Py.strip s1 = Py.strip s2 -> segment_values s1 = segment_values s2.
Proof. unfold segment_values. intros ->. reflexivity. Qed.

Lemma comma_not_space : Py.isspace "," = false.
Proof. reflexivity. Qed.

Lemma blank_no_comma p : Py.strip p = "" -> Py.contains "," p = false.
Proof.
  intros Hp%strip_with_empty. exact (space_contains Py.isspace "," p Hp comma_not_space).
Qed.

Lemma split_same parts :
  Forall2 (fun s1 s2 : string => Py.strip s1 = Py.strip s2) parts parts.
Proof. induction parts; constructor; auto. Qed.

(** Padding changes no segment once trimmed. *)
Lemma split_pad p x q :
  Py.strip p = "" -> Py.strip q = "" ->
  Forall2 (fun s1 s2 => Py.strip s1 = Py.strip s2)
          (Py.split "," (p +:+ x +:+ q)) (Py.split "," x).
Proof.
  intros Hp Hq.
  destruct (split_suffix "," x q (blank_no_comma q Hq)) as (init & last_ & Hx & Hxq).
  destruct (split_prefix "," p (x +:+ q) (blank_no_comma p Hp)) as (hd & tl & Hxq' & Hpxq).
  rewrite Hpxq, Hx. rewrite Hxq in Hxq'.
  assert (Py.strip (last_ +:+ q) = Py.strip last_) as Hlast.
  { apply (strip_with_app_space Py.isspace). apply strip_with_empty. exact Hq. }
  assert (forall s, Py.strip (p +:+ s) = Py.strip s) as Hfirst.
  { intros s. unfold Py.strip, Py.strip_with.
    rewrite lstrip_with_app_space by (apply strip_with_empty; exact Hp). reflexivity. }
  destruct init as [|hd' init].
  - injection Hxq' as <- <-. constructor; [|constructor].
    rewrite Hfirst. exact Hlast.
  - injection Hxq' as <- <-.
    cbn [app]. constructor; [apply Hfirst|].
    apply Forall2_app; [apply split_same|]. constructor; [exact Hlast|constructor].
Qed.

Lemma parse_indices_pad mc p x q N :
  Py.strip p = "" -> Py.strip q = "" ->
  parse_indices mc (p +:+ x +:+ q) N = parse_indices mc x N.
Proof.
  intros Hp Hq. unfold parse_indices.
  rewrite (parse_parts_strip mc _ _ [] (split_pad p x q Hp Hq)). reflexivity.
Qed.

Lemma parse_indices_pad_within mc p x q s t N :
  Py.strip p = "" -> Py.strip q = "" ->
  parse_indices mc (s +:+ "," +:+ (p +:+ x +:+ q) +:+ "," +:+ t) N =
  parse_indices mc (s +:+ "," +:+ x +:+ "," +:+ t) N.
Proof.
  intros Hp Hq. unfold parse_indices.
  change (s +:+ "," +:+ (p +:+ x +:+ q) +:+ "," +:+ t)
    with (s +:+ String "," ((p +:+ x +:+ q) +:+ String "," t)).
  change (s +:+ "," +:+ x +:+ "," +:+ t) with (s +:+ String "," (x +:+ String "," t)).
  rewrite !split_app_sep.
  rewrite (parse_parts_strip mc _ (Py.split "," s ++ Py.split "," x ++ Py.split "," t));
    [reflexivity|].
  apply Forall2_app; [apply split_same|].
  apply Forall2_app; [exact (split_pad p x q Hp Hq)|apply split_same].
Qed.

Lemma seqZ_ascending m n : StronglySorted Z.lt (seqZ m n).
Proof.
  remember (Z.to_nat n) as k eqn:Hk. revert m n Hk.
  induction k as [|k IH]; intros m n Hk.
  - rewrite seqZ_nil by lia. constructor.
  - rewrite seqZ_cons by lia. constructor; [apply IH; lia|].
    apply Forall_forall. intros x Hx%elem_of_seqZ. lia.
Qed.

Lemma in_window_inside N l :
  Forall (fun i => 1 <= i <= N) l -> in_window N l = (fun i => i - 1) <$> l.
Proof.
  intros Hl. unfold in_window. f_equal.
  induction Hl as [|x l Hx Hl IH]; [reflexivity|].
  rewrite filter_cons_True by exact Hx. f_equal. exact IH.
Qed.

Lemma parse_part_single mc part indices i :
  Py.contains "-" part = false -> Py.int_of_str part = Some i ->
  parse_part mc part indices = Return (indices ++ [i]).
Proof. intros Hc Hi. unfold parse_part. rewrite Hc, Hi. reflexivity. Qed.

Lemma parse_indices_str_of_int mc n N :
  1 <= n <= N -> parse_indices mc (Py.str_of_int n) N = Return (Some [n - 1]).
Proof.
  intros Hn. destruct (str_of_int_segment n ltac:(lia)) as (Hsplit & Hstrip & Hhyphen & Hne).
  unfold parse_indices. rewrite Hsplit. cbn [parse_parts]. rewrite Hstrip.
  destruct (String.eqb_spec (Py.str_of_int n) ""); [congruence|].
  rewrite (parse_part_single mc _ [] n Hhyphen (int_of_str_of_int n)). cbn [app].
  rewrite in_window_inside by (repeat constructor; lia).
  rewrite sorted_set_of_ascending; [reflexivity|]. repeat constructor.
Qed.

Lemma hyphen_range_nospace a b c :
  0 < a -> 0 < b ->
  Py.contains c (Py.str_of_int a +:+ "-" +:+ Py.str_of_int b) = true ->
  Py.isspace c = false /\ Ascii.eqb c "," = false.
Proof.
  intros Ha Hb. destruct a as [|pa|pa]; try lia. destruct b as [|pb|pb]; try lia.
  rewrite !str_of_int_pos, !contains_app.
  intros [H|[H|H]%orb_true_iff]%orb_true_iff.
  - destruct (Py.digit_of c) eqn:E; [|rewrite contains_uint in H by exact E; discriminate].
    split; [apply digit_not_space; congruence|].
    apply Ascii.eqb_neq. intros ->. discriminate.
  - unfold Py.contains in H. rewrite orb_false_r in H.
    apply Ascii.eqb_eq in H as <-. split; reflexivity.
  - destruct (Py.digit_of c) eqn:E; [|rewrite contains_uint in H by exact E; discriminate].
    split; [apply digit_not_space; congruence|].
    apply Ascii.eqb_neq. intros ->. discriminate.
Qed.

Lemma hyphen_range_split a b :
  0 < a -> 0 < b ->
  Py.split "-" (Py.strip (Py.str_of_int a +:+ "-" +:+ Py.str_of_int b)) =
    [Py.str_of_int a; Py.str_of_int b].
Proof.
  intros Ha Hb. unfold Py.strip.
  rewrite (strip_with_nospace Py.isspace)
    by (intros c Hc; apply (hyphen_range_nospace a b c Ha Hb Hc)).
  destruct (str_of_int_segment a Ha) as (_ & _ & Hahyphen & Hane).
  destruct (str_of_int_segment b Hb) as (_ & _ & Hbhyphen & _).
  apply split_two. split; [reflexivity|]. split; assumption.
Qed.

Lemma segment_values_hyphen_range a b :
  0 < a -> 0 < b ->
  segment_values (Py.str_of_int a +:+ "-" +:+ Py.str_of_int b) = Some (Py.range a (b + 1)).
Proof.
  intros Ha Hb. pose proof (hyphen_range_split a b Ha Hb) as Hsplit.
  unfold segment_values. cbv zeta.
  destruct (String.eqb_spec (Py.strip (Py.str_of_int a +:+ "-" +:+ Py.str_of_int b)) "")
    as [E|_]; [rewrite E in Hsplit; discriminate|].
  exact (part_values_range _ _ _ _ _ Hsplit (int_of_str_of_int a) (int_of_str_of_int b)).
Qed.

Lemma parse_indices_hyphen_range mc a b N :
  1 <= a <= b -> b <= N ->
  b - a + 1 <= Z.of_N (Py.maxsize mc) -> b - a + 1 <= Z.of_N (Py.capacity mc) ->
  parse_indices mc (Py.str_of_int a +:+ "-" +:+ Py.str_of_int b) N =
    Return (Some (seqZ (a - 1) (b - a + 1))).
Proof.
  intros Hab HbN Hsize Hroom.
  assert (Py.contains "," (Py.str_of_int a +:+ "-" +:+ Py.str_of_int b) = false) as Hcomma.
  { destruct (Py.contains "," _) eqn:E; [|reflexivity].
    destruct (hyphen_range_nospace a b "," ltac:(lia) ltac:(lia) E) as [_ H]. discriminate. }
  unfold parse_indices. rewrite (split_no_sep _ _ Hcomma).
  rewrite (parse_parts_cons_range mc _ _ _ _ _ a b
             (hyphen_range_split a b ltac:(lia) ltac:(lia))
             (int_of_str_of_int a) (int_of_str_of_int b)).
  rewrite extend_range_fits by (cbn [length]; lia). cbn [parse_parts app].
  do 2 f_equal.
  rewrite <- (sorted_set_of_ascending (seqZ (a - 1) (b - a + 1))) by apply seqZ_ascending.
  apply sorted_set_ext. intros i.
  rewrite elem_of_in_window, elem_of_range, elem_of_seqZ. lia.
Qed.

(** X1: converting an integer to its numeral and back gives the integer,
    so the numbers of the table can be typed back: the number shown in a
    row selects that row and no other, and two shown numbers joined by a
    hyphen select the rows from the first to the second, on a machine
    that can hold as many numbers as the range has. *)
Theorem shown_number_selects_its_row (mc : Py.Machine) :
  (forall i, Py.int_of_str (Py.str_of_int i) = Some i) /\
  (forall n N, 1 <= n <= N ->
     parse_indices mc (Py.str_of_int n) N = Return (Some [n - 1])) /\
  (forall a b N, 1 <= a <= b -> b <= N ->
     b - a + 1 <= Z.of_N (Py.maxsize mc) -> b - a + 1 <= Z.of_N (Py.capacity mc) ->
     parse_indices mc (Py.str_of_int a +:+ "-" +:+ Py.str_of_int b) N =
       Return (Some (seqZ (a - 1) (b - a + 1)))) /\
  (forall (repos : Repositories) (i : nat) (repo : Repository),
     repos !! i = Some repo ->
     exists number rest,
       table_row i repo = number :: rest /\
       parse_indices mc number (Z.of_nat (length repos)) = Return (Some [Z.of_nat i])).
Proof.
  split; [exact int_of_str_of_int|].
  split; [exact (parse_indices_str_of_int mc)|].
  split; [exact (parse_indices_hyphen_range mc)|].
  intros repos i repo Hi. eexists _, _. split; [reflexivity|].
  apply lookup_lt_Some in Hi.
  rewrite parse_indices_str_of_int by lia. do 3 f_equal. lia.
Qed.

(** X2: a comma joins two selections. The loop on [s,t] is the loop on
    [s] followed by the loop on [t], which goes on from the list the first
    has built. So when [s,t] parses, [s] and [t] parse, and [s,t] selects
    the indices that either selects, each once, in ascending order;
    conversely it parses when both do and the machine has room for the
    numbers of both. What [s] ends with when it does not parse, [None] or
    an exception, is what [s,t] ends with; and when [t] does not parse,
    [s,t] returns no list. *)
Theorem comma_joins_selections (mc : Py.Machine) (s t : string) (N : Z) :
  (forall indices,
     parse_parts mc (Py.split "," (s +:+ "," +:+ t)) indices =
     match parse_parts mc (Py.split "," s) indices with
     | Return raw => parse_parts mc (Py.split "," t) raw
     | Raise e => Raise e
     | Diverges => Diverges
     end) /\
  (forall l,
     parse_indices mc (s +:+ "," +:+ t) N = Return (Some l) ->
     exists l1 l2,
       parse_indices mc s N = Return (Some l1) /\
       parse_indices mc t N = Return (Some l2) /\
       l = Py.sorted (elements (Py.set_of (l1 ++ l2))) /\
       forall i, i ∈ l <-> i ∈ l1 \/ i ∈ l2) /\
  (forall raw1 raw2,
     parse_parts mc (Py.split "," s) [] = Return raw1 ->
     parse_parts mc (Py.split "," t) [] = Return raw2 ->
     Z.of_nat (length raw1) + Z.of_nat (length raw2) <= Z.of_N (Py.capacity mc) ->
     exists l1 l2,
       parse_indices mc s N = Return (Some l1) /\
       parse_indices mc t N = Return (Some l2) /\
       parse_indices mc (s +:+ "," +:+ t) N =
         Return (Some (Py.sorted (elements (Py.set_of (l1 ++ l2)))))) /\
  (parse_indices mc s N = Return None ->
   parse_indices mc (s +:+ "," +:+ t) N = Return None) /\
  (forall e, parse_indices mc s N = Raise e ->
             parse_indices mc (s +:+ "," +:+ t) N = Raise e) /\
  (parse_indices mc t N = Return None ->
   forall l, parse_indices mc (s +:+ "," +:+ t) N <> Return (Some l)).
Proof.
  split; [intros indices; apply parse_parts_comma|].
  split; [|split; [|split; [|split]]].
  - intros l Hl.
    destruct (parse_indices_comma_Return mc s t N l Hl) as (l1 & l2 & H1 & H2 & ->).
    exists l1, l2. split; [exact H1|]. split; [exact H2|]. split; [reflexivity|].
    intros i. rewrite sorted_set_elem, elem_of_app. reflexivity.
  - intros raw1 raw2 H1 H2 Hroom. unfold parse_indices.
    rewrite parse_parts_comma, H1, H2.
    destruct (parse_parts_room mc _ [] raw1 raw2 H2) as (new & Hnew & ->);
      [cbn [length]; lia|].
    cbn [app] in Hnew. subst new.
    eexists _, _. split; [reflexivity|]. split; [reflexivity|].
    do 2 f_equal. apply sorted_set_window_app.
  - unfold parse_indices. rewrite parse_parts_comma.
    destruct (parse_parts mc (Py.split "," s) []) as [raw|e|]; [discriminate| |discriminate].
    destruct e; try discriminate. reflexivity.
  - intros e. unfold parse_indices. rewrite parse_parts_comma.
    destruct (parse_parts mc (Py.split "," s) []) as [raw|e'|]; [discriminate| |discriminate].
    destruct e'; try discriminate; auto.
  - intros Ht l Hl.
    destruct (parse_indices_comma_Return mc s t N l Hl) as (l1 & l2 & _ & H2 & _).
    congruence.
Qed.

Lemma parse_indices_swap mc s t N l l' :
  parse_indices mc (s +:+ "," +:+ t) N = Return (Some l) ->
  parse_indices mc (t +:+ "," +:+ s) N = Return (Some l') ->
  l = l'.
Proof.
  intros (l1 & l2 & H1 & H2 & ->)%parse_indices_comma_Return
         (l2' & l1' & H2' & H1' & ->)%parse_indices_comma_Return.
  assert (l1' = l1) as -> by congruence. assert (l2' = l2) as -> by congruence.
  apply sorted_set_ext. intros i. rewrite !elem_of_app. tauto.
Qed.

Lemma parse_indices_swap_format mc s t N l :
  parse_indices mc (s +:+ "," +:+ t) N = Return (Some l) ->
  parse_indices mc (t +:+ "," +:+ s) N <> Return None.
Proof.
  intros (cs & Hcs & _)%parse_indices_values Hnone.
  apply parse_indices_None in Hnone.
  pose proof (parse_parts_outcome mc (Py.split "," (t +:+ "," +:+ s)) []) as Hout.
  rewrite Hnone in Hout. destruct Hout as [[_ Hbad]|[H|H]]; try discriminate.
  change (s +:+ "," +:+ t) with (s +:+ String "," t) in Hcs.
  change (t +:+ "," +:+ s) with (t +:+ String "," s) in Hbad.
  rewrite split_app_sep, mapM_app_Some in Hcs, Hbad.
  destruct (mapM segment_values (Py.split "," s)); [|discriminate].
  destruct (mapM segment_values (Py.split "," t)); discriminate.
Qed.

Lemma parse_indices_twice mc s N l :
  parse_indices mc (s +:+ "," +:+ s) N = Return (Some l) ->
  parse_indices mc s N = Return (Some l).
Proof.
  intros (l1 & l2 & H1 & H2 & ->)%parse_indices_comma_Return.
  assert (l2 = l1) as -> by congruence. rewrite H1. do 2 f_equal.
  rewrite <- (parse_indices_fixed mc _ _ _ H1) at 1.
  apply sorted_set_ext. intros i. rewrite elem_of_app. tauto.
Qed.

(** X3: the order in which the segments are typed and their repetition do
    not change the list a parse returns: when [s,t] and [t,s] both return
    a list it is the same list, a change of order never turns a selection
    into a format error, and when [s,s] returns a list, [s] returns it
    too. The order does decide what a parse that returns no list ends
    with: [invalid,1-100000000000000000000] gives [None], and
    [1-100000000000000000000,invalid] the [OverflowError] of the range. *)
Theorem segment_order_and_repeats_are_irrelevant (mc : Py.Machine) (s t : string) (N : Z) :
  (forall l l',
     parse_indices mc (s +:+ "," +:+ t) N = Return (Some l) ->
     parse_indices mc (t +:+ "," +:+ s) N = Return (Some l') ->
     l = l') /\
  (forall l,
     parse_indices mc (s +:+ "," +:+ t) N = Return (Some l) ->
     parse_indices mc (t +:+ "," +:+ s) N <> Return None) /\
  (forall l,
     parse_indices mc (s +:+ "," +:+ s) N = Return (Some l) ->
     parse_indices mc s N = Return (Some l)) /\
  parse_indices example_machine "invalid,1-100000000000000000000" 10 = Return None /\
  parse_indices example_machine "1-100000000000000000000,invalid" 10 = Raise OverflowError.
Proof.
  split; [exact (parse_indices_swap mc s t N)|].
  split; [exact (parse_indices_swap_format mc s t N)|].
  split; [exact (parse_indices_twice mc s N)|].
  split; by vm_compute.
Qed.

Lemma parse_indices_trailing_comma mc s N :
  parse_indices mc (s +:+ ",") N = parse_indices mc s N.
Proof.
  unfold parse_indices. change (s +:+ ",") with (s +:+ "," +:+ "").
  rewrite parse_parts_comma.
  destruct (parse_parts mc (Py.split "," s) []); reflexivity.
Qed.

Lemma parse_indices_leading_comma mc s N :
  parse_indices mc ("," +:+ s) N = parse_indices mc s N.
Proof.
  unfold parse_indices. change ("," +:+ s) with ("" +:+ "," +:+ s).
  rewrite parse_parts_comma. reflexivity.
Qed.

Lemma parse_indices_doubled_comma mc s t N :
  parse_indices mc (s +:+ ",," +:+ t) N = parse_indices mc (s +:+ "," +:+ t) N.
Proof.
  unfold parse_indices. change (s +:+ ",," +:+ t) with (s +:+ "," +:+ ("" +:+ "," +:+ t)).
  rewrite !(parse_parts_comma mc s).
  destruct (parse_parts mc (Py.split "," s) []); [|reflexivity..].
  rewrite parse_parts_comma. reflexivity.
Qed.

(** X4: blank segments select nothing and never fail: a comma at the end,
    at the start or doubled changes nothing, and an input of blank segments
    only (the empty line among them) parses to the empty selection. *)
Theorem blank_segments_are_skipped (mc : Py.Machine) (N : Z) :
  (forall s, parse_indices mc (s +:+ ",") N = parse_indices mc s N) /\
  (forall s, parse_indices mc ("," +:+ s) N = parse_indices mc s N) /\
  (forall s t,
     parse_indices mc (s +:+ ",," +:+ t) N = parse_indices mc (s +:+ "," +:+ t) N) /\
  (forall input_str,
     Forall (fun segment => Py.strip segment = "") (Py.split "," input_str) ->
     parse_indices mc input_str N = Return (Some [])) /\
  parse_indices mc "" N = Return (Some []).
Proof.
  split; [intros s; apply parse_indices_trailing_comma|].
  split; [intros s; apply parse_indices_leading_comma|].
  split; [intros s t; apply parse_indices_doubled_comma|].
  split; [intros s; apply parse_indices_blank|reflexivity].
Qed.

(** X5: white space around the input is ignored, and with it the white
    space around every segment: padding the input on both sides with
    strings that [strip] empties does not change the result. *)
Theorem padding_is_ignored (mc : Py.Machine) (p x q : string) (N : Z)
    (Hp : Py.strip p = "") (Hq : Py.strip q = "") :
  parse_indices mc (p +:+ x +:+ q) N = parse_indices mc x N /\
  (forall s t,
     parse_indices mc (s +:+ "," +:+ (p +:+ x +:+ q) +:+ "," +:+ t) N =
     parse_indices mc (s +:+ "," +:+ x +:+ "," +:+ t) N).
Proof.
  split; [exact (parse_indices_pad mc p x q N Hp Hq)|].
  intros s t. exact (parse_indices_pad_within mc p x q s t N Hp Hq).
Qed.

Lemma padding_is_ignored_witness :
  parse_indices example_machine (" " +:+ "1 , 3 , 5-8" +:+ " ") 10 =
    parse_indices example_machine "1 , 3 , 5-8" 10 /\
  (forall s t,
     parse_indices example_machine
       (s +:+ "," +:+ (" " +:+ "1 , 3 , 5-8" +:+ " ") +:+ "," +:+ t) 10 =
     parse_indices example_machine (s +:+ "," +:+ "1 , 3 , 5-8" +:+ "," +:+ t) 10).
Proof. apply (padding_is_ignored example_machine " " "1 , 3 , 5-8" " " 10); reflexivity. Defined.

(** ** The selected repositories *)

Lemma comprehension_getitem_in_range {A} (l : list A) indices :
  Forall (fun i => 0 <= i <= Z.of_nat (length l) - 1) indices ->
  exists selected,
    (forall h, comprehension (getitem l) indices h = (Return selected, [])) /\
    Forall2 (fun i x => l !! Z.to_nat i = Some x) indices selected.
Proof.
  induction 1 as [|i indices Hi Hrest (selected & Hrun & Hsel)].
  - exists []. split; [reflexivity|constructor].
  - destruct (lookup_lt_is_Some_2 l (Z.to_nat i) ltac:(lia)) as [x Hx].
    exists (x :: selected). split; [|constructor; assumption].
    intros h. cbn [comprehension]. unfold bind.
    rewrite (getitem_in_range l i x) by (lia || exact Hx).
    cbn [ret]. rewrite Hrun. reflexivity.
Qed.

Lemma parse_indices_NoDup mc input_str N l :
  parse_indices mc input_str N = Return (Some l) -> NoDup l.
Proof. intros (raw & _ & ->)%parse_indices_Return. apply sorted_set_NoDup. Qed.

Lemma parse_indices_length mc input_str N l :
  parse_indices mc input_str N = Return (Some l) -> (length l <= Z.to_nat N)%nat.
Proof.
  intros Hparse. rewrite <- (length_seqZ 0 N). apply submseteq_length, NoDup_submseteq.
  - exact (parse_indices_NoDup _ _ _ _ Hparse).
  - intros i Hi. apply elem_of_seqZ.
    pose proof (parse_indices_range _ _ _ _ Hparse) as Hrange.
    rewrite Forall_forall in Hrange. specialize (Hrange i Hi). lia.
Qed.

(** X6: the list of selected repositories is always built: whatever the
    selection line, as soon as it parses, every index is a position of the
    listing, so [repos[i]] never raises [IndexError]; the repositories
    selected are those at the indices, in their order, each listed
    position at most once, and never more of them than were listed. *)
Theorem selection_never_out_of_range (mc : Py.Machine) (repos : Repositories)
    (input_str : string) (indices : list Z)
    (Hparse : parse_indices mc input_str (Z.of_nat (length repos)) = Return (Some indices)) :
  exists selected_repos,
    (forall h, comprehension (getitem repos) indices h = (Return selected_repos, [])) /\
    Forall2 (fun i repo => repos !! Z.to_nat i = Some repo) indices selected_repos /\
    length selected_repos = length indices /\
    NoDup indices /\
    (length selected_repos <= length repos)%nat.
Proof.
  destruct (comprehension_getitem_in_range repos indices (parse_indices_range _ _ _ _ Hparse))
    as (selected & Hrun & Hsel).
  pose proof (Forall2_length _ _ _ Hsel) as Hlen.
  exists selected. split; [exact Hrun|]. split; [exact Hsel|]. split; [congruence|].
  split; [exact (parse_indices_NoDup _ _ _ _ Hparse)|].
  pose proof (parse_indices_length _ _ _ _ Hparse). lia.
Qed.

Lemma selection_never_out_of_range_witness :
  exists selected_repos,
    (forall h, comprehension (getitem ten_repos) [1; 3; 4; 5] h = (Return selected_repos, [])) /\
    Forall2 (fun i repo => ten_repos !! Z.to_nat i = Some repo) [1; 3; 4; 5] selected_repos /\
    length selected_repos = length [1; 3; 4; 5] /\
    NoDup [1; 3; 4; 5] /\
    (length selected_repos <= length ten_repos)%nat.
Proof.
  apply (selection_never_out_of_range example_machine ten_repos "2,4-6" [1; 3; 4; 5]).
  reflexivity.
Defined.

(** ** A listing that never ends *)

Section EndlessListing.
Variable w : World.
Variable self : GitHubClient.
Hypothesis Hquiet : interrupt_at w = None.
Hypothesis Hendless :
  forall page, 1 <= page ->
    exists data, data <> [] /\ page_of (api_get w (repos_url page 100)) = Some data.

Lemma get_repositories_from_endless fuel :
  forall repos page h,
    1 <= page ->
    (get_repositories_from w self fuel repos page h).1 = Diverges /\
    (get_repositories_from w self fuel repos page h).2 =
      page_request w self <$> seqZ page (Z.of_nat fuel).
Proof.
  induction fuel as [|fuel IH]; intros repos page h Hpage; [split; reflexivity|].
  destruct (Hendless page Hpage) as (data & Hdata & Hpage_of).
  apply page_of_Some in Hpage_of as (response & Hanswer & Hstatus & Hjson).
  cbn [get_repositories_from]. unfold bind.
  rewrite get_repositories_turn_eq by (apply interrupt_due_None, Hquiet).
  rewrite Hanswer, Hstatus, Hjson. cbn [Z.eqb Pos.eqb negb].
  change (negb (200 =? 200)) with false. cbv iota.
  destruct data as [|repo data]; [congruence|].
  destruct (IH (repos ++ repo :: data) (page + 1) (h ++ [page_request w self page])
              ltac:(lia)) as [Hr Ht].
  destruct (get_repositories_from w self fuel _ _ _) as [r t]. cbn [fst snd] in *.
  subst r t. split; [reflexivity|].
  rewrite (seqZ_cons page) by lia. rewrite fmap_cons. f_equal. f_equal.
  f_equal; lia.
Qed.
End EndlessListing.

(** X7: [get_repositories] has no bound on the number of pages: against an
    endpoint that answers every page with a non-empty page, the loop is
    still running after any number of turns, having requested the pages
    1, 2, 3, ... in order. *)
Theorem get_repositories_has_no_page_limit (w : World) (self : GitHubClient)
    (fuel : nat) (h : Trace)
    (Hquiet : interrupt_at w = None)
    (Hendless :
       forall page, 1 <= page ->
         exists data, data <> [] /\ page_of (api_get w (repos_url page 100)) = Some data) :
  get_repositories w self fuel h =
    (Diverges, page_request w self <$> seqZ 1 (Z.of_nat fuel)).
Proof.
  destruct (get_repositories_from_endless w self Hquiet Hendless fuel [] 1 h ltac:(lia))
    as [Hr Ht].
  unfold get_repositories. destruct (get_repositories_from w self fuel [] 1 h) as [r t].
  simpl in Hr, Ht. subst r t. reflexivity.
Qed.

Lemma get_repositories_has_no_page_limit_witness :
  get_repositories (with_api_get example_world (fun _ => page_answer test_page))
      test_client 7 [] =
    (Diverges,
     page_request (with_api_get example_world (fun _ => page_answer test_page)) test_client
       <$> seqZ 1 (Z.of_nat 7)).
Proof.
  apply (get_repositories_has_no_page_limit
           (with_api_get example_world (fun _ => page_answer test_page)) test_client 7 []).
  - reflexivity.
  - intros page _. exists test_page. split; [discriminate|reflexivity].
Defined.

(** ** The workflow: commands, headers and the session *)

Lemma emits_bind_returned {A B} (C : Event -> Prop) (V : A -> Prop) (m : M A) (f : A -> M B) :
  emits C m ->
  (forall h a, (m h).1 = Return a -> V a) ->
  (forall a, V a -> emits C (f a)) ->
  emits C (bind m f).
Proof.
  intros Hm Hv Hf h. unfold bind. specialize (Hm h). specialize (Hv h).
  destruct (m h) as [[a|x|] e1]; cbn [fst snd] in *; try exact Hm.
  specialize (Hf a (Hv a eq_refl) (h ++ e1)).
  destruct (f a (h ++ e1)) as [r e2]. cbn [snd] in *.
  apply Forall_app. split; assumption.
Qed.

Section Issued.
Variable w : World.
Variable client : GitHubClient.

Let C := issued w (headers (session client)).

Lemma issued_print_end text end_ : emits C (print_end w text end_).
Proof. apply emits_perform; [exact I|intros h; exact I]. Qed.

Lemma issued_print text : emits C (print w text).
Proof. apply issued_print_end. Qed.

Lemma issued_input prompt : emits C (input w prompt).
Proof. apply emits_perform; [exact I|intros h; exact I]. Qed.

Lemma issued_clear_screen : emits C (clear_screen w).
Proof. unfold clear_screen. apply emits_system; [reflexivity|exact I]. Qed.

Lemma issued_session_get url : emits C (session_get w (session client) url).
Proof. apply emits_perform; [exact I|intros h; reflexivity]. Qed.

Lemma issued_session_delete url : emits C (session_delete w (session client) url).
Proof. apply emits_perform; [exact I|intros h; reflexivity]. Qed.

#[local] Hint Resolve issued_print_end issued_print issued_input issued_clear_screen
  issued_session_get issued_session_delete : emits.

Lemma issued_get_repositories fuel : emits C (get_repositories w client fuel).
Proof.
  unfold get_repositories. generalize (@nil Repository) 1.
  induction fuel as [|fuel IH]; intros repos page; cbn [get_repositories_from];
    [apply emits_diverges|].
  emits_step; [unfold get_repositories_turn; repeat emits_step|].
  emits_step; [apply emits_ret|apply IH].
Qed.

Lemma issued_delete_selected selected_repos success_count :
  emits C (delete_selected w client selected_repos success_count).
Proof.
  revert success_count.
  induction selected_repos as [|repo rest IH]; intros success_count; cbn [delete_selected].
  - apply emits_ret.
  - cbv zeta. emits_step; [emits_step|].
    emits_step; [unfold delete_repository; repeat emits_step|].
    emits_step; [repeat emits_step|apply IH].
Qed.

Lemma issued_display_repositories repos : emits C (display_repositories w repos).
Proof. unfold display_repositories. repeat emits_step. Qed.

Lemma issued_confirm_deletion repos : emits C (confirm_deletion w repos).
Proof. unfold confirm_deletion. repeat emits_step. Qed.

#[local] Hint Resolve issued_get_repositories issued_delete_selected
  issued_display_repositories issued_confirm_deletion : emits.

Lemma issued_main_with fuel : emits C (main_with w client fuel).
Proof. unfold main_with. repeat emits_step. Qed.
End Issued.

Lemma sanctioned_of_issued w token ev :
  token_of w = Some token -> token <> "" ->
  issued w (headers (session (GitHubClient_init token))) ev -> sanctioned w ev.
Proof.
  intros Htoken Hne. destruct ev; cbn; try tauto; intros ->; exists token; auto.
Qed.

Section Sanctioned.
Variable w : World.

Lemma sanctioned_print_end text end_ : emits (sanctioned w) (print_end w text end_).
Proof. apply emits_perform; [exact I|intros h; exact I]. Qed.

Lemma sanctioned_print text : emits (sanctioned w) (print w text).
Proof. apply sanctioned_print_end. Qed.

Lemma sanctioned_getenv var : emits (sanctioned w) (getenv w var).
Proof. apply emits_perform; [exact I|intros h; exact I]. Qed.

Lemma sanctioned_getpass prompt : emits (sanctioned w) (getpass w prompt).
Proof. apply emits_perform; [exact I|intros h; exact I]. Qed.

Lemma sanctioned_clear_screen : emits (sanctioned w) (clear_screen w).
Proof. unfold clear_screen. apply emits_system; [reflexivity|exact I]. Qed.

Lemma sanctioned_session_close s : emits (sanctioned w) (session_close w s).
Proof. apply emits_perform; [exact I|intros h; exact I]. Qed.

#[local] Hint Resolve sanctioned_print_end sanctioned_print sanctioned_getenv
  sanctioned_getpass sanctioned_clear_screen sanctioned_session_close : emits.

Lemma getenv_returned var h a : (getenv w var h).1 = Return a -> a = environ w var.
Proof.
  unfold getenv, perform. destruct (interrupt_due w h); cbn; [discriminate|congruence].
Qed.

Lemma getpass_returned prompt h a :
  (getpass w prompt h).1 = Return a -> getpass_line w = Some a.
Proof.
  unfold getpass, perform. destruct (interrupt_due w h); cbn; [discriminate|].
  destruct (getpass_line w); cbn; [congruence|discriminate].
Qed.

(** The token [main] goes on with is the token of the run. *)
Lemma token_returned h token :
  (match environ w "GITHUB_TOKEN" with
   | Some (String c s) => ret (String c s)
   | _ => getpass w "Enter your GitHub Personal Access Token: "
   end h).1 = Return token ->
  token_of w = Some token.
Proof.
  unfold token_of. destruct (environ w "GITHUB_TOKEN") as [[|c s]|].
  - apply getpass_returned.
  - cbn. congruence.
  - apply getpass_returned.
Qed.

Lemma sanctioned_main fuel : emits (sanctioned w) (main w fuel).
Proof.
  unfold main. do 4 (emits_step; [emits_step|]).
  apply (emits_bind_returned _ (fun v => v = environ w "GITHUB_TOKEN"));
    [emits_step|intros ? ?; apply getenv_returned|intros env_token ->].
  apply (emits_bind_returned _ (fun token => token_of w = Some token));
    [repeat emits_step|intros ? ?; apply token_returned|intros token Htoken].
  destruct (String.eqb_spec token "") as [_|Hne]; [emits_step|].
  emits_step; [emits_step|]. cbv zeta. apply emits_finally.
  - eapply emits_weaken; [|apply issued_main_with].
    intros ev. apply sanctioned_of_issued; assumption.
  - unfold GitHubClient_exit. emits_step.
Qed.

Lemma sanctioned_run fuel : emits (sanctioned w) (run w fuel).
Proof.
  unfold run. emits_step; [apply sanctioned_main|]. repeat emits_step.
Qed.
End Sanctioned.

(** X8: the only command a run ever passes to [os.system] is the one that
    clears the screen, [cls] on Windows and [clear] elsewhere: nothing that
    was read or fetched reaches the shell. *)
Theorem only_the_clear_command_is_run (w : World) (fuel : nat) :
  Forall (fun ev => forall command,
            ev = EvSystem command ->
            (os_name w = "nt" /\ command = "cls") \/
            (os_name w <> "nt" /\ command = "clear"))
         (run w fuel []).2.
Proof.
  eapply Forall_impl; [apply (sanctioned_run w fuel [])|].
  intros ev Hev command ->. cbn in Hev.
  destruct (String.eqb_spec (os_name w) "nt"); auto.
Qed.

(** X9: every request of a run, listing or delete, is sent with the two
    headers the client was made with, [Authorization: token <token>] and
    [Accept], where the token is the one of the environment when it is set
    and not empty and else the one typed at the prompt, and is not empty;
    a run without a token makes no request. *)
Theorem every_request_carries_the_token (w : World) (fuel : nat) :
  Forall (fun ev => forall hdrs,
            request_headers ev = Some hdrs ->
            exists token,
              token_of w = Some token /\ token <> "" /\
              hdrs = [("Authorization", "token " +:+ token);
                      ("Accept", "application/vnd.github.v3+json")])
         (run w fuel []).2 /\
  (token_of w = None \/ token_of w = Some "" ->
   Forall (fun ev => request_headers ev = None) (run w fuel []).2).
Proof.
  pose proof (sanctioned_run w fuel []) as Hrun. split.
  - eapply Forall_impl; [exact Hrun|].
    intros ev Hev hdrs Hhdrs. destruct ev; try discriminate; injection Hhdrs as <-; exact Hev.
  - intros Hnone. eapply Forall_impl; [exact Hrun|].
    intros ev Hev. destruct ev; try reflexivity;
      destruct Hev as (token & Htoken & Hne & _); destruct Hnone; congruence.
Qed.

Section Closing.
Variable w : World.

Lemma unopened_print_end text end_ : emits unopened (print_end w text end_).
Proof. apply emits_perform; [split; [reflexivity|discriminate]|intros h; split; [reflexivity|discriminate]]. Qed.

Lemma unopened_print text : emits unopened (print w text).
Proof. apply unopened_print_end. Qed.

Lemma unopened_getenv var : emits unopened (getenv w var).
Proof. apply emits_perform; [split; [reflexivity|discriminate]|intros h; split; [reflexivity|discriminate]]. Qed.

Lemma unopened_getpass prompt : emits unopened (getpass w prompt).
Proof. apply emits_perform; [split; [reflexivity|discriminate]|intros h; split; [reflexivity|discriminate]]. Qed.

Lemma unopened_clear_screen : emits unopened (clear_screen w).
Proof. unfold clear_screen. apply emits_system; (split; [reflexivity|discriminate]). Qed.

#[local] Hint Resolve unopened_print_end unopened_print unopened_getenv unopened_getpass
  unopened_clear_screen : emits.

Lemma hoare_bind_unopened {A B} (m : M A) (f : A -> M B) (Q : Result B -> Trace -> Prop) :
  emits unopened m ->
  (forall a, hoare (Forall unopened) (f a) Q) ->
  (forall r h, Forall unopened h -> Q r h) ->
  hoare (Forall unopened) (bind m f) Q.
Proof.
  intros Hm Hf Hq.
  apply (hoare_bind _ (fun _ h => Forall unopened h)); [|exact Hf|intros; apply Hq; assumption..].
  apply (hoare_emits unopened); [exact Hm|].
  intros h ev Hev Hh. apply Forall_app. split; [exact Hh|]. repeat constructor; apply Hev.
Qed.

Lemma issued_not_close hdrs ev : issued w hdrs ev -> ev <> EvClose.
Proof. intros Hev ->. exact Hev. Qed.

Lemma unopened_not_close ev : unopened ev -> ev <> EvClose.
Proof. intros [_ H]. exact H. Qed.

Lemma hoare_main_closes fuel :
  hoare (Forall unopened) (main w fuel)
        (fun r h => Forall unopened h \/ closed_last w h \/
                    (r = Diverges /\ Forall (fun ev => ev <> EvClose) h)).
Proof.
  unfold main.
  do 5 (apply hoare_bind_unopened; [auto with emits|intros ?|auto]).
  apply hoare_bind_unopened; [repeat emits_step|intros token|auto].
  destruct (String.eqb token "").
  { eapply hoare_consequence;
      [apply (hoare_emits unopened _ (Forall unopened)); [auto with emits|]|auto|auto].
    intros h ev Hev Hh. apply Forall_app. split; [exact Hh|]. repeat constructor; apply Hev. }
  apply hoare_bind_unopened; [auto with emits|intros ?|auto].
  cbv zeta.
  apply (hoare_finally _ (fun _ h => Forall (fun ev => ev <> EvClose) h)).
  - eapply hoare_consequence;
      [apply (hoare_emits (issued w (headers (session (GitHubClient_init token)))) _
                (Forall (fun ev => ev <> EvClose))); [apply issued_main_with|]| |auto].
    + intros h ev Hev Hh. apply Forall_app. split; [exact Hh|].
      repeat constructor. eapply issued_not_close, Hev.
    + intros h Hh. eapply Forall_impl; [exact Hh|]. apply unopened_not_close.
  - intros h Hh. right. right. auto.
  - intros r Hr. apply hoare_perform; intros h Hh Hdue; cbn [fst snd]; right; left.
    + exists h. split; [exact Hh|]. right. split; [reflexivity|].
      unfold interrupt_due in Hdue. destruct (interrupt_at w) as [k|]; [|discriminate].
      apply Nat.eqb_eq in Hdue. congruence.
    + exists h. split; [exact Hh|]. left. reflexivity.
Qed.

Lemma main_closes fuel :
  Forall unopened (main w fuel []).2 \/ closed_last w (main w fuel []).2 \/
  ((main w fuel []).1 = Diverges /\ Forall (fun ev => ev <> EvClose) (main w fuel []).2).
Proof. exact (hoare_main_closes fuel [] (Forall_nil_2 _)). Qed.
End Closing.

Lemma close_is_last (body pre post : Trace) :
  Forall (fun ev => ev <> EvClose) body ->
  pre ++ EvClose :: post = body ++ [EvClose] -> pre = body /\ post = [].
Proof.
  revert pre. induction body as [|ev body IH]; intros pre Hbody Heq.
  - destruct pre as [|ev' pre]; [injection Heq as <-; auto|].
    injection Heq as _ Heq. destruct pre; discriminate.
  - apply Forall_cons in Hbody as [Hev Hbody].
    destruct pre as [|ev' pre]; [injection Heq as <- _; congruence|].
    injection Heq as <- Heq. destruct (IH pre Hbody Heq) as [-> ->]. auto.
Qed.

(** X10: the session is closed on the way out of the [with] block and
    nowhere else: in the trace of [main], a [close] is the last event and
    there is one at most; and once a request was made and [main] has
    ended, the trace ends with the [close], or with the interrupt that
    took its place. *)
Theorem session_is_closed_last (w : World) (fuel : nat) :
  (forall pre post,
     (main w fuel []).2 = pre ++ EvClose :: post -> post = [] /\ EvClose ∉ pre) /\
  ((main w fuel []).1 <> Diverges ->
   (exists ev, ev ∈ (main w fuel []).2 /\ request_headers ev <> None) ->
   closed_last w (main w fuel []).2) /\
  ((main w fuel []).1 <> Diverges ->
   interrupt_at w = None ->
   (exists ev, ev ∈ (main w fuel []).2 /\ request_headers ev <> None) ->
   last (main w fuel []).2 = Some EvClose).
Proof.
  pose proof (main_closes w fuel) as Hmain.
  assert ((main w fuel []).1 <> Diverges ->
          (exists ev, ev ∈ (main w fuel []).2 /\ request_headers ev <> None) ->
          closed_last w (main w fuel []).2) as Hclosed.
  { intros Hr (ev & Hin & Hreq). destruct Hmain as [Hu|[Hc|[Hd _]]]; [|exact Hc|congruence].
    rewrite Forall_forall in Hu. destruct (Hu ev Hin) as [Hnone _]. congruence. }
  split; [|split; [exact Hclosed|]].
  - intros pre post Heq.
    assert (EvClose ∈ (main w fuel []).2) as Hin
      by (rewrite Heq; apply elem_of_app; right; left).
    destruct Hmain as [Hu|[(body & Hbody & [Hc|[Hi _]])|[_ Hd]]].
    + rewrite Forall_forall in Hu. destruct (Hu _ Hin) as [_ Hne]. congruence.
    + rewrite Hc in Heq. symmetry in Heq.
      destruct (close_is_last body pre post Hbody Heq) as [-> ->].
      split; [reflexivity|]. intros Hpre. rewrite Forall_forall in Hbody.
      exact (Hbody _ Hpre eq_refl).
    + rewrite Hi in Hin. apply elem_of_app in Hin as [Hin|Hin].
      * rewrite Forall_forall in Hbody. destruct (Hbody _ Hin eq_refl).
      * apply list_elem_of_singleton in Hin. discriminate.
    + rewrite Forall_forall in Hd. destruct (Hd _ Hin eq_refl).
  - intros Hr Hquiet Hreq.
    destruct (Hclosed Hr Hreq) as (body & _ & [->|[_ Hat]]); [|congruence].
    apply last_snoc.
Qed.

(** ** The workflow: a run without a token *)

Lemma token_of_getpass w :
  token_of w = None \/ token_of w = Some "" ->
  token_of w = getpass_line w /\
  (environ w "GITHUB_TOKEN" = None \/ environ w "GITHUB_TOKEN" = Some "").
Proof.
  unfold token_of. destruct (environ w "GITHUB_TOKEN") as [[|c s]|]; auto.
  intros [|]; discriminate.
Qed.

(** X11: a run that gets no token stops before it clears the screen or
    makes a client. With the variable unset or empty and an empty line at
    the prompt, it prints the banner, looks the variable up, prompts,
    prints that a token is required and returns (exit status 0); with the
    prompt at end of file, the [EOFError] of [getpass] ends it. *)
Theorem run_without_token (w : World) (fuel : nat) (Hquiet : interrupt_at w = None) :
  (token_of w = Some "" ->
   run w fuel [] =
     (Return tt,
      [EvPrint ("GitHub Repository Bulk Deletion Tool" +:+ nl);
       EvPrint ("=====================================" +:+ nl);
       EvPrint ("WARNING: This action is irreversible!" +:+ nl);
       EvPrint ("Please be absolutely sure before proceeding." +:+ nl +:+ nl);
       EvGetenv "GITHUB_TOKEN" (environ w "GITHUB_TOKEN");
       EvGetpass "Enter your GitHub Personal Access Token: " (Some "");
       EvPrint ("Error: GitHub token is required." +:+ nl)])) /\
  (token_of w = None ->
   run w fuel [] =
     (Raise EOFError,
      [EvPrint ("GitHub Repository Bulk Deletion Tool" +:+ nl);
       EvPrint ("=====================================" +:+ nl);
       EvPrint ("WARNING: This action is irreversible!" +:+ nl);
       EvPrint ("Please be absolutely sure before proceeding." +:+ nl +:+ nl);
       EvGetenv "GITHUB_TOKEN" (environ w "GITHUB_TOKEN");
       EvGetpass "Enter your GitHub Personal Access Token: " None]) /\
   exit_status (run w fuel []).1 = Some 1).
Proof.
  assert (forall line,
            token_of w = line -> line = None \/ line = Some "" ->
            run w fuel [] =
              (match line with
               | Some _ => Return tt
               | None => Raise EOFError
               end,
               [EvPrint ("GitHub Repository Bulk Deletion Tool" +:+ nl);
                EvPrint ("=====================================" +:+ nl);
                EvPrint ("WARNING: This action is irreversible!" +:+ nl);
                EvPrint ("Please be absolutely sure before proceeding." +:+ nl +:+ nl);
                EvGetenv "GITHUB_TOKEN" (environ w "GITHUB_TOKEN");
                EvGetpass "Enter your GitHub Personal Access Token: " line] ++
               match line with
               | Some _ => [EvPrint ("Error: GitHub token is required." +:+ nl)]
               | None => []
               end)) as Hrun.
  { intros line Htoken Hline.
    destruct (token_of_getpass w ltac:(rewrite Htoken; exact Hline)) as [Hpass Henv].
    rewrite Htoken in Hpass.
    unfold run, try_except, main, bind, print, print_end, getenv.
    rewrite !(perform_quiet w Hquiet). cbn [fst snd app].
    assert ((match environ w "GITHUB_TOKEN" with
             | Some (String c s) => ret (String c s)
             | _ => getpass w "Enter your GitHub Personal Access Token: "
             end) = getpass w "Enter your GitHub Personal Access Token: ") as ->
      by (destruct Henv as [-> | ->]; reflexivity).
    unfold getpass. rewrite !(perform_quiet w Hquiet). cbn [fst snd app].
    rewrite <- Hpass. destruct Hline as [-> | ->]; cbn [of_line]; [reflexivity|].
    cbn [String.eqb]. rewrite !(perform_quiet w Hquiet). reflexivity. }
  split.
  - intros Htoken. exact (Hrun (Some "") Htoken (or_intror eq_refl)).
  - intros Htoken. rewrite (Hrun None Htoken (or_introl eq_refl)). split; reflexivity.
Qed.

Lemma run_without_token_witness :
  (token_of tokenless_world = Some "" ->
   run tokenless_world 3 [] =
     (Return tt,
      [EvPrint ("GitHub Repository Bulk Deletion Tool" +:+ nl);
       EvPrint ("=====================================" +:+ nl);
       EvPrint ("WARNING: This action is irreversible!" +:+ nl);
       EvPrint ("Please be absolutely sure before proceeding." +:+ nl +:+ nl);
       EvGetenv "GITHUB_TOKEN" (environ tokenless_world "GITHUB_TOKEN");
       EvGetpass "Enter your GitHub Personal Access Token: " (Some "");
       EvPrint ("Error: GitHub token is required." +:+ nl)])) /\
  (token_of tokenless_world = None ->
   run tokenless_world 3 [] =
     (Raise EOFError,
      [EvPrint ("GitHub Repository Bulk Deletion Tool" +:+ nl);
       EvPrint ("=====================================" +:+ nl);
       EvPrint ("WARNING: This action is irreversible!" +:+ nl);
       EvPrint ("Please be absolutely sure before proceeding." +:+ nl +:+ nl);
       EvGetenv "GITHUB_TOKEN" (environ tokenless_world "GITHUB_TOKEN");
       EvGetpass "Enter your GitHub Personal Access Token: " None]) /\
   exit_status (run tokenless_world 3 []).1 = Some 1).
Proof. apply (run_without_token tokenless_world 3). reflexivity. Defined.

(** ** The workflow: how a run ends *)

Create HintDb behaves.

Section Behaves.
Variable w : World.

Lemma waiting_nil : waiting w [].
Proof. split; [left; apply pending_nil|apply not_elem_of_nil]. Qed.

Lemma due_rank h : interrupt_due w h = true -> interrupt_at w = Some (length h).
Proof.
  unfold interrupt_due. destruct (interrupt_at w) as [k|]; [|discriminate].
  intros Hdue. apply Nat.eqb_eq in Hdue. congruence.
Qed.

Lemma past_not_due h k : interrupt_at w = Some k -> (k < length h)%nat -> interrupt_due w h = false.
Proof. intros Hat Hk. unfold interrupt_due. rewrite Hat. apply Nat.eqb_neq. lia. Qed.

Lemma unheard_not_due h : unheard w h -> interrupt_due w h = false.
Proof.
  intros (k & command & Hat & Hlook & _). apply (past_not_due h k Hat).
  exact (lookup_lt_Some _ _ _ Hlook).
Qed.

Lemma unheard_app h e : unheard w h -> unheard w (h ++ e).
Proof.
  intros (k & command & Hat & Hlook & Hrest). exists k, command.
  split; [exact Hat|]. split; [apply lookup_app_l_Some, Hlook|exact Hrest].
Qed.

Lemma not_elem_of_snoc (h : Trace) ev : EvInterrupt ∉ h -> ev <> EvInterrupt -> EvInterrupt ∉ h ++ [ev].
Proof.
  intros Hn Hev. rewrite elem_of_app, list_elem_of_singleton.
  intros [H|H]; [exact (Hn H)|congruence].
Qed.

Lemma waiting_step h ev :
  waiting w h -> interrupt_due w h = false -> ev <> EvInterrupt -> waiting w (h ++ [ev]).
Proof.
  intros [[Hp|Hu] Hn] Hdue Hev; (split; [|apply not_elem_of_snoc; assumption]).
  - left. apply pending_step; assumption.
  - right. apply unheard_app, Hu.
Qed.

Lemma due_stopped h : waiting w h -> interrupt_due w h = true -> stopped w (h ++ [EvInterrupt]).
Proof.
  intros [_ Hn] Hdue. exists h. split; [reflexivity|]. split; [|exact Hn].
  left. apply due_rank, Hdue.
Qed.

Lemma struck_not_due pre e : struck w pre -> interrupt_due w (pre ++ EvInterrupt :: e) = false.
Proof.
  intros [Hat|(before & command & -> & Hat & _)];
    apply (past_not_due _ _ Hat); rewrite !length_app; simpl; lia.
Qed.

Lemma stopped_not_due h : stopped w h -> interrupt_due w h = false.
Proof. intros (pre & -> & Hat & _). exact (struck_not_due pre [] Hat). Qed.

Lemma cancelled_not_due h : cancelled w h -> interrupt_due w h = false.
Proof.
  intros [Hs|(h1 & -> & (pre & -> & Hat & _))]; [exact (stopped_not_due h Hs)|].
  rewrite <- app_assoc. exact (struck_not_due pre [EvClose] Hat).
Qed.

(** A command lets the interrupt through, or never hears of it. *)
Lemma behaves_system E command : behaves w E (system w command).
Proof.
  intros h Hh. rewrite system_eq. destruct (interrupt_due w h) eqn:Hdue.
  - destruct (interrupt_in_command w) eqn:Hin; [|exact (due_stopped h Hh Hdue)].
    destruct Hh as [_ Hn].
    destruct (String.eqb (os_name w) "nt") eqn:Hos; cbn [fst snd].
    + exists (h ++ [EvSystem command]). split; [rewrite <- app_assoc; reflexivity|].
      split; [|apply not_elem_of_snoc; [exact Hn|discriminate]].
      right. exists h, command. split; [reflexivity|].
      split; [apply due_rank, Hdue|auto].
    + split; [|apply not_elem_of_snoc; [exact Hn|discriminate]].
      right. exists (length h), command. split; [apply due_rank, Hdue|].
      split; [apply list_lookup_middle; reflexivity|auto].
  - cbn [fst snd]. apply waiting_step; [exact Hh|exact Hdue|discriminate].
Qed.

Lemma behaves_ret {A} E (a : A) : behaves w E (ret a).
Proof. apply hoare_ret. auto. Qed.

Lemma behaves_raise {A} (E : Exn -> Prop) x :
  x <> KeyboardInterrupt -> E x -> behaves w E (@raise A x).
Proof. intros Hx He. apply hoare_raise. intros h Hh. destruct x; try congruence; auto. Qed.

Lemma behaves_diverges {A} E : behaves w E (fun _ => (@Diverges A, [])).
Proof. intros h Hh. cbn. rewrite app_nil_r. exact Hh. Qed.

Lemma behaves_perform {A} (E : Exn -> Prop) (act : Trace -> Result A * Event) :
  (forall h, match (act h).1 with
             | Raise x => x <> KeyboardInterrupt /\ E x
             | _ => True
             end) ->
  (forall h, (act h).2 <> EvInterrupt) ->
  behaves w E (perform w act).
Proof.
  intros Hact Hev. apply hoare_perform; intros h Hh Hdue.
  - apply due_stopped; assumption.
  - specialize (Hact h). pose proof (waiting_step h _ Hh Hdue (Hev h)) as Hw.
    destruct (act h).1 as [a|x|]; [exact Hw| |exact Hw].
    destruct Hact as [Hx He]. destruct x; try congruence; auto.
Qed.

Lemma behaves_weaken {A} (E E' : Exn -> Prop) (m : M A) :
  (forall x, E x -> E' x) -> behaves w E m -> behaves w E' m.
Proof.
  intros Himpl Hm. eapply hoare_consequence; [exact Hm|auto|].
  intros [a|x|] h Hq; try exact Hq. destruct x; try exact Hq; destruct Hq; auto.
Qed.

Lemma behaves_bind {A B} E (m : M A) (f : A -> M B) :
  behaves w E m -> (forall a, behaves w E (f a)) -> behaves w E (bind m f).
Proof.
  intros Hm Hf. eapply hoare_bind; [exact Hm|exact Hf| |].
  - intros x h Hq. exact Hq.
  - intros h Hq. exact Hq.
Qed.

Lemma behaves_try_except {A} (E' E : Exn -> Prop) (m : M A) (handler : Exn -> option (M A)) :
  behaves w E' m ->
  handler KeyboardInterrupt = None ->
  (forall x, x <> KeyboardInterrupt -> E' x ->
     match handler x with
     | Some k => behaves w E k
     | None => E x
     end) ->
  behaves w E (try_except m handler).
Proof.
  intros Hm Hki Hhandler. eapply hoare_try_except; [exact Hm|auto|auto|].
  intros x.
  assert (x = KeyboardInterrupt \/ x <> KeyboardInterrupt) as [->|Hx]
    by (destruct x; auto; right; discriminate).
  - rewrite Hki. auto.
  - specialize (Hhandler x Hx). destruct (handler x) as [k|].
    + intros h Hq. assert (E' x /\ waiting w h) as [He Hw] by (destruct x; auto; congruence).
      exact (Hhandler He h Hw).
    + intros h Hq. assert (E' x /\ waiting w h) as [He Hw] by (destruct x; auto; congruence).
      destruct x; auto; congruence.
Qed.

Lemma behaves_for_each {A} E (l : list A) (body : A -> M unit) :
  (forall x, behaves w E (body x)) -> behaves w E (for_each l body).
Proof.
  intros Hbody. induction l as [|x l IH]; cbn [for_each].
  - apply behaves_ret.
  - apply behaves_bind; auto.
Qed.

Lemma behaves_selection {A} E (l : list A) indices :
  Forall (fun i => 0 <= i <= Z.of_nat (length l) - 1) indices ->
  behaves w E (comprehension (getitem l) indices).
Proof.
  intros Hrange h Hh.
  destruct (comprehension_getitem_in_range l indices Hrange) as (selected & Hrun & _).
  rewrite Hrun. cbn. rewrite app_nil_r. exact Hh.
Qed.
End Behaves.

#[local] Hint Resolve behaves_ret behaves_diverges : behaves.

Ltac behaves_step :=
  lazymatch goal with
  | |- behaves _ _ (bind _ _) => apply behaves_bind; [|intros ?]
  | |- behaves _ _ (for_each _ _) => apply behaves_for_each; intros ?
  | |- behaves _ _ (match ?x with _ => _ end) => destruct x
  | |- behaves _ _ (let _ := _ in _) => cbv zeta
  | |- _ => solve [auto with behaves]
  end.

Section BehavesProgram.
Variable w : World.
Variable E : Exn -> Prop.

Lemma behaves_print_end text end_ : behaves w E (print_end w text end_).
Proof. apply behaves_perform; intros h; [exact I|discriminate]. Qed.

Lemma behaves_print text : behaves w E (print w text).
Proof. apply behaves_print_end. Qed.

Lemma behaves_getenv var : behaves w E (getenv w var).
Proof. apply behaves_perform; intros h; [exact I|discriminate]. Qed.

Lemma behaves_clear_screen : behaves w E (clear_screen w).
Proof. unfold clear_screen. apply behaves_system. Qed.

Lemma behaves_session_close s : behaves w E (session_close w s).
Proof. apply behaves_perform; intros h; [exact I|discriminate]. Qed.

Lemma behaves_getpass prompt : E EOFError -> behaves w E (getpass w prompt).
Proof.
  intros He. apply behaves_perform; intros h; [|discriminate].
  cbn. destruct (getpass_line w); cbn; [exact I|split; [discriminate|exact He]].
Qed.

Lemma behaves_input prompt : E EOFError -> behaves w E (input w prompt).
Proof.
  intros He. apply behaves_perform; intros h; [|discriminate].
  cbn. destruct (nth_error _ _); cbn; [exact I|split; [discriminate|exact He]].
Qed.

Lemma behaves_session_get s url :
  (forall e, E (RequestException e)) -> behaves w E (session_get w s url).
Proof.
  intros He. apply behaves_perform; intros h; [|discriminate].
  cbn. destruct (api_get w url); cbn; [exact I|split; [discriminate|apply He]].
Qed.

Lemma behaves_session_delete s url :
  (forall e, E (RequestException e)) -> behaves w E (session_delete w s url).
Proof.
  intros He. apply behaves_perform; intros h; [|discriminate].
  cbn. destruct (api_delete w h url); cbn; [exact I|split; [discriminate|apply He]].
Qed.
End BehavesProgram.

#[local] Hint Resolve behaves_print_end behaves_print behaves_getenv behaves_clear_screen
  behaves_session_close : behaves.

Section BehavesWorkflow.
Variable w : World.

Lemma behaves_get_repositories self fuel :
  behaves w (fun x => exists msg, x = GitHubError msg) (get_repositories w self fuel).
Proof.
  unfold get_repositories. generalize (@nil Repository) 1.
  induction fuel as [|fuel IH]; intros repos page; cbn [get_repositories_from];
    [apply behaves_diverges|].
  behaves_step; [|behaves_step; [behaves_step|apply IH]].
  unfold get_repositories_turn. cbv zeta.
  apply (behaves_try_except w
           (fun x => (exists e, x = RequestException e) \/ (exists msg, x = GitHubError msg)));
    [|reflexivity|].
  - behaves_step; [apply behaves_session_get; eauto|].
    destruct (negb _); [apply behaves_raise; [discriminate|eauto]|].
    repeat behaves_step.
  - intros x Hx [[e ->]|[msg ->]]; [|eauto].
    apply behaves_raise; [discriminate|eauto].
Qed.

Lemma behaves_delete_repository E self owner repo_name :
  behaves w E (delete_repository w self owner repo_name).
Proof.
  unfold delete_repository. cbv zeta.
  apply (behaves_try_except w (fun x => exists e, x = RequestException e)); [|reflexivity|].
  - behaves_step; [apply behaves_session_delete; eauto|behaves_step].
  - intros x Hx [e ->]. apply behaves_ret.
Qed.

Lemma behaves_delete_selected E client selected_repos success_count :
  behaves w E (delete_selected w client selected_repos success_count).
Proof.
  revert success_count.
  induction selected_repos as [|repo rest IH]; intros success_count; cbn [delete_selected].
  - apply behaves_ret.
  - cbv zeta. behaves_step; [behaves_step|].
    behaves_step; [apply behaves_delete_repository|].
    behaves_step; [repeat behaves_step|apply IH].
Qed.

Lemma behaves_display_repositories E repos : behaves w E (display_repositories w repos).
Proof. unfold display_repositories. repeat behaves_step. Qed.

Lemma behaves_confirm_deletion E repos :
  E EOFError -> behaves w E (confirm_deletion w repos).
Proof.
  intros He. unfold confirm_deletion. do 3 (behaves_step; [repeat behaves_step|]).
  behaves_step; [apply behaves_input, He|behaves_step].
Qed.

Lemma behaves_main_with client fuel :
  behaves w escapes (main_with w client fuel).
Proof.
  unfold main_with. apply behaves_bind; [|intros fetched].
  { apply (behaves_try_except w (fun x => exists msg, x = GitHubError msg)); [|reflexivity|].
    - behaves_step; [behaves_step|].
      behaves_step; [apply behaves_get_repositories|behaves_step].
    - intros x Hx [msg ->]. repeat behaves_step. }
  destruct fetched as [repos|]; [|behaves_step].
  behaves_step; [behaves_step|].
  destruct repos as [|repo repos]; [behaves_step|].
  behaves_step; [behaves_step|].
  behaves_step; [apply behaves_display_repositories|].
  do 2 (behaves_step; [behaves_step|]).
  apply behaves_bind; [apply behaves_input; left; reflexivity|intros input_str].
  pose proof (parse_indices_outcome (machine w) input_str (Z.of_nat (length (repo :: repos))))
    as Hout.
  destruct (parse_indices _ _ _) as [[[|i indices]|]|e|] eqn:Hparse;
    [behaves_step| |behaves_step| |behaves_step].
  2: { apply behaves_raise; [destruct Hout as [-> | ->]; discriminate|].
       right. exact Hout. }
  behaves_step; [apply behaves_selection, (parse_indices_range _ _ _ _ Hparse)|].
  behaves_step; [behaves_step|].
  behaves_step; [apply behaves_confirm_deletion; left; reflexivity|].
  destruct (negb _); [behaves_step|].
  behaves_step; [behaves_step|].
  behaves_step; [apply behaves_delete_selected|behaves_step].
Qed.
End BehavesWorkflow.

Section Ending.
Variable w : World.

Lemma hoare_bind_ended {A B} E (m : M A) (f : A -> M B) :
  behaves w E m ->
  (forall a, hoare (waiting w) (f a) (ended w E)) ->
  hoare (waiting w) (bind m f) (ended w E).
Proof.
  intros Hm Hf. eapply hoare_bind; [exact Hm|exact Hf| |].
  - intros x h Hq. destruct x; try exact Hq. left. exact Hq.
  - intros h Hq. exact Hq.
Qed.

Lemma hoare_behaves_ended {A} E (m : M A) :
  behaves w E m -> hoare (waiting w) m (ended w E).
Proof.
  intros Hm. eapply hoare_consequence; [exact Hm|auto|].
  intros [a|x|] h Hq; try exact Hq. destruct x; try exact Hq. left. exact Hq.
Qed.

Lemma hoare_finally_close {A} E (m : M A) s :
  behaves w E m -> hoare (waiting w) (finally m (session_close w s)) (ended w E).
Proof.
  intros Hm. eapply hoare_finally; [exact Hm|auto|].
  intros r Hr. apply hoare_perform; intros h Hq Hdue; cbn [fst snd].
  - assert (waiting w h) as Hw.
    { destruct r as [a|x|]; [exact Hq| |congruence].
      destruct x; try (destruct Hq as [_ Hq]; exact Hq).
      rewrite stopped_not_due in Hdue by exact Hq. discriminate. }
    left. apply due_stopped; assumption.
  - destruct r as [a|x|]; [apply waiting_step; [assumption..|discriminate]| |congruence].
    destruct x; try (destruct Hq as [He Hq]; split;
                     [exact He|apply waiting_step; [assumption..|discriminate]]).
    right. exists h. auto.
Qed.

Lemma hoare_main_ended fuel :
  hoare (waiting w) (main w fuel) (ended w escapes).
Proof.
  unfold main.
  do 4 (apply hoare_bind_ended; [auto with behaves|intros ?]).
  apply hoare_bind_ended; [auto with behaves|intros env_token].
  apply hoare_bind_ended.
  { destruct env_token as [[|c s]|];
      [apply behaves_getpass; left; reflexivity|apply behaves_ret
      |apply behaves_getpass; left; reflexivity]. }
  intros token. destruct (String.eqb token ""); [apply hoare_behaves_ended; auto with behaves|].
  apply hoare_bind_ended; [auto with behaves|intros ?].
  cbv zeta. apply hoare_finally_close, behaves_main_with.
Qed.

Lemma hoare_run_ended fuel : hoare (waiting w) (run w fuel) (run_ended w).
Proof.
  unfold run. eapply hoare_try_except; [apply hoare_main_ended| | |].
  - intros a h Hq. exact Hq.
  - intros h Hq. exact Hq.
  - intros x. destruct x; try (intros h Hq; exact Hq).
    + intros h Hc. unfold bind, print, print_end.
      rewrite perform_eq by (apply cancelled_not_due, Hc).
      cbn [fst snd sys_exit raise app run_ended]. split; [reflexivity|]. exists h. auto.
    + intros h [[Hx|[Hx|Hx]] _]; discriminate.
Qed.

Lemma run_ends fuel : run_ended w (run w fuel []).1 (run w fuel []).2.
Proof. exact (hoare_run_ended fuel [] (waiting_nil w)). Qed.
End Ending.

Lemma unique_split {A} (x : A) (a b pre post : list A) :
  x ∉ a -> x ∉ b -> a ++ x :: b = pre ++ x :: post -> pre = a /\ post = b.
Proof.
  intros Ha Hb. revert pre. induction a as [|y a IH]; intros pre Heq.
  - destruct pre as [|z pre]; [injection Heq as ->; auto|].
    injection Heq as _ ->. destruct Hb. apply elem_of_app. right. left.
  - destruct pre as [|z pre].
    + injection Heq as -> _. destruct Ha. left.
    + injection Heq as <- Heq.
      destruct (IH ltac:(intros H; apply Ha; right; exact H) pre Heq) as [-> ->]. auto.
Qed.

(** ** The interrupt *)

Lemma struck_rank w pre e :
  struck w pre ->
  exists k, interrupt_at w = Some k /\
    ((pre ++ EvInterrupt :: e) !! k = Some EvInterrupt \/
     exists command,
       (pre ++ EvInterrupt :: e) !! k = Some (EvSystem command) /\
       (pre ++ EvInterrupt :: e) !! S k = Some EvInterrupt).
Proof.
  intros [Hat|(before & command & -> & Hat & _)].
  - exists (length pre). split; [exact Hat|]. left. apply list_lookup_middle. reflexivity.
  - exists (length before). split; [exact Hat|]. right. exists command.
    rewrite <- app_assoc. cbn [app]. split; [apply list_lookup_middle; reflexivity|].
    change (before ++ EvSystem command :: EvInterrupt :: e)
      with (before ++ [EvSystem command] ++ EvInterrupt :: e).
    rewrite app_assoc. rewrite list_lookup_middle; [reflexivity|].
    rewrite length_app. simpl. lia.
Qed.

Lemma cancelled_rank w h e :
  cancelled w h ->
  EvInterrupt ∈ h /\
  exists k, interrupt_at w = Some k /\
    ((h ++ e) !! k = Some EvInterrupt \/
     exists command,
       (h ++ e) !! k = Some (EvSystem command) /\ (h ++ e) !! S k = Some EvInterrupt).
Proof.
  intros [(pre & -> & Hs & _)|(h1 & -> & (pre & -> & Hs & _))].
  - split; [apply elem_of_app; right; left|].
    rewrite <- app_assoc. exact (struck_rank w pre e Hs).
  - split; [rewrite !elem_of_app, !list_elem_of_singleton; auto|].
    rewrite <- !app_assoc. exact (struck_rank w pre _ Hs).
Qed.

(** How [run] ends when [main] is ended by the interrupt. *)
Lemma run_cancelled w fuel :
  (main w fuel []).1 = Raise KeyboardInterrupt ->
  run w fuel [] =
    (Raise (SystemExit 0),
     (main w fuel []).2 ++ [EvPrint (cancelled_msg +:+ nl)]).
Proof.
  intros Hmain. pose proof (hoare_main_ended w fuel [] (waiting_nil w)) as Hended.
  rewrite Hmain in Hended. cbn [ended app] in Hended.
  unfold run, try_except. destruct (main w fuel []) as [r T]. cbn [fst snd] in *. subst r.
  cbn [app]. unfold bind, print, print_end.
  rewrite perform_eq by (apply cancelled_not_due, Hended). reflexivity.
Qed.

(** How [run] ends when [main] is not ended by the interrupt. *)
Lemma run_not_cancelled w fuel :
  (main w fuel []).1 <> Raise KeyboardInterrupt -> run w fuel [] = main w fuel [].
Proof.
  intros Hmain. unfold run, try_except. destruct (main w fuel []) as [[a|x|] T];
    [reflexivity| |reflexivity].
  destruct x; try reflexivity. destruct (Hmain eq_refl).
Qed.

(** C9: when the user's interrupt falls within the run, at whatever effect
    (the [k]-th, for any [k] below the length of the run's trace), and the
    program hears of it (it does unless the interrupt comes while a
    command of [os.system] runs on a system other than Windows), nothing
    in [main] catches the [KeyboardInterrupt], and [run] prints the
    cancellation message, a blank line and [Operation cancelled by user.
    Exiting...], after everything [main] did and ends with [sys.exit(0)]:
    the process exits with status 0. The interrupt stands in the trace in
    place of the effect, or right after the command that was running. *)
Theorem interrupt_exits_cleanly (w : World) (fuel k : nat)
    (Hscheduled : interrupt_at w = Some k)
    (Hduring : (k < length (run w fuel []).2)%nat)
    (Hheard : interrupt_in_command w = false \/ os_name w = "nt" \/
              forall command, (run w fuel []).2 !! k <> Some (EvSystem command)) :
  (run w fuel []).1 = Raise (SystemExit 0) /\
  exit_status (run w fuel []).1 = Some 0 /\
  (main w fuel []).1 = Raise KeyboardInterrupt /\
  (run w fuel []).2 =
    (main w fuel []).2
      ++ [EvPrint ((nl +:+ nl +:+ "Operation cancelled by user. Exiting...") +:+ nl)] /\
  last (printed (run w fuel []).2) =
    Some ((nl +:+ nl +:+ "Operation cancelled by user. Exiting...") +:+ nl) /\
  ((run w fuel []).2 !! k = Some EvInterrupt \/
   exists command,
     (run w fuel []).2 !! k = Some (EvSystem command) /\
     (run w fuel []).2 !! S k = Some EvInterrupt).
Proof.
  pose proof (hoare_main_ended w fuel [] (waiting_nil w)) as Hended.
  cbn [app] in Hended.
  assert ((main w fuel []).1 = Raise KeyboardInterrupt) as Hmain.
  { destruct (main w fuel []) as [r T] eqn:Emain. cbn [fst snd] in *.
    assert (r = Raise KeyboardInterrupt \/ r <> Raise KeyboardInterrupt) as [Hr|Hr]
      by (destruct r as [a|x|]; [right; discriminate| |right; discriminate];
          destruct x; auto; right; discriminate).
    { exact Hr. }
    exfalso. rewrite run_not_cancelled in Hduring, Hheard by (rewrite Emain; exact Hr).
    rewrite Emain in Hduring, Hheard. cbn [fst snd] in *.
    assert (waiting w T) as [[Hp|Hu] _].
    { destruct r as [a|x|]; [exact Hended| |exact Hended].
      destruct x; try (destruct Hended as [_ Hw]; exact Hw). congruence. }
    - specialize (Hp k Hscheduled). lia.
    - destruct Hu as (k' & command & Hat & Hlook & Hin & Hos).
      assert (k' = k) as -> by congruence.
      destruct Hheard as [H|[H|H]]; [congruence| |exact (H command Hlook)].
      rewrite H in Hos. discriminate. }
  rewrite Hmain in Hended. cbn [ended] in Hended.
  rewrite (run_cancelled w fuel Hmain). cbn [fst snd].
  split; [reflexivity|]. split; [reflexivity|]. split; [exact Hmain|].
  split; [reflexivity|]. split.
  - unfold printed. rewrite omap_app. cbn. apply last_snoc.
  - destruct (cancelled_rank w _ [EvPrint (cancelled_msg +:+ nl)] Hended)
      as (_ & k' & Hat & Hrank).
    assert (k' = k) as -> by congruence. exact Hrank.
Qed.

Lemma interrupt_exits_cleanly_witness :
  (run (with_interrupt example_world (Some 30%nat)) 2 []).1 = Raise (SystemExit 0) /\
  exit_status (run (with_interrupt example_world (Some 30%nat)) 2 []).1 = Some 0 /\
  (main (with_interrupt example_world (Some 30%nat)) 2 []).1 = Raise KeyboardInterrupt /\
  (run (with_interrupt example_world (Some 30%nat)) 2 []).2 =
    (main (with_interrupt example_world (Some 30%nat)) 2 []).2
      ++ [EvPrint ((nl +:+ nl +:+ "Operation cancelled by user. Exiting...") +:+ nl)] /\
  last (printed (run (with_interrupt example_world (Some 30%nat)) 2 []).2) =
    Some ((nl +:+ nl +:+ "Operation cancelled by user. Exiting...") +:+ nl) /\
  ((run (with_interrupt example_world (Some 30%nat)) 2 []).2 !! 30%nat = Some EvInterrupt \/
   exists command,
     (run (with_interrupt example_world (Some 30%nat)) 2 []).2 !! 30%nat
       = Some (EvSystem command) /\
     (run (with_interrupt example_world (Some 30%nat)) 2 []).2 !! 31%nat
       = Some EvInterrupt).
Proof.
  apply (interrupt_exits_cleanly (with_interrupt example_world (Some 30%nat)) 2 30).
  - reflexivity.
  - vm_compute. lia.
  - left. reflexivity.
Defined.

(** The interrupt that is not heard: on a POSIX system the user presses
    the key while [clear] runs (the sixth effect of the run, after the
    banner and the reading of the token). The command ends, the run goes
    on to the end and deletes the four selected repositories; no
    cancellation message is printed and [run] returns. *)
Lemma interrupt_during_clear_goes_unheard :
  interrupt_at (with_interrupt_in_command example_world 5) = Some 5%nat /\
  os_name (with_interrupt_in_command example_world 5) = "posix" /\
  (5 < length (run (with_interrupt_in_command example_world 5) 2 []).2)%nat /\
  (run (with_interrupt_in_command example_world 5) 2 []).2 !! 5%nat
    = Some (EvSystem "clear") /\
  (run (with_interrupt_in_command example_world 5) 2 []).1 = Return tt /\
  (run (with_interrupt_in_command example_world 5) 2 []).1 <> Raise (SystemExit 0) /\
  existsb (String.eqb ((nl +:+ nl +:+ "Operation cancelled by user. Exiting...") +:+ nl))
          (printed (run (with_interrupt_in_command example_world 5) 2 []).2) = false /\
  interrupted (run (with_interrupt_in_command example_world 5) 2 []).2 = false /\
  run (with_interrupt_in_command example_world 5) 2 [] = run example_world 2 [] /\
  length (delete_calls (run (with_interrupt_in_command example_world 5) 2 []).2) = 4%nat.
Proof.
  split; [reflexivity|]. split; [reflexivity|]. split; [vm_compute; lia|].
  split; [by vm_compute|]. split; [by vm_compute|]. split; [by vm_compute|].
  split; [by vm_compute|]. split; [by vm_compute|]. split; by vm_compute.
Qed.


(** X13: nothing follows the interrupt but the closing of the session and
    the cancellation message: the interrupt stands in the trace of a run
    once at most, where it struck (at its rank, or under Windows right
    after the command that was running at its rank), and what comes after
    it is the message, preceded by the [close] when the client existed; no
    request is made after it, and [run] then ends with [sys.exit(0)]. *)
Theorem nothing_follows_the_interrupt (w : World) (fuel : nat) :
  (forall pre post,
     (run w fuel []).2 = pre ++ EvInterrupt :: post ->
     struck w pre /\
     (EvInterrupt ∉ pre) /\
     (post = [EvPrint ((nl +:+ nl +:+ "Operation cancelled by user. Exiting...") +:+ nl)] \/
      post = [EvClose;
              EvPrint ((nl +:+ nl +:+ "Operation cancelled by user. Exiting...") +:+ nl)]) /\
     delete_calls (run w fuel []).2 = delete_calls pre /\
     get_answers (run w fuel []).2 = get_answers pre /\
     (run w fuel []).1 = Raise (SystemExit 0)) /\
  (interrupt_at w = None -> EvInterrupt ∉ (run w fuel []).2).
Proof.
  change ((nl +:+ nl +:+ "Operation cancelled by user. Exiting...") +:+ nl)
    with (cancelled_msg +:+ nl).
  pose proof (run_ends w fuel) as Hrun.
  destruct (run w fuel []) as [r T]. cbn [fst snd] in *.
  assert (r = Raise (SystemExit 0) /\
          (exists p tail,
             T = p ++ EvInterrupt :: tail /\ struck w p /\
             (EvInterrupt ∉ p) /\
             (tail = [EvPrint (cancelled_msg +:+ nl)] \/
              tail = [EvClose; EvPrint (cancelled_msg +:+ nl)])) \/
          EvInterrupt ∉ T) as [[-> (p & tail & -> & Hat & Hp & Htail)]|Hn].
  { destruct r as [[]|x|]; [right; apply Hrun| |right; apply Hrun].
    destruct x; try (right; apply Hrun). left.
    destruct Hrun as (-> & h1 & -> & [(p & -> & Hat & Hp)|(h2 & -> & (p & -> & Hat & Hp))]);
      (split; [reflexivity|]).
    - exists p, [EvPrint (cancelled_msg +:+ nl)]. rewrite <- app_assoc. auto.
    - exists p, [EvClose; EvPrint (cancelled_msg +:+ nl)]. rewrite <- !app_assoc. auto. }
  - split.
    + intros pre post Heq.
      assert (EvInterrupt ∉ tail) as Htl
        by (destruct Htail as [-> | ->]; rewrite ?elem_of_cons, elem_of_nil;
            intros H; repeat destruct H as [H|H]; try discriminate; exact H).
      destruct (unique_split _ _ _ _ _ Hp Htl Heq) as [-> ->].
      split; [exact Hat|]. split; [exact Hp|]. split; [exact Htail|].
      rewrite delete_calls_app, get_answers_app.
      destruct Htail as [-> | ->]; cbn; rewrite !app_nil_r; auto.
    + intros Hquiet. exfalso.
      destruct Hat as [Hat|(before & command & _ & Hat & _)]; congruence.
  - split; [|intros _; exact Hn].
    intros pre post ->. destruct Hn. apply elem_of_app. right. left.
Qed.

(** ** The workflow: what is deleted *)

Lemma hoare_pre_pure_l {A} (P : Trace -> Prop) (fact : Prop) (m : M A) Q :
  (fact -> hoare P m Q) -> hoare (fun h => fact /\ P h) m Q.
Proof. intros H h [Hf Hp]. exact (H Hf h Hp). Qed.

Section Targets.
Variable w : World.

Lemma deleting_calm answers lines urls h ev :
  calm ev -> deleting answers lines urls h -> deleting answers lines urls (h ++ [ev]).
Proof.
  intros Hc (Hg & Hl & Hd). pose proof (obs_calm h ev Hc) as E. unfold obs in E.
  injection E as Eg El Ed. unfold deleting. rewrite Eg, El, Ed. auto.
Qed.

Lemma targets_selected_calm h ev : calm ev -> targets_selected (machine w) h -> targets_selected (machine w) (h ++ [ev]).
Proof.
  intros Hc. pose proof (obs_calm h ev Hc) as E. unfold obs in E. injection E as Eg El Ed.
  unfold targets_selected, listing_of. rewrite Eg, El, Ed. auto.
Qed.

Lemma hoare_calm_targets {A} (m : M A) :
  emits calm m -> hoare (targets_selected (machine w)) m (fun _ h => targets_selected (machine w) h).
Proof.
  intros Hm. apply (hoare_emits calm m (targets_selected (machine w)) Hm).
  intros h ev Hc Ht. apply targets_selected_calm; assumption.
Qed.

Lemma hoare_calm_deleting {A} (m : M A) answers lines urls :
  emits calm m ->
  hoare (deleting answers lines urls) m (fun _ h => deleting answers lines urls h).
Proof.
  intros Hm. apply (hoare_emits calm m _ Hm).
  intros h ev Hc Hd. apply deleting_calm; assumption.
Qed.

Lemma hoare_calm_untargeted {A} (m : M A) answers lines :
  emits calm m -> hoare (before_deletes answers lines) m (fun _ h => targets_selected (machine w) h).
Proof.
  intros Hm. eapply hoare_consequence; [apply (hoare_calm m answers lines Hm)|auto|].
  intros [a|x|] h Hs; cbn in Hs; left; [eapply before_deletes_none, Hs|exact Hs..].
Qed.

Lemma untargeted_no_return {A} (r : Result A) h :
  (forall a, r <> Return a) -> delete_calls h = [] -> targets_selected (machine w) h.
Proof. intros _ Hd. left. exact Hd. Qed.

Lemma hoare_delete_repository_url self owner repo_name answers lines urls :
  hoare (deleting answers lines urls) (delete_repository w self owner repo_name)
        (fun r h => match r with
                    | Return _ => deleting answers lines (urls ++ [repo_url owner repo_name]) h
                    | _ => deleting answers lines urls h
                    end).
Proof.
  intros h (Hg & Hl & Hd). rewrite delete_repository_eq.
  destruct (interrupt_due w h); cbn [fst snd].
  - apply deleting_calm; [apply calm_interrupt|]. split; auto.
  - unfold deleting. rewrite get_answers_app, lines_read_app, delete_calls_app, fmap_app, Hd.
    cbn. rewrite !app_nil_r. auto.
Qed.

Lemma hoare_delete_selected_prefix client answers lines selected_repos :
  forall success_count urls,
    hoare (deleting answers lines urls)
          (delete_selected w client selected_repos success_count)
          (fun _ h => exists done,
                        done `prefix_of` (delete_url <$> selected_repos) /\
                        deleting answers lines (urls ++ done) h).
Proof.
  induction selected_repos as [|repo rest IH]; intros success_count urls;
    cbn [delete_selected].
  - apply hoare_ret. intros h Hd. exists []. rewrite app_nil_r. split; [reflexivity|exact Hd].
  - cbv zeta.
    assert (forall h, deleting answers lines urls h ->
              exists done, done `prefix_of` (delete_url <$> repo :: rest) /\
                           deleting answers lines (urls ++ done) h) as Hnone.
    { intros h Hd. exists []. rewrite app_nil_r. split; [apply prefix_nil|exact Hd]. }
    assert (forall h, deleting answers lines (urls ++ [delete_url repo]) h ->
              exists done, done `prefix_of` (delete_url <$> repo :: rest) /\
                           deleting answers lines (urls ++ done) h) as Hone.
    { intros h Hd. exists [delete_url repo]. split; [|exact Hd].
      rewrite fmap_cons. apply (prefix_app [delete_url repo] []), prefix_nil. }
    eapply hoare_bind; [apply hoare_calm_deleting; auto with emits| |auto..].
    intros ?. eapply hoare_bind;
      [apply hoare_delete_repository_url| |intros x h; apply Hnone|intros h; apply Hnone].
    intros deleted.
    eapply hoare_bind with
      (R := fun _ h => deleting answers lines (urls ++ [delete_url repo]) h);
      [|intros c|intros x h; apply Hone|intros h; apply Hone].
    + destruct deleted;
        (eapply hoare_bind; [apply hoare_calm_deleting; auto with emits| |auto..];
         intros ?; apply hoare_ret; auto).
    + eapply hoare_consequence; [apply (IH c (urls ++ [delete_url repo]))|auto|].
      intros r h (done & Hpre & Hd). exists (delete_url repo :: done).
      split; [rewrite fmap_cons; apply prefix_cons, Hpre|].
      rewrite <- app_assoc in Hd. exact Hd.
Qed.
End Targets.

Section TargetsRun.
Variable w : World.

Lemma hoare_main_with_targets client fuel :
  hoare (before_deletes [] []) (main_with w client fuel) (fun _ h => targets_selected (machine w) h).
Proof.
  unfold main_with.
  eapply hoare_bind_stage; [apply hoare_fetch| |intros r h; apply untargeted_no_return].
  intros [repos|]; [|apply hoare_ret; intros h Hd; left; exact Hd].
  unfold fetched_state. apply hoare_pre_exists. intros answers.
  apply hoare_pre_pure. intros Hlisting.
  eapply hoare_bind_stage;
    [apply hoare_calm; auto with emits|intros ?|intros r h; apply untargeted_no_return].
  destruct repos as [|repo repos]; [apply hoare_calm_untargeted; auto with emits|].
  do 4 (eapply hoare_bind_stage;
        [apply hoare_calm; auto with emits|intros ?|intros r h; apply untargeted_no_return]).
  eapply hoare_bind_stage; [apply hoare_input| |intros r h; apply untargeted_no_return].
  intros input_str. cbn [app].
  destruct (parse_indices (machine w) input_str _) as [[[|i indices]|]|e|] eqn:Hparse;
    [apply hoare_calm_untargeted; auto with emits|
    |apply hoare_calm_untargeted; auto with emits..].
  destruct (comprehension_getitem_in_range (repo :: repos) (i :: indices)
              (parse_indices_range _ _ _ _ Hparse)) as (selected & Hrun & Hsel).
  eapply hoare_bind_yields with (S := before_deletes answers [input_str]).
  { intros h Hh. rewrite Hrun. cbn [fst snd]. rewrite app_nil_r. auto. }
  eapply hoare_bind_stage;
    [apply hoare_calm; auto with emits|intros ?|intros r h; apply untargeted_no_return].
  eapply hoare_bind_stage;
    [apply hoare_confirm_deletion| |intros r h; apply untargeted_no_return].
  intros confirmed. apply hoare_pre_exists. intros confirm. cbn [app].
  apply hoare_pre_pure. intros ->.
  destruct (String.eqb (Py.strip confirm) "DELETE"); cbn [negb];
    [|apply hoare_calm_untargeted; auto with emits].
  assert (forall h, (exists done,
                       done `prefix_of` (delete_url <$> selected) /\
                       deleting answers [input_str; confirm] ([] ++ done) h) ->
                    targets_selected (machine w) h) as Hend.
  { intros h (done & Hpre & Hg & Hl & Hd). right.
    exists (repo :: repos), input_str, confirm, (i :: indices), selected.
    unfold listing_of. rewrite Hg, Hl, Hd. auto. }
  assert (forall h, deleting answers [input_str; confirm] [] h -> targets_selected (machine w) h)
    as Hstart.
  { intros h Hd. apply Hend. exists []. split; [apply prefix_nil|exact Hd]. }
  eapply hoare_consequence with
    (P' := deleting answers [input_str; confirm] [])
    (Q' := fun _ h => targets_selected (machine w) h); [| |auto].
  - eapply hoare_bind; [apply hoare_calm_deleting; auto with emits| |auto..].
    intros ?. eapply hoare_bind with
      (R := fun _ h => exists done,
                         done `prefix_of` (delete_url <$> selected) /\
                         deleting answers [input_str; confirm] ([] ++ done) h);
      [apply hoare_delete_selected_prefix| |auto..].
    intros success_count. apply hoare_pre_exists. intros done.
    apply hoare_pre_pure_l. intros Hpre.
    eapply hoare_consequence;
      [apply (hoare_calm_deleting _ answers [input_str; confirm] ([] ++ done));
       auto with emits
      |intros h Hd; exact Hd|].
    intros r h Hd. apply Hend. exists done. auto.
  - intros h Hb. unfold before_deletes, obs in Hb. injection Hb as Hg Hl Hd.
    unfold deleting. rewrite Hg, Hl, Hd. auto.
Qed.

Lemma hoare_main_targets fuel :
  hoare (before_deletes [] []) (main w fuel) (fun _ h => targets_selected (machine w) h).
Proof.
  unfold main.
  do 5 (eapply hoare_bind_stage;
        [apply hoare_calm; auto with emits|intros ?|intros r h; apply untargeted_no_return]).
  eapply hoare_bind_stage;
    [apply hoare_calm; repeat emits_step|intros token
    |intros r h; apply untargeted_no_return].
  destruct (String.eqb token ""); [apply hoare_calm_untargeted; auto with emits|].
  eapply hoare_bind_stage;
    [apply hoare_calm; auto with emits|intros ?|intros r h; apply untargeted_no_return].
  cbv zeta. eapply hoare_finally; [apply hoare_main_with_targets|auto|].
  intros r _. eapply hoare_consequence;
    [apply (hoare_calm_targets w); unfold GitHubClient_exit; auto with emits|auto|].
  intros [[]|x|] h Hg; exact Hg.
Qed.

Lemma run_targets fuel : targets_selected (machine w) (run w fuel []).2.
Proof.
  assert (hoare (before_deletes [] []) (run w fuel) (fun _ h => targets_selected (machine w) h)) as H.
  { unfold run. eapply hoare_try_except; [apply hoare_main_targets|auto|auto|].
    intros []; auto. apply (hoare_calm_targets w). repeat emits_step. }
  exact (H [] eq_refl).
Qed.
End TargetsRun.

(** X14: a run deletes nothing but what was selected, in any world and
    wherever it is interrupted: the URLs of its delete requests are a
    beginning of the URLs of the repositories at the parsed indices of the
    listing, in the order of the indices; so every delete request is for a
    listed repository whose number was typed, and there are never more
    delete requests than indices. *)
Theorem only_selected_repositories_are_deleted (w : World) (fuel : nat) :
  (delete_calls (run w fuel []).2 = [] \/
   exists repos input_str confirm indices selected_repos,
     listing_of (run w fuel []).2 = Some repos /\
     lines_read (run w fuel []).2 = [input_str; confirm] /\
     parse_indices (machine w) input_str (Z.of_nat (length repos)) = Return (Some indices) /\
     Forall2 (fun i repo => repos !! Z.to_nat i = Some repo) indices selected_repos /\
     (delete_calls (run w fuel []).2).*1 `prefix_of` (delete_url <$> selected_repos) /\
     (length (delete_calls (run w fuel []).2) <= length indices)%nat) /\
  (forall url answer,
     (url, answer) ∈ delete_calls (run w fuel []).2 ->
     exists repos input_str confirm indices i repo,
       listing_of (run w fuel []).2 = Some repos /\
       lines_read (run w fuel []).2 = [input_str; confirm] /\
       parse_indices (machine w) input_str (Z.of_nat (length repos)) = Return (Some indices) /\
       i ∈ indices /\
       repos !! Z.to_nat i = Some repo /\
       url = delete_url repo).
Proof.
  destruct (run_targets w fuel)
    as [Hnone|(repos & input_str & confirm & indices & selected & Hl & Hlines & Hparse
               & Hsel & Hpre)].
  - split; [left; exact Hnone|]. intros url answer Hin. rewrite Hnone in Hin.
    apply elem_of_nil in Hin as [].
  - split.
    + right. exists repos, input_str, confirm, indices, selected.
      repeat (split; [assumption|]).
      apply prefix_length in Hpre.
      rewrite !length_fmap in Hpre. rewrite (Forall2_length _ _ _ Hsel). exact Hpre.
    + intros url answer Hin.
      assert (url ∈ delete_url <$> selected) as Hurl.
      { destruct Hpre as [rest ->]. apply elem_of_app. left.
        apply list_elem_of_fmap. exists (url, answer). auto. }
      apply list_elem_of_fmap in Hurl as (repo & -> & Hrepo).
      apply list_elem_of_lookup in Hrepo as [n Hn].
      destruct (Forall2_lookup_r _ _ _ _ _ Hsel Hn) as (i & Hi & Hlookup).
      exists repos, input_str, confirm, indices, i, repo.
      repeat (split; [assumption|]). split; [eapply list_elem_of_lookup_2, Hi|auto].
Qed.

(** ** The workflow: what is shown *)

Section QuietPrints.
Variable w : World.
Hypothesis Hquiet : interrupt_at w = None.

Lemma print_quiet text h : print w text h = (Return tt, [EvPrint (text +:+ nl)]).
Proof. unfold print, print_end. rewrite (perform_quiet w Hquiet). reflexivity. Qed.

Lemma for_each_print_quiet {A} (l : list A) (line : A -> string) h :
  for_each l (fun x => print w (line x)) h =
    (Return tt, EvPrint <$> ((fun x => line x +:+ nl) <$> l)).
Proof.
  revert h. induction l as [|x l IH]; intros h; [reflexivity|].
  cbn [for_each]. unfold bind. rewrite print_quiet, IH. reflexivity.
Qed.

Lemma inputs_read_prints h (texts : list string) :
  inputs_read (h ++ (EvPrint <$> texts)) = inputs_read h.
Proof.
  unfold inputs_read. rewrite List.filter_app, length_app.
  assert (List.filter (fun ev => match ev with EvInput _ _ => true | _ => false end)
            (EvPrint <$> texts) = []) as ->
    by (induction texts as [|t texts IH]; [reflexivity|exact IH]).
  apply Nat.add_0_r.
Qed.

Lemma confirm_deletion_quiet repos_to_delete h :
  confirm_deletion w repos_to_delete h =
    (match nth_error (stdin w) (inputs_read h) with
     | Some confirm => Return (String.eqb (Py.strip confirm) "DELETE")
     | None => Raise EOFError
     end,
     (EvPrint <$>
        ((nl +:+ "WARNING: You are about to delete "
             +:+ Py.str_of_int (Z.of_nat (length repos_to_delete)) +:+ " repositories!") +:+ nl)
        :: ("The following repositories will be deleted:" +:+ nl)
        :: ((fun repo =>
               ("- " +:+ name repo +:+ " (owner: " +:+ owner_login repo +:+ ")") +:+ nl)
              <$> repos_to_delete))
     ++ [EvInput (nl +:+ "To confirm deletion, type 'DELETE': ")
                 (nth_error (stdin w) (inputs_read h))]).
Proof.
  unfold confirm_deletion, bind. rewrite !print_quiet.
  rewrite (for_each_print_quiet repos_to_delete
             (fun repo => "- " +:+ name repo +:+ " (owner: " +:+ owner_login repo +:+ ")")).
  unfold input. rewrite (perform_quiet w Hquiet). cbn [fst snd].
  rewrite <- !app_assoc.
  change ([EvPrint ?a] ++ [EvPrint ?b] ++ (EvPrint <$> ?l)) with (EvPrint <$> (a :: b :: l)).
  set (texts := _ :: _ :: _).
  rewrite (inputs_read_prints h texts).
  destruct (nth_error (stdin w) (inputs_read h)); cbn [of_line ret fst snd app];
    rewrite ?app_nil_r; reflexivity.
Qed.
End QuietPrints.

Lemma printed_app h e : printed (h ++ e) = printed h ++ printed e.
Proof. apply omap_app. Qed.

Lemma printed_prints texts : printed (EvPrint <$> texts) = texts.
Proof.
  induction texts as [|text texts IH]; [reflexivity|].
  cbn [fmap list_fmap]. unfold printed in *. cbn [omap list_omap]. f_equal. exact IH.
Qed.

(** X15: [confirm_deletion] names what is about to be deleted and asks
    once: it prints the number of repositories, then one line for each of
    them with its name and owner, in order, reads one line, and returns
    [True] exactly when that line, trimmed, is [DELETE]; at end of file
    the [EOFError] of [input] is raised. It makes no request. *)
Theorem confirm_deletion_names_each_repository (w : World)
    (repos_to_delete : Repositories) (h : Trace) (Hquiet : interrupt_at w = None) :
  confirm_deletion w repos_to_delete h =
    (match nth_error (stdin w) (inputs_read h) with
     | Some confirm => Return (String.eqb (Py.strip confirm) "DELETE")
     | None => Raise EOFError
     end,
     (EvPrint <$>
        ((nl +:+ "WARNING: You are about to delete "
             +:+ Py.str_of_int (Z.of_nat (length repos_to_delete)) +:+ " repositories!") +:+ nl)
        :: ("The following repositories will be deleted:" +:+ nl)
        :: ((fun repo =>
               ("- " +:+ name repo +:+ " (owner: " +:+ owner_login repo +:+ ")") +:+ nl)
              <$> repos_to_delete))
     ++ [EvInput (nl +:+ "To confirm deletion, type 'DELETE': ")
                 (nth_error (stdin w) (inputs_read h))]) /\
  ((confirm_deletion w repos_to_delete h).1 = Return true <->
   exists confirm,
     nth_error (stdin w) (inputs_read h) = Some confirm /\ Py.strip confirm = "DELETE") /\
  (nth_error (stdin w) (inputs_read h) = None ->
   (confirm_deletion w repos_to_delete h).1 = Raise EOFError) /\
  length (printed (confirm_deletion w repos_to_delete h).2) = (2 + length repos_to_delete)%nat /\
  Forall (fun ev => request_headers ev = None) (confirm_deletion w repos_to_delete h).2.
Proof.
  rewrite (confirm_deletion_quiet w Hquiet). split; [reflexivity|]. cbn [fst snd].
  split; [|split; [intros ->; reflexivity|split]].
  - destruct (nth_error (stdin w) (inputs_read h)) as [confirm|]; split.
    + intros [= Heq]. exists confirm. split; [reflexivity|]. apply String.eqb_eq, Heq.
    + intros (c & [= <-] & Hc). f_equal. apply String.eqb_eq, Hc.
    + discriminate.
    + intros (c & [=] & _).
  - rewrite printed_app, printed_prints. cbn [printed omap list_omap app].
    rewrite app_nil_r. cbn [length]. rewrite length_fmap. reflexivity.
  - apply Forall_app. split; [|repeat constructor].
    apply Forall_fmap, Forall_forall. intros text _. reflexivity.
Qed.

Lemma confirm_deletion_names_each_repository_witness :
  confirm_deletion (with_stdin example_world ["  DELETE  "]) test_page [] =
    (match nth_error (stdin (with_stdin example_world ["  DELETE  "])) (inputs_read []) with
     | Some confirm => Return (String.eqb (Py.strip confirm) "DELETE")
     | None => Raise EOFError
     end,
     (EvPrint <$>
        ((nl +:+ "WARNING: You are about to delete "
             +:+ Py.str_of_int (Z.of_nat (length test_page)) +:+ " repositories!") +:+ nl)
        :: ("The following repositories will be deleted:" +:+ nl)
        :: ((fun repo =>
               ("- " +:+ name repo +:+ " (owner: " +:+ owner_login repo +:+ ")") +:+ nl)
              <$> test_page))
     ++ [EvInput (nl +:+ "To confirm deletion, type 'DELETE': ")
                 (nth_error (stdin (with_stdin example_world ["  DELETE  "]))
                            (inputs_read []))]) /\
  ((confirm_deletion (with_stdin example_world ["  DELETE  "]) test_page []).1 = Return true <->
   exists confirm,
     nth_error (stdin (with_stdin example_world ["  DELETE  "])) (inputs_read []) =
       Some confirm /\ Py.strip confirm = "DELETE") /\
  (nth_error (stdin (with_stdin example_world ["  DELETE  "])) (inputs_read []) = None ->
   (confirm_deletion (with_stdin example_world ["  DELETE  "]) test_page []).1 =
     Raise EOFError) /\
  length (printed (confirm_deletion (with_stdin example_world ["  DELETE  "])
                     test_page []).2) = (2 + length test_page)%nat /\
  Forall (fun ev => request_headers ev = None)
         (confirm_deletion (with_stdin example_world ["  DELETE  "]) test_page []).2.
Proof.
  apply (confirm_deletion_names_each_repository
           (with_stdin example_world ["  DELETE  "]) test_page []).
  reflexivity.
Defined.

Section TextWidth.

Lemma length_append (s t : string) :
  String.length (s +:+ t) = (String.length s + String.length t)%nat.
Proof.
  induction s as [|c s IH]; [reflexivity|].
  change (String c s +:+ t) with (String c (s +:+ t)). cbn [String.length]. rewrite IH. reflexivity.
Qed.

Lemma length_repeat_str (s : string) (n : nat) :
  String.length (repeat_str s n) = (n * String.length s)%nat.
Proof.
  induction n as [|n IH]; [reflexivity|].
  cbn [repeat_str]. rewrite length_append, IH. reflexivity.
Qed.

Lemma length_ljust (val : string) (width : nat) :
  (String.length val <= width)%nat -> String.length (ljust val width) = width.
Proof.
  intros Hle. unfold ljust. rewrite length_append, length_repeat_str. cbn [String.length]. lia.
Qed.

(** A row of three cells, padded to columns that hold them, is as long as
    the columns and the two separators. *)
Lemma length_table_line (x y z : string) (a b c : nat) :
  (String.length x <= a)%nat -> (String.length y <= b)%nat -> (String.length z <= c)%nat ->
  String.length (join "  " (zip_with ljust [x; y; z] [a; b; c]) +:+ nl) = (a + b + c + 5)%nat.
Proof.
  intros Hx Hy Hz. cbn [zip_with join].
  rewrite !length_append, !length_ljust by assumption. cbn [String.length nl]. lia.
Qed.

Lemma fold_widths (rows : list (list string)) :
  forall a b c,
    Forall (fun row => length row = 3%nat) rows ->
    exists a' b' c',
      fold_left (fun widths row => zip_with Nat.max widths (String.length <$> row))
                rows [a; b; c] = [a'; b'; c'] /\
      (a <= a')%nat /\ (b <= b')%nat /\ (c <= c')%nat /\
      Forall (fun row =>
                Forall2 (fun cell width => (String.length cell <= width)%nat)
                        row [a'; b'; c']) rows.
Proof.
  induction rows as [|row rows IH]; intros a b c Hrows.
  - exists a, b, c. repeat split; auto.
  - apply Forall_cons in Hrows as [Hrow Hrows].
    destruct row as [|x [|y [|z [|? ?]]]]; try discriminate.
    destruct (IH (Nat.max a (String.length x)) (Nat.max b (String.length y))
                 (Nat.max c (String.length z)) Hrows)
      as (a' & b' & c' & Hfold & Ha & Hb & Hc & Hbound).
    exists a', b', c'. cbn [fold_left fmap list_fmap zip_with].
    split; [exact Hfold|]. repeat (split; [lia|]).
    constructor; [|exact Hbound]. repeat constructor; lia.
Qed.
End TextWidth.

Section Table.
Variable w : World.
Hypothesis Hquiet : interrupt_at w = None.

Lemma display_repositories_quiet repo repos h :
  exists wn wname wvis : nat,
    display_repositories w (repo :: repos) h =
      (Return tt,
       EvPrint <$>
         (join "  " (zip_with ljust ["#"; "Repository Name"; "Visibility"]
                       [wn; wname; wvis]) +:+ nl)
         :: (repeat_str "-" (wn + wname + wvis + 4) +:+ nl)
         :: imap (fun i repo =>
                    join "  " (zip_with ljust (table_row i repo) [wn; wname; wvis]) +:+ nl)
                 (repo :: repos)) /\
    (1 <= wn)%nat /\ (15 <= wname)%nat /\ (10 <= wvis)%nat /\
    (forall i repo',
       (repo :: repos) !! i = Some repo' ->
       Forall2 (fun cell width => (String.length cell <= width)%nat)
               (table_row i repo') [wn; wname; wvis]).
Proof.
  destruct (fold_widths (imap table_row (repo :: repos)) 1 15 10)
    as (wn & wname & wvis & Hfold & Hn & Hname & Hvis & Hbound).
  { apply Forall_forall. intros row (i & repo' & -> & _)%elem_of_lookup_imap. reflexivity. }
  exists wn, wname, wvis. split; [|repeat (split; [assumption|])].
  - unfold display_repositories. cbv zeta.
    change (String.length <$> ["#"; "Repository Name"; "Visibility"])
      with [1%nat; 15%nat; 10%nat].
    rewrite Hfold. unfold bind. rewrite !(print_quiet w Hquiet).
    rewrite (for_each_print_quiet w Hquiet (imap table_row (repo :: repos))
               (fun row => join "  " (zip_with ljust row [wn; wname; wvis]))).
    cbn [fst snd app]. rewrite fmap_imap.
    replace (foldr Nat.add 0 [wn; wname; wvis]
             + (length ["#"; "Repository Name"; "Visibility"] - 1) * 2)%nat
      with (wn + wname + wvis + 4)%nat by (cbn [foldr length]; lia).
    reflexivity.
  - intros i repo' Hi. rewrite Forall_forall in Hbound. apply Hbound.
    apply elem_of_lookup_imap. eauto.
Qed.
End Table.

(** X16: [display_repositories] prints nothing for an empty list, and for
    any other a header, a rule of hyphens and one row per repository, in
    the order of the list and numbered from 1, each row showing the number,
    the name and the visibility; the three columns are wide enough for
    their title and every cell, so all the lines have the same length. *)
Theorem display_repositories_prints_an_aligned_table (w : World) (repos : Repositories)
    (h : Trace) (Hquiet : interrupt_at w = None) :
  (repos = [] -> display_repositories w repos h = (Return tt, [])) /\
  (repos <> [] ->
   exists wn wname wvis : nat,
     display_repositories w repos h =
       (Return tt,
        EvPrint <$>
          (join "  " (zip_with ljust ["#"; "Repository Name"; "Visibility"]
                        [wn; wname; wvis]) +:+ nl)
          :: (repeat_str "-" (wn + wname + wvis + 4) +:+ nl)
          :: imap (fun i repo =>
                     join "  " (zip_with ljust (table_row i repo) [wn; wname; wvis]) +:+ nl)
                  repos) /\
     (forall i repo,
        repos !! i = Some repo ->
        (String.length (Py.str_of_int (Z.of_nat i + 1)) <= wn)%nat /\
        (String.length (name repo) <= wname)%nat) /\
     length (printed (display_repositories w repos h).2) = (2 + length repos)%nat /\
     Forall (fun line => String.length line = (wn + wname + wvis + 5)%nat)
            (printed (display_repositories w repos h).2)).
Proof.
  split; [intros ->; reflexivity|]. intros Hne.
  destruct repos as [|repo repos]; [congruence|].
  destruct (display_repositories_quiet w Hquiet repo repos h)
    as (wn & wname & wvis & Hrun & Hn & Hname & Hvis & Hbound).
  exists wn, wname, wvis. split; [exact Hrun|]. rewrite Hrun. cbn [fst snd].
  rewrite printed_prints. split; [|split].
  - intros i repo' Hi. specialize (Hbound i repo' Hi).
    apply Forall2_cons in Hbound as [H1 Hbound].
    apply Forall2_cons in Hbound as [H2 _]. auto.
  - cbn [length]. rewrite length_imap. reflexivity.
  - constructor; [apply length_table_line; cbn [String.length]; lia|].
    constructor.
    { rewrite length_append, length_repeat_str. cbn [String.length nl]. lia. }
    apply Forall_forall. intros line (i & repo' & -> & Hi)%elem_of_lookup_imap.
    specialize (Hbound i repo' Hi).
    apply Forall2_cons in Hbound as [H1 Hbound].
    apply Forall2_cons in Hbound as [H2 Hbound].
    apply Forall2_cons in Hbound as [H3 _].
    apply length_table_line; assumption.
Qed.

Lemma display_repositories_prints_an_aligned_table_witness :
  (ten_repos = [] -> display_repositories example_world ten_repos [] = (Return tt, [])) /\
  (ten_repos <> [] ->
   exists wn wname wvis : nat,
     display_repositories example_world ten_repos [] =
       (Return tt,
        EvPrint <$>
          (join "  " (zip_with ljust ["#"; "Repository Name"; "Visibility"]
                        [wn; wname; wvis]) +:+ nl)
          :: (repeat_str "-" (wn + wname + wvis + 4) +:+ nl)
          :: imap (fun i repo =>
                     join "  " (zip_with ljust (table_row i repo) [wn; wname; wvis]) +:+ nl)
                  ten_repos) /\
     (forall i repo,
        ten_repos !! i = Some repo ->
        (String.length (Py.str_of_int (Z.of_nat i + 1)) <= wn)%nat /\
        (String.length (name repo) <= wname)%nat) /\
     length (printed (display_repositories example_world ten_repos []).2) =
       (2 + length ten_repos)%nat /\
     Forall (fun line => String.length line = (wn + wname + wvis + 5)%nat)
            (printed (display_repositories example_world ten_repos []).2)).
Proof.
  apply (display_repositories_prints_an_aligned_table example_world ten_repos []).
  reflexivity.
Defined.

(** ** The workflow: the ways out before the deletions *)

Section EarlyExits.
Variable w : World.
Hypothesis Hquiet : interrupt_at w = None.







End EarlyExits.





(** ** The repository client, in any world *)

Section ClientSound.
Variable w : World.
Variable self : GitHubClient.

Lemma serves_cons_2 first data pages :
  data <> [] -> page_of (api_get w (repos_url first 100)) = Some data ->
  serves w (first + 1) pages -> serves w first (data :: pages).
Proof.
  intros Hdata Hpage Hrest [|i] d.
  - intros [= <-]. rewrite Z.add_0_r. auto.
  - intros Hi. destruct (Hrest i d Hi) as [Hd Hp]. split; [exact Hd|].
    rewrite <- Hp. do 3 f_equal. lia.
Qed.

Lemma get_repositories_from_returns fuel :
  forall repos page h listed,
    (get_repositories_from w self fuel repos page h).1 = Return listed ->
    exists pages,
      serves w page pages /\
      page_of (api_get w (repos_url (page + Z.of_nat (length pages)) 100)) = Some [] /\
      listed = repos ++ concat pages /\
      (get_repositories_from w self fuel repos page h).2 =
        page_request w self <$> seqZ page (Z.of_nat (length pages) + 1) /\
      (length pages < fuel)%nat.
Proof.
  induction fuel as [|fuel IH]; intros repos page h listed; [discriminate|].
  cbn [get_repositories_from]. unfold bind. rewrite get_repositories_turn_cases.
  destruct (interrupt_due w h); [discriminate|].
  destruct (api_get w (repos_url page 100)) as [response|e] eqn:Hanswer; [|discriminate].
  destruct (status_code response =? 200) eqn:Hstatus; cbn [negb]; [|discriminate].
  destruct (json_data response) as [|repo data] eqn:Hdata.
  - cbn [ret fst snd]. intros [= <-]. exists []. cbn [length concat Z.of_nat].
    rewrite Z.add_0_r, app_nil_r, Hanswer. cbn [page_of]. rewrite Hstatus, Hdata.
    split; [apply serves_nothing|]. do 3 (split; [reflexivity|]). lia.
  - specialize (IH (repos ++ repo :: data) (page + 1) (h ++ [page_request w self page])).
    destruct (get_repositories_from w self fuel _ _ _) as [r t]. cbn [fst snd] in *.
    intros ->. destruct (IH listed eq_refl) as (pages & Hserves & Hlast & -> & -> & Hfuel).
    exists ((repo :: data) :: pages). split; [|split; [|split; [|split]]].
    + apply serves_cons_2; [discriminate| |exact Hserves].
      rewrite Hanswer. cbn [page_of]. rewrite Hstatus, Hdata. reflexivity.
    + rewrite <- Hlast. do 3 f_equal. cbn [length]. lia.
    + cbn [concat]. rewrite <- app_assoc. reflexivity.
    + cbn [length]. rewrite (seqZ_cons page) by lia. rewrite fmap_cons.
      cbn [app]. do 3 f_equal; lia.
    + cbn [length]. lia.
Qed.

Lemma get_repositories_from_raises fuel :
  forall repos page h msg,
    (get_repositories_from w self fuel repos page h).1 = Raise (GitHubError msg) ->
    exists pages,
      serves w page pages /\
      ((exists response,
          api_get w (repos_url (page + Z.of_nat (length pages)) 100) = Responds response /\
          status_code response <> 200 /\ msg = fetch_error_msg response) \/
       (exists e,
          api_get w (repos_url (page + Z.of_nat (length pages)) 100) = Fails e /\
          msg = "Connection error: " +:+ e)) /\
      (get_repositories_from w self fuel repos page h).2 =
        page_request w self <$> seqZ page (Z.of_nat (length pages) + 1).
Proof.
  induction fuel as [|fuel IH]; intros repos page h msg; [discriminate|].
  cbn [get_repositories_from]. unfold bind. rewrite get_repositories_turn_cases.
  destruct (interrupt_due w h); [discriminate|].
  destruct (api_get w (repos_url page 100)) as [response|e] eqn:Hanswer.
  - destruct (status_code response =? 200) eqn:Hstatus; cbn [negb].
    + destruct (json_data response) as [|repo data] eqn:Hdata; [discriminate|].
      specialize (IH (repos ++ repo :: data) (page + 1) (h ++ [page_request w self page])).
      destruct (get_repositories_from w self fuel _ _ _) as [r t]. cbn [fst snd] in *.
      intros ->. destruct (IH msg eq_refl) as (pages & Hserves & Hfail & ->).
      exists ((repo :: data) :: pages). split; [|split].
      * apply serves_cons_2; [discriminate| |exact Hserves].
        rewrite Hanswer. cbn [page_of]. rewrite Hstatus, Hdata. reflexivity.
      * replace (page + Z.of_nat (length ((repo :: data) :: pages)))
          with (page + 1 + Z.of_nat (length pages)) by (cbn [length]; lia).
        exact Hfail.
      * cbn [length]. rewrite (seqZ_cons page) by lia. rewrite fmap_cons.
        cbn [app]. do 3 f_equal; lia.
    + cbn [fst snd]. intros [= <-]. exists []. cbn [length Z.of_nat].
      rewrite Z.add_0_r. split; [apply serves_nothing|]. split; [|reflexivity].
      left. exists response. apply Z.eqb_neq in Hstatus. auto.
  - cbn [fst snd]. intros [= <-]. exists []. cbn [length Z.of_nat].
    rewrite Z.add_0_r. split; [apply serves_nothing|]. split; [|reflexivity].
    right. exists e. auto.
Qed.
End ClientSound.

(** X18: what [get_repositories] returns is what was served, in any world:
    if it returns a list, the endpoint answered the pages 1 to n with
    non-empty pages and the page n+1 with an empty one, the list is their
    concatenation, and exactly these n+1 requests were made; if it raises
    [GitHubError], the pages before the failing one were served and the
    message is that of the failing answer. *)
Theorem get_repositories_returns_what_was_served (w : World) (self : GitHubClient)
    (fuel : nat) (h : Trace) :
  (forall listed,
     (get_repositories w self fuel h).1 = Return listed ->
     exists pages,
       serves w 1 pages /\
       page_of (api_get w (repos_url (1 + Z.of_nat (length pages)) 100)) = Some [] /\
       listed = concat pages /\
       (get_repositories w self fuel h).2 =
         page_request w self <$> seqZ 1 (Z.of_nat (length pages) + 1) /\
       (length pages < fuel)%nat) /\
  (forall msg,
     (get_repositories w self fuel h).1 = Raise (GitHubError msg) ->
     exists pages,
       serves w 1 pages /\
       ((exists response,
           api_get w (repos_url (1 + Z.of_nat (length pages)) 100) = Responds response /\
           status_code response <> 200 /\ msg = fetch_error_msg response) \/
        (exists e,
           api_get w (repos_url (1 + Z.of_nat (length pages)) 100) = Fails e /\
           msg = "Connection error: " +:+ e)) /\
       (get_repositories w self fuel h).2 =
         page_request w self <$> seqZ 1 (Z.of_nat (length pages) + 1)).
Proof.
  split.
  - intros listed Hr. exact (get_repositories_from_returns w self fuel [] 1 h listed Hr).
  - intros msg Hr. exact (get_repositories_from_raises w self fuel [] 1 h msg Hr).
Qed.

(** ** The selection parser and the count *)

Lemma filter_ascending (P : Z -> Prop) `{forall x, Decision (P x)} l :
  StronglySorted Z.lt l -> StronglySorted Z.lt (filter P l).
Proof.
  induction 1 as [|x l Hl IH Hx]; [constructor|].
  destruct (decide (P x)) as [Hp|Hp].
  - rewrite filter_cons_True by exact Hp. constructor; [exact IH|].
    apply Forall_forall. intros y [_ Hy]%list_elem_of_filter.
    rewrite Forall_forall in Hx. exact (Hx y Hy).
  - rewrite filter_cons_False by exact Hp. exact IH.
Qed.

Lemma parse_indices_smaller_count mc input_str N N' l' :
  N <= N' -> parse_indices mc input_str N' = Return (Some l') ->
  parse_indices mc input_str N = Return (Some (filter (fun i => i < N) l')).
Proof.
  intros Hle (raw & Hraw & ->)%parse_indices_Return.
  unfold parse_indices. rewrite Hraw. do 2 f_equal.
  rewrite <- (sorted_set_of_ascending (filter _ _))
    by apply filter_ascending, sorted_set_ascending.
  apply sorted_set_ext. intros i.
  rewrite list_elem_of_filter, sorted_set_elem, !elem_of_in_window. intuition lia.
Qed.

(** X19: the count only filters. How [parse_indices] ends, with a list,
    with [None] or with an exception, depends on the text alone (and the
    machine), not on the number of repositories; and its result for a
    smaller count is its result for a larger one without the indices that
    the smaller listing does not have. With no repository to select from,
    the only list it returns is the empty one. *)
Theorem count_only_filters (mc : Py.Machine) (input_str : string) (N N' : Z) :
  (parse_indices mc input_str N = Return None <->
   parse_indices mc input_str N' = Return None) /\
  (forall e, parse_indices mc input_str N = Raise e <->
             parse_indices mc input_str N' = Raise e) /\
  (forall l',
     N <= N' -> parse_indices mc input_str N' = Return (Some l') ->
     parse_indices mc input_str N = Return (Some (filter (fun i => i < N) l'))) /\
  (N <= 0 ->
   parse_indices mc input_str N = Return None \/
   parse_indices mc input_str N = Return (Some []) \/
   parse_indices mc input_str N = Raise OverflowError \/
   parse_indices mc input_str N = Raise MemoryError).
Proof.
  split; [|split; [|split]].
  - pose proof (parse_indices_count mc input_str N N') as H.
    destruct (parse_indices mc input_str N) as [[l|]|e|],
             (parse_indices mc input_str N') as [[l'|]|e'|];
      try destruct H; split; auto; discriminate.
  - intros e0. pose proof (parse_indices_count mc input_str N N') as H.
    destruct (parse_indices mc input_str N) as [[l|]|e|],
             (parse_indices mc input_str N') as [[l'|]|e'|];
      try destruct H; split; auto; discriminate.
  - intros l'. apply parse_indices_smaller_count.
  - intros Hn. pose proof (parse_indices_outcome mc input_str N) as Hout.
    destruct (parse_indices mc input_str N) as [[l|]|e|] eqn:Hparse;
      [|auto|destruct Hout as [-> | ->]; auto|destruct Hout].
    right. left. pose proof (parse_indices_range _ _ _ _ Hparse) as Hrange.
    destruct l as [|i l]; [reflexivity|]. apply Forall_cons in Hrange as [Hi _]. lia.
Qed.
